(** * Personal-Helpers: the identify-output parser, the HEIC batch pipeline
      and the date-folder organizer, embedded and verified.

    Sources embedded here:
      - [src/helpers/process_heic_images.py]
          ([parse_identify_output], [process_heic_images]);
      - [src/helpers/create_date_folders_in_images.py]
          ([create_image_directories]).

    Conventions.  A Python [str] is a list of Unicode code points, each an
    [N].  A Python [dict] is an association list in insertion order with
    unique keys.  Dictionaries are objects: they live in a store and are
    named by their address, so that the parser's stack of
    [(indent, dict)] pairs shares the dictionaries with the tree it is
    building, exactly as the Python code does. *)

From Stdlib Require Import NArith String Ascii.
#[local] Set Warnings "-register-all".
From stdpp Require Import base option list gmap.

Local Open Scope N_scope.
Local Open Scope nat_scope.

(** ** Python strings *)

Module Str.

Abbreviation char := N (only parsing).
Abbreviation str := (list N) (only parsing).

(** [str.isspace] on one code point, which is also the class [\s] of the
    [re] module on [str] patterns. *)
Definition isspace (c : char) : bool :=
  ((9 <=? c) && (c <=? 13) || (28 <=? c) && (c <=? 32) || (c =? 133)
   || (c =? 160) || (c =? 5760) || (8192 <=? c) && (c <=? 8202)
   || (c =? 8232) || (c =? 8233) || (c =? 8239) || (c =? 8287)
   || (c =? 12288))%N.

(** The line boundaries of [str.splitlines]. *)
Definition islinebreak (c : char) : bool :=
  ((10 <=? c) && (c <=? 13) || (28 <=? c) && (c <=? 30) || (c =? 133)
   || (c =? 8232) || (c =? 8233))%N.

Definition LF : char := 10%N.
Definition CR : char := 13%N.
Definition SP : char := 32%N.
Definition COLON : char := 58%N.
Definition DOT : char := 46%N.
Definition DASH : char := 45%N.

Fixpoint lstrip (s : str) : str :=
  match s with
  | c :: s' => if isspace c then lstrip s' else s
  | [] => []
  end.

Definition rstrip (s : str) : str := rev (lstrip (rev s)).

Definition strip (s : str) : str := rstrip (lstrip s).

(** [splitlines_from cur s]: [cur] holds, reversed, the characters of the
    line being read.  A line break ends the line, CR LF counting as one
    break; an unterminated last line is kept, and no empty line is added
    after a final break. *)
Fixpoint splitlines_from (cur : str) (s : str) : list str :=
  match s with
  | [] => match cur with [] => [] | _ => [rev cur] end
  | c :: s' =>
      if islinebreak c then
        match s' with
        | c' :: s'' =>
            if ((c =? CR) && (c' =? LF))%N
            then rev cur :: splitlines_from [] s''
            else rev cur :: splitlines_from [] s'
        | [] => [rev cur]
        end
      else splitlines_from (c :: cur) s'
  end.

Definition splitlines (s : str) : list str := splitlines_from [] s.

(** Literals: the code points of an 8-bit string. *)
Fixpoint of_string (s : string) : str :=
  match s with
  | EmptyString => []
  | String a s' => N_of_ascii a :: of_string s'
  end.

End Str.

Import Str.

(** ** The regular expression of [parse_identify_output]

    The pattern of [re.match] is: start of line, [\s] any number of times
    (greedy), group 1 = one or more of [.] (lazy), a colon, [\s] any number
    of times (greedy), group 2 = any number of [.] (greedy), end of line.
    It is written here as the backtracking matcher runs it: each quantifier
    is a function of the rest of the input and of the continuation that
    matches what follows it.  A greedy quantifier
    tries the longest repetition first, a lazy one the shortest. *)

Module Re.

(** [.] matches anything but a line feed. *)
Definition dot (c : char) : bool := negb (c =? LF)%N.

(** [p*]: [acc] is what the repetition has consumed so far. *)
Fixpoint star_greedy {A} (p : char → bool) (acc s : str)
    (k : str → str → option A) : option A :=
  match s with
  | c :: s' =>
      if p c then
        match star_greedy p (acc ++ [c]) s' k with
        | Some r => Some r
        | None => k acc s
        end
      else k acc s
  | [] => k acc []
  end.

(** [p*?] *)
Fixpoint star_lazy {A} (p : char → bool) (acc s : str)
    (k : str → str → option A) : option A :=
  match k acc s with
  | Some r => Some r
  | None =>
      match s with
      | c :: s' => if p c then star_lazy p (acc ++ [c]) s' k else None
      | [] => None
      end
  end.

(** [p+?] *)
Definition plus_lazy {A} (p : char → bool) (s : str)
    (k : str → str → option A) : option A :=
  match s with
  | c :: s' => if p c then star_lazy p [c] s' k else None
  | [] => None
  end.

(** A literal character. *)
Definition lit {A} (c : char) (s : str) (k : str → option A) : option A :=
  match s with
  | c' :: s' => if (c' =? c)%N then k s' else None
  | [] => None
  end.

(** [$]: the end of the string, or just before a line feed that ends it. *)
Definition at_end (s : str) : bool :=
  match s with
  | [] => true
  | [c] => (c =? LF)%N
  | _ => false
  end.

(** The two groups of the match, or [None] when the line does not match. *)
Definition key_value (line : str) : option (str * str) :=
  star_greedy isspace [] line (λ _ r1,
  plus_lazy dot r1 (λ g1 r2,
  lit COLON r2 (λ r3,
  star_greedy isspace [] r3 (λ _ r4,
  star_greedy dot [] r4 (λ g2 r5,
  if at_end r5 then Some (g1, g2) else None))))).

End Re.

(** ** Python objects of the parser *)

(** A value stored in a dictionary or in a list: a string, a list, or a
    reference to a dictionary of the store. *)
Inductive pyval :=
  | PStr (s : str)
  | PList (l : list pyval)
  | PRef (a : nat).

Abbreviation dict := (list (list N * pyval)) (only parsing).

(** [key in d] and [d[key]]: [None] is the [KeyError]. *)
Fixpoint dict_get (key : str) (d : dict) : option pyval :=
  match d with
  | [] => None
  | (k, v) :: d' => if decide (k = key) then Some v else dict_get key d'
  end.

(** [d[key] = v]: a present key keeps its place, a new one goes last. *)
Fixpoint dict_set (key : str) (v : pyval) (d : dict) : dict :=
  match d with
  | [] => [(key, v)]
  | (k, w) :: d' =>
      if decide (k = key) then (k, v) :: d' else (k, w) :: dict_set key v d'
  end.

Definition is_list (v : pyval) : bool :=
  match v with PList _ => true | _ => false end.

(** The value read back from the store: what the caller of
    [parse_identify_output] sees, and what [json.dump] writes. *)
Inductive tree :=
  | TStr (s : str)
  | TList (l : list tree)
  | TDict (d : list (str * tree)).

(** ** [parse_identify_output] *)

Module Parser.

(** [result] is the first dictionary allocated. *)
Definition result : nat := 0.

(** The store of dictionaries and the stack; the head of [stack] is
    [stack[-1]]. *)
Record pstate := PState {
  heap : list dict;
  stack : list (nat * nat)
}.

Definition init : pstate := PState [[]] [(0, result)].

(** [while stack and indent <= stack[-1][0]: stack.pop()] *)
Fixpoint pop_while (indent : nat) (stk : list (nat * nat)) : list (nat * nat) :=
  match stk with
  | (i, a) :: rest => if decide (indent ≤ i) then pop_while indent rest else stk
  | [] => []
  end.

(** [stack[-1][1] if stack else result] *)
Definition parent_of (stk : list (nat * nat)) : nat :=
  match stk with
  | (_, a) :: _ => a
  | [] => result
  end.

Definition indent_of (line : str) : nat :=
  length line - length (lstrip line).

(** The [else] branch of the loop body, on the dictionary [d] that
    [parent] names.  [None] is an exception: [parent[key]] on an absent
    key, or [append] on something that is not a list. *)
Definition add_value (key value : str) (d : dict) : option dict :=
  match dict_get key d with
  | Some _ =>
      old ← dict_get key d;
      let d1 := if is_list old then d else dict_set key (PList [old]) d in
      cur ← dict_get key d1;
      match cur with
      | PList l => Some (dict_set key (PList (l ++ [PStr value])) d1)
      | _ => None
      end
  | None => Some (dict_set key (PStr value) d)
  end.

(** One iteration of the loop over the lines.  [None] is an exception. *)
Definition process_line (st : pstate) (line : str) : option pstate :=
  if decide (strip line = []) then Some st
  else
    let indent := indent_of line in
    match Re.key_value line with
    | None => Some st
    | Some (g1, g2) =>
        let key := strip g1 in
        let value := strip g2 in
        let stk := pop_while indent (stack st) in
        let parent := parent_of stk in
        d ← heap st !! parent;
        if decide (value = []) then
          let new_dict := length (heap st) in
          Some (PState (<[parent := dict_set key (PRef new_dict) d]> (heap st) ++ [[]])
                       ((indent, new_dict) :: stk))
        else
          d' ← add_value key value d;
          Some (PState (<[parent := d']> (heap st)) stk)
    end.

Fixpoint run_lines (st : pstate) (lines : list str) : option pstate :=
  match lines with
  | [] => Some st
  | line :: rest => st' ← process_line st line; run_lines st' rest
  end.

(** Reading a value back from the store, following the references.
    [None]: a dangling reference, or more nesting than [fuel]. *)
Fixpoint reify (fuel : nat) (h : list dict) (v : pyval) : option tree :=
  match fuel with
  | 0 => None
  | S fuel' =>
      match v with
      | PStr s => Some (TStr s)
      | PList l => TList <$> mapM (reify fuel' h) l
      | PRef a =>
          d ← h !! a;
          TDict <$> mapM (λ kv, pair kv.1 <$> reify fuel' h kv.2) d
      end
  end.

Definition parse_identify_output (text : str) : option tree :=
  st ← run_lines init (splitlines text);
  reify (2 * length (heap st) + 1) (heap st) (PRef result).

End Parser.

Import Parser.

(** Shapes of the value read back.  [metadata_tree] is the data model of
    the specification: strings, lists of strings, nested mappings.
    [promoted_tree] lets the first element of a list be a nested mapping as
    well. *)

Definition is_TStr (t : tree) : bool :=
  match t with TStr _ => true | _ => false end.

Definition is_TList (t : tree) : bool :=
  match t with TList _ => true | _ => false end.

Fixpoint metadata_tree (t : tree) : bool :=
  match t with
  | TStr _ => true
  | TList l => forallb is_TStr l
  | TDict d => forallb (λ kv, metadata_tree kv.2) d
  end.

Fixpoint promoted_tree (t : tree) : bool :=
  match t with
  | TStr _ => true
  | TList l =>
      match l with
      | x :: l' => negb (is_TList x) && promoted_tree x && forallb is_TStr l'
      | [] => false
      end
  | TDict d => forallb (λ kv, promoted_tree kv.2) d
  end.

(** No key occurs twice in a mapping, at any level. *)
Fixpoint keys_unique (t : tree) : Prop :=
  match t with
  | TStr _ => True
  | TList l => foldr (λ x acc, keys_unique x ∧ acc) True l
  | TDict d => NoDup d.*1 ∧ foldr (λ kv acc, keys_unique kv.2 ∧ acc) True d
  end.

(** What [add_value] leaves under a key that held [old]: [old] itself with
    the new string appended when it is a list, else the two-element list
    of [old] and the new string. *)
Definition appended (old : pyval) (value : str) : pyval :=
  match old with
  | PList l => PList (l ++ [PStr value])
  | _ => PList [old; PStr value]
  end.

(** From the specification, for comparison with [Re.key_value]: the split
    of a line at the first colon that a space follows. *)
Fixpoint spec_split (acc line : str) : option (str * str) :=
  match line with
  | c :: rest =>
      match rest with
      | c' :: rest' =>
          if ((c =? COLON) && (c' =? SP))%N then Some (acc, rest')
          else spec_split (acc ++ [c]) rest
      | [] => None
      end
  | [] => None
  end.

(** A key or a value as it stands in a line: not empty, no white space at
    either end, no line break inside. *)
Definition clean (s : str) : Prop :=
  s ≠ [] ∧ strip s = s ∧ Forall (λ c, islinebreak c = false) s.

(** The line [key: value]. *)
Definition key_value_line (key value : str) : str :=
  key ++ COLON :: SP :: value.

(** A text given by its lines, each ended by a line feed. *)
Definition txt (ls : list string) : str :=
  concat (map (λ l, of_string l ++ [LF]) ls).

(** ** Scripts: state and exceptions

    Both utilities are sequences of effects on the file system and on
    standard output, with Python exceptions.  A script maps the world to an
    outcome (a value, or the exception raised) and the world it leaves. *)

Inductive exn :=
  | NotADirectoryError
  | FileExistsError
  | FileNotFoundError
  | IsADirectoryError
  | PermissionError
  | OSError
  | CalledProcessError
  | UnicodeEncodeError
  | UnicodeDecodeError
  | RecursionError
  | KeyOrAttributeError.

(** What the surroundings can make an operation raise besides the errors
    that the scripts expect: a file or a program that is not there, a
    missing permission, a directory where a file is opened, another error
    of the operating system, a text that cannot be encoded or decoded, a
    nesting that is too deep. *)
Inductive failure :=
  | NotThere
  | Denied
  | IsDirectory
  | SystemError
  | CannotEncode
  | CannotDecode
  | TooDeep.

Definition exn_of (f : failure) : exn :=
  match f with
  | NotThere => FileNotFoundError
  | Denied => PermissionError
  | IsDirectory => IsADirectoryError
  | SystemError => OSError
  | CannotEncode => UnicodeEncodeError
  | CannotDecode => UnicodeDecodeError
  | TooDeep => RecursionError
  end.

(** The exceptions that [except OSError] catches. *)
Definition is_OSError (e : exn) : bool :=
  match e with
  | NotADirectoryError | FileExistsError | FileNotFoundError
  | IsADirectoryError | PermissionError | OSError => true
  | _ => false
  end.

Global Instance exn_eq_dec : EqDecision exn.
Proof. solve_decision. Defined.

Module Script.
Section Script.
Context {W : Type}.

Definition script (A : Type) : Type := W → (exn + A) * W.

Definition ret {A} (x : A) : script A := λ w, (inr x, w).

Definition raise {A} (e : exn) : script A := λ w, (inl e, w).

Definition bind {A B} (m : script A) (k : A → script B) : script B :=
  λ w, match m w with
       | (inr x, w') => k x w'
       | (inl e, w') => (inl e, w')
       end.

(** [try: m except e: handler] *)
Definition try_except {A} (m : script A) (e : exn) (handler : script A)
    : script A :=
  λ w, match m w with
       | (inl e', w') => if decide (e' = e) then handler w' else (inl e', w')
       | r => r
       end.

Definition get : script W := λ w, (inr w, w).

Definition modify (f : W → W) : script unit := λ w, (inr tt, f w).

(** [for x in l: body x] *)
Fixpoint for_each {A} (l : list A) (body : A → script unit) : script unit :=
  match l with
  | [] => ret tt
  | x :: l' => bind (body x) (λ _, for_each l' body)
  end.

(** [if c: m] *)
Definition when (c : bool) (m : script unit) : script unit :=
  if c then m else ret tt.
End Script.
Arguments script : clear implicits.
End Script.

Import Script.

Notation "x <- m ;; k" := (bind m (λ x, k))
  (at level 20, m at level 99, k at level 200, only parsing).
Notation "m ;; k" := (bind m (λ _, k))
  (at level 100, k at level 200, right associativity, only parsing).

(** ** File names *)

Module Path.

Definition SLASH : char := 47%N.

(** A name that [glob] hides from a pattern not starting with a dot. *)
Definition hidden (name : str) : bool :=
  match name with
  | c :: _ => (c =? DOT)%N
  | [] => false
  end.

(** [s.rfind(c)]: the index one past the last [c], 0 when there is none
    (so that Python's -1 becomes 0 and every index is shifted by one). *)
Fixpoint rfind1 (c : char) (s : str) : nat :=
  match s with
  | [] => 0
  | c' :: s' =>
      match rfind1 c s' with
      | 0 => if (c' =? c)%N then 1 else 0
      | S i => S (S i)
      end
  end.

(** [os.path.splitext(p)[0]]: the extension starts at the last dot,
    unless only dots come between the last slash and it. *)
Definition splitext_root (p : str) : str :=
  match rfind1 DOT p with
  | 0 => p
  | S dotIndex =>
      let filenameIndex := rfind1 SLASH p in
      if existsb (λ c, negb (c =? DOT)%N)
           (take (dotIndex - filenameIndex) (drop filenameIndex p))
      then take dotIndex p
      else p
  end.

(** [os.path.basename(p)]: what follows the last slash. *)
Definition basename (p : str) : str := drop (rfind1 SLASH p) p.

(** [glob.has_magic(s)]: the string holds [*], [?] or an opening
    bracket, so that [glob] reads it as a pattern. *)
Definition has_magic (s : str) : bool :=
  existsb (λ c, (c =? 42) || (c =? 63) || (c =? 91))%N s.

(** [fnmatch] of a name against the pattern [*ext]. *)
Definition ends_with (ext name : str) : bool :=
  bool_decide (ext `suffix_of` name).

End Path.

Import Path.

(** ** [create_image_directories] *)

Module DateFolders.

(** What an entry of the file system is: a regular file, a directory,
    something else that exists (a FIFO, a socket, a device), or a symbolic
    link that leads nowhere.  A symbolic link that leads somewhere counts
    as what it leads to. *)
Inductive kind := KFile | KDir | KSpecial | KBroken.

Global Instance kind_eq_dec : EqDecision kind.
Proof. solve_decision. Defined.

(** A path is relative to [target_dir] and lists its components innermost
    first: [[]] is [target_dir], [[n]] is [target_dir/n], and
    [[d; images]] is [target_dir/images/d]. *)
Abbreviation path := (list (list N)) (only parsing).

(** The file system below [target_dir], and the directories reported on
    standard output. *)
Record world := World {
  fs : gmap path kind;
  out : list path
}.

(** What a run meets besides the file system below [target_dir]:
    - [digits], the class [\d] of the [re] module on [str] patterns, the
      set of Unicode decimal digits, a table of the interpreter;
    - [target_dir], the argument as it is given: [glob] reads it as part
      of its pattern;
    - [listable]: the entries of the target directory can be read; [glob]
      returns nothing for a directory that cannot;
    - [matched], for a [target_dir] that [glob] reads as a pattern: the
      base names of the regular files among the paths that [glob] returns,
      in the target directory or elsewhere (what is not a regular file is
      skipped by the loop and left out);
    - [refused p]: the error with which the operating system refuses to
      create the directory [p] in a parent that is a directory (missing
      permission, a file system that is read-only or full);
    - [unprintable p]: the error of [print] on the line that names [p] (a
      name that standard output cannot encode). *)
Record env := Env {
  digits : char → bool;
  target_dir : str;
  listable : bool;
  matched : list str;
  refused : path → option failure;
  unprintable : path → option failure
}.

Definition isdir (p : path) : script world bool :=
  w <- get ;; ret (bool_decide (fs w !! p = Some KDir)).

Definition isfile (p : path) : script world bool :=
  w <- get ;; ret (bool_decide (fs w !! p = Some KFile)).

(** [os.path.exists] follows symbolic links. *)
Definition exists_ (p : path) : script world bool :=
  w <- get ;;
  ret (match fs w !! p with
       | Some KBroken | None => false
       | Some _ => true
       end).

(** The names of the entries of directory [dir]. *)
Definition listdir (m : gmap path kind) (dir : path) : list str :=
  omap (λ pk, match pk.1 with
              | n :: d => if decide (d = dir) then Some n else None
              | [] => None
              end) (map_to_list m).

Definition images : str := of_string "images".

Section DateRegex.
Variable isdecimal : char → bool.

(** The pattern matched at the start of [s]. *)
Definition date_at (s : str) : bool :=
  match s with
  | y1 :: y2 :: y3 :: y4 :: h1 :: m1 :: m2 :: h2 :: d1 :: d2 :: _ =>
      isdecimal y1 && isdecimal y2 && isdecimal y3 && isdecimal y4
      && (h1 =? DASH)%N && isdecimal m1 && isdecimal m2
      && (h2 =? DASH)%N && isdecimal d1 && isdecimal d2
  | _ => false
  end.

(** [date_regex.search(s)] *)
Fixpoint date_search (s : str) : bool :=
  date_at s ||
  match s with
  | _ :: s' => date_search s'
  | [] => false
  end.
End DateRegex.

Section Run.
Variable E : env.

Definition print (p : path) : script world unit :=
  match unprintable E p with
  | Some e => raise (exn_of e)
  | None => modify (λ w, World (fs w) (out w ++ [p]))
  end.

(** [os.mkdir].  The name may be taken; the parent may be missing (or a
    link that leads nowhere) or not a directory; the operating system may
    refuse.  The parent of [target_dir] lies outside the model and is taken
    to be a directory. *)
Definition mkdir (p : path) : script world unit :=
  w <- get ;;
  match fs w !! p with
  | Some _ => raise FileExistsError
  | None =>
      match match p with
            | [] => Some KDir
            | _ :: head => fs w !! head
            end with
      | Some KDir =>
          match refused E p with
          | Some e => raise (exn_of e)
          | None => modify (λ w, World (<[p := KDir]> (fs w)) (out w))
          end
      | Some KBroken | None => raise FileNotFoundError
      | Some _ => raise NotADirectoryError
      end
  end.

(** [os.makedirs(p, exist_ok=True)]: make the missing ancestors, then the
    directory; an [OSError] of [mkdir] is dropped when [p] is a
    directory. *)
Fixpoint makedirs (p : path) : script world unit :=
  match p with
  | [] => ret tt
  | _ :: head =>
      e <- exists_ head ;;
      when (negb e) (try_except (makedirs head) FileExistsError (ret tt))
  end ;;
  λ w, match mkdir p w with
       | (inl e, w') =>
           if is_OSError e then
             match isdir p w' with
             | (inr true, w'') => (inr tt, w'')
             | _ => (inl e, w')
             end
           else (inl e, w')
       | r => r
       end.

(** What [glob.glob(os.path.join(target_dir, "*"))] leaves for the loop
    on the file system [m]: the entries of the target directory that are
    not hidden, when [target_dir] is taken literally and can be read. *)
Definition listing (m : gmap path kind) : list str :=
  if has_magic (target_dir E) then matched E
  else if listable E then filter (λ n, negb (hidden n)) (listdir m [])
  else [].

Definition glob_star : script world (list str) :=
  w <- get ;; ret (listing (fs w)).

(** [os.path.isfile(filepath)] on a path that [glob] returned: an entry
    of the target directory, or one of [matched]. *)
Definition is_listed_file (m : gmap path kind) (filename : str) : bool :=
  if has_magic (target_dir E) then true
  else bool_decide (m !! [filename] = Some KFile).

Definition isfile_listed (filename : str) : script world bool :=
  w <- get ;; ret (is_listed_file (fs w) filename).

(** The body of the loop over [files]. *)
Definition create_for (filename : str) : script world unit :=
  f <- isfile_listed filename ;;
  when f
    (when (date_search (digits E) filename)
       (let dir_name := splitext_root filename in
        let new_dir := [dir_name; images] in
        makedirs new_dir ;;
        print new_dir)).

Definition create_image_directories : script world unit :=
  d <- isdir [] ;;
  if negb d then raise NotADirectoryError
  else
    let images_dir := [images] in
    makedirs images_dir ;;
    files <- glob_star ;;
    for_each files create_for.
End Run.

(** The ASCII digits, for examples. *)
Definition ascii_digit (c : char) : bool := ((48 <=? c) && (c <=? 57))%N.

(** What a run of part of the script may add to the file system [m]: only
    directories [images/<stem>] of dated files among [files]; it adds all
    of these, each of them could be printed, and it changes nothing that
    is there. *)
Record grows (E : env) (files : list str)
    (m m' : gmap path kind) : Prop := Grows {
  grows_keeps : ∀ p k, m !! p = Some k → m' !! p = Some k;
  grows_new : ∀ p, m !! p = None → is_Some (m' !! p) →
    m' !! p = Some KDir
    ∧ ∃ n, n ∈ files ∧ is_listed_file E m n = true
           ∧ date_search (digits E) n = true
           ∧ p = [splitext_root n; images];
  grows_all : ∀ n, n ∈ files → is_listed_file E m n = true →
    date_search (digits E) n = true →
    m' !! [splitext_root n; images] = Some KDir
    ∧ unprintable E [splitext_root n; images] = None
}.

(** Example surroundings: a target named [photos] that can be read, where
    nothing is refused; and the same for a target named [[d]], which
    [glob] reads as a pattern that matches nothing. *)
Definition plain : env :=
  Env ascii_digit (of_string "photos") true [] (λ _, None) (λ _, None).

Definition bracketed : env :=
  Env ascii_digit (of_string "[d]") true [] (λ _, None) (λ _, None).

(** Example directories: one dated file; one hidden dated file; a regular
    file that is named [images], alone and beside a dated file. *)
Definition dated_file : world :=
  World {[ [] := KDir; [of_string "a2024-01-01.b.txt"] := KFile ]} [].

Definition hidden_dated_file : world :=
  World {[ [] := KDir; [of_string ".2024-01-01.txt"] := KFile ]} [].

Definition images_is_file : world :=
  World {[ [] := KDir; [images] := KFile ]} [].

Definition dated_file_beside_images_file : world :=
  World {[ [] := KDir; [images] := KFile;
           [of_string "2024-01-01.txt"] := KFile ]} [].

End DateFolders.

(** ** [process_heic_images] *)

Module Heic.

(** What an entry of the target directory holds: image or other data, the
    JSON text of a tree, what a write that did not finish left, or it is
    a sub-directory. *)
Inductive fcontent :=
  | Data (bytes : list N)
  | Json (t : tree)
  | Truncated
  | Subdir.

(** The lines the script prints. *)
Inductive message :=
  | MsgNotDirectory
  | MsgNoHeic
  | MsgCollecting (file_path : str)
  | MsgWritten (metadata_file : str)
  | MsgErrCollect (file_path : str)
  | MsgConverting
  | MsgConverted
  | MsgErrConvert (heic_paths : list str)
  | MsgStripping
  | MsgStripped
  | MsgErrStrip (jpg_paths : list str)
  | MsgDeleting
  | MsgDeleted
  | MsgErrDelete (heic_paths : list str).

(** The lines that show a path, a name or the command that failed; the
    other lines are fixed texts. *)
Definition shows_data (m : message) : bool :=
  match m with
  | MsgNotDirectory | MsgCollecting _ | MsgWritten _ | MsgErrCollect _
  | MsgErrConvert _ | MsgErrStrip _ | MsgErrDelete _ => true
  | _ => false
  end.

(** What the script does to the outside: a line on standard output, a
    subprocess started, a file opened for writing and filled. *)
Inductive event :=
  | Print (m : message)
  | Run (argv : list str)
  | Write (name : str) (t : tree).

(** The target directory (its entries, by name) and the trace of effects.
    The paths of its entries are written as names relative to
    [target_path]. *)
Record world := World {
  target_isdir : bool;
  files : gmap (list N) fcontent;
  log : list event
}.

(** What a run meets besides the target directory:
    - [target_path], the argument as it is given: [glob] reads it as part
      of its pattern;
    - [listable]: the entries of the target directory can be read; [glob]
      returns nothing for a directory that cannot;
    - [matched ext], for a [target_path] that [glob] reads as a pattern:
      the paths that [glob] returns for the extension [ext];
    - the external programs.  [identify file] is the standard output of
      the identification run; the other three change the entries of the
      directory.  Each run ends normally, or with [CalledProcessError]
      when the program exits with an error, or with another exception
      (the program cannot be started, its output cannot be decoded);
    - [open_error name]: the error of [open(name, "w")] on a name that is
      not a directory (missing permission);
    - [dump_error t]: the error of [json.dump] on the tree [t] (too deep
      a nesting, a full disk);
    - [unprintable m]: the error of [print] on the line [m] when it
      shows data (a name that standard output cannot encode). *)
Record env := Env {
  target_path : str;
  listable : bool;
  matched : str → list str;
  identify : str → exn + str;
  mogrify_format : list str → gmap (list N) fcontent
                   → (exn + unit) * gmap (list N) fcontent;
  mogrify_strip : list str → gmap (list N) fcontent
                  → (exn + unit) * gmap (list N) fcontent;
  rm_f : list str → gmap (list N) fcontent
         → (exn + unit) * gmap (list N) fcontent;
  open_error : str → option failure;
  dump_error : tree → option failure;
  unprintable : message → option failure
}.

Definition emit (e : event) : script world unit :=
  modify (λ w, World (target_isdir w) (files w) (log w ++ [e])).

(** The names of [m] that the pattern [*ext] matches: those that end with
    [ext] and are not hidden, files and sub-directories alike. *)
Definition glob_names (ext : str) (m : gmap (list N) fcontent) : list str :=
  filter (λ n, negb (hidden n) && ends_with ext n) (map_to_list m).*1.

Definition metadata_file_of (file_path : str) : str :=
  splitext_root (basename file_path) ++ of_string "_metadata.json".

Definition argv (words : list string) (paths : list str) : list str :=
  map of_string words ++ paths.

Definition identify_command (file_path : str) : list str :=
  argv ["magick"; "identify"; "-verbose"]%string [file_path].

Definition convert_command (heic_paths : list str) : list str :=
  argv ["magick"; "mogrify"; "-format"; "jpg"; "-quality"; "80%"]%string heic_paths.

Definition strip_command (jpg_paths : list str) : list str :=
  argv ["magick"; "mogrify"; "-strip"]%string jpg_paths.

Definition delete_command (heic_paths : list str) : list str :=
  argv ["rm"; "-f"]%string heic_paths.

Definition nonempty {A} (l : list A) : bool :=
  match l with [] => false | _ => true end.

Section Run.
Variable E : env.

(** The error of [print] on a line, if any. *)
Definition print_error (m : message) : option failure :=
  if shows_data m then unprintable E m else None.

Definition print (m : message) : script world unit :=
  match print_error m with
  | Some e => raise (exn_of e)
  | None => emit (Print m)
  end.

(** [with open(name, "w") as mf: json.dump(t, mf, indent=2)] *)
Definition write_json (name : str) (t : tree) : script world unit :=
  w <- get ;;
  match files w !! name with
  | Some Subdir => raise IsADirectoryError
  | _ =>
      match open_error E name with
      | Some e => raise (exn_of e)
      | None =>
          match dump_error E t with
          | Some e =>
              modify (λ w, World (target_isdir w)
                             (<[name := Truncated]> (files w)) (log w)) ;;
              raise (exn_of e)
          | None =>
              emit (Write name t) ;;
              modify (λ w, World (target_isdir w)
                             (<[name := Json t]> (files w)) (log w))
          end
      end
  end.

(** What [glob.glob(os.path.join(target_path, "*" + ext))] returns on the
    entries [m]. *)
Definition glob_result (ext : str) (m : gmap (list N) fcontent) : list str :=
  if has_magic (target_path E) then matched E ext
  else if listable E then glob_names ext m
  else [].

Definition glob_ext (ext : str) : script world (list str) :=
  w <- get ;; ret (glob_result ext (files w)).

(** The list [heic_paths] that the script builds. *)
Definition heic_paths_of (m : gmap (list N) fcontent) : list str :=
  glob_result (of_string ".HEIC") m ++ glob_result (of_string ".heic") m.

(** [subprocess.run(argv, capture_output=True, text=True, check=True)] *)
Definition run_identify (file_path : str) : script world str :=
  emit (Run (identify_command file_path)) ;;
  match identify E file_path with
  | inr stdout => ret stdout
  | inl e => raise e
  end.

(** [subprocess.run(argv, check=True)] *)
Definition run_tool (command : list str)
    (tool : gmap (list N) fcontent → (exn + unit) * gmap (list N) fcontent)
    : script world unit :=
  emit (Run command) ;;
  w <- get ;;
  modify (λ w, World (target_isdir w) ((tool (files w)).2) (log w)) ;;
  match (tool (files w)).1 with
  | inr _ => ret tt
  | inl e => raise e
  end.

(** The call of [parse_identify_output]; an exception of the parser is
    not a [CalledProcessError]. *)
Definition parse (stdout : str) : script world tree :=
  match parse_identify_output stdout with
  | Some t => ret t
  | None => raise KeyOrAttributeError
  end.

(** The body of the loop of stage 1. *)
Definition extract_metadata (file_path : str) : script world unit :=
  let base_name := splitext_root (basename file_path) in
  let metadata_file := base_name ++ of_string "_metadata.json" in
  print (MsgCollecting file_path) ;;
  try_except
    (stdout <- run_identify file_path ;;
     metadata_dict <- parse stdout ;;
     write_json metadata_file metadata_dict ;;
     print (MsgWritten metadata_file))
    CalledProcessError
    (print (MsgErrCollect file_path)).

Definition convert (heic_paths : list str) : script world unit :=
  print MsgConverting ;;
  try_except
    (run_tool (convert_command heic_paths) (mogrify_format E heic_paths) ;;
     print MsgConverted)
    CalledProcessError
    (print (MsgErrConvert heic_paths)).

Definition strip_metadata (jpg_paths : list str) : script world unit :=
  print MsgStripping ;;
  try_except
    (run_tool (strip_command jpg_paths) (mogrify_strip E jpg_paths) ;;
     print MsgStripped)
    CalledProcessError
    (print (MsgErrStrip jpg_paths)).

Definition delete_originals (heic_paths : list str) : script world unit :=
  print MsgDeleting ;;
  try_except
    (run_tool (delete_command heic_paths) (rm_f E heic_paths) ;;
     print MsgDeleted)
    CalledProcessError
    (print (MsgErrDelete heic_paths)).

Definition process_heic_images : script world unit :=
  w <- get ;;
  if negb (target_isdir w) then print MsgNotDirectory
  else
    upper <- glob_ext (of_string ".HEIC") ;;
    lower <- glob_ext (of_string ".heic") ;;
    let heic_paths := upper ++ lower in
    (if negb (nonempty heic_paths) then print MsgNoHeic
     else for_each heic_paths extract_metadata) ;;
    when (nonempty heic_paths) (convert heic_paths) ;;
    jpg_paths <- glob_ext (of_string ".jpg") ;;
    when (nonempty jpg_paths) (strip_metadata jpg_paths) ;;
    when (nonempty heic_paths) (delete_originals heic_paths).
End Run.

(** Example directories: one without HEIC files that holds a JPG file; one
    with two HEIC files. *)
Definition jpg_only : world :=
  World true {[ of_string "a.jpg" := Data []; of_string "b.txt" := Data [] ]} [].

Definition two_heic : world :=
  World true {[ of_string "a.HEIC" := Data []; of_string "b.heic" := Data [] ]} [].

(** Example programs: an identification that exits with an error on the
    first of the two files; one that cannot be started; tools that succeed
    and change nothing. *)
Definition identify_fails_on_a (file_path : str) : exn + str :=
  if decide (file_path = of_string "a.HEIC") then inl CalledProcessError
  else inr (txt ["Format: HEIC"]%string).


Definition tool_ok (paths : list str) (m : gmap (list N) fcontent)
    : (exn + unit) * gmap (list N) fcontent := (inr tt, m).

(** Example surroundings: a target named [photos] that can be read, with
    these tools, where every file can be written and every line printed. *)
Definition calm (identify : str → exn + str) : env :=
  Env (of_string "photos") true (λ _, []) identify tool_ok tool_ok tool_ok
      (λ _, None) (λ _, None) (λ _, None).

End Heic.

(** ** The world a stage of [process_heic_images] leaves *)

Module HeicStages.
Import Heic.

(** What [print] does on the line [m]: how it ends and what it logs. *)
Definition printed (E : env) (m : message) : (exn + unit) * list event :=
  match print_error E m with
  | Some e => (inl (exn_of e), [])
  | None => (inr tt, [Print m])
  end.

(** How a stage ends after its command, and what it logs then: it reports
    success with the fixed text [m2], or it reports the error with [m3]
    when the command exits with one; any other exception goes through. *)
Definition stage_end (E : env) (m2 m3 : message) (r : exn + unit)
    : (exn + unit) * list event :=
  match r with
  | inr _ => (inr tt, [Print m2])
  | inl e => if decide (e = CalledProcessError) then printed E m3
             else (inl e, [])
  end.

(** A stage prints the fixed text [m1], runs [command], and prints [m2]
    when the command succeeded and [m3] when it exited with an error; the
    entries are what the tool leaves. *)
Definition after_stage (E : env) (m1 m2 m3 : message) (command : list str)
    (tool : gmap (list N) fcontent → (exn + unit) * gmap (list N) fcontent)
    (w : world) : world :=
  World (target_isdir w) (tool (files w)).2
    (log w ++ [Print m1; Run command]
     ++ (stage_end E m2 m3 (tool (files w)).1).2).

(** Nothing but [CalledProcessError] comes out of a run. *)
Definition only_exit_errors {A} (r : exn + A) : Prop :=
  ∀ e, r = inl e → e = CalledProcessError.

(** Stage 1 meets nothing that it does not catch: the identification ends
    normally or exits with an error, every sidecar file can be written and
    every line printed. *)
Definition stage1_undisturbed (E : env) : Prop :=
  (∀ f, only_exit_errors (identify E f))
  ∧ (∀ n, open_error E n = None)
  ∧ (∀ t, dump_error E t = None)
  ∧ (∀ m, unprintable E m = None).

(** The script [m] leaves the target what it is and only adds to the
    log. *)
Definition appends {A} (m : script world A) : Prop :=
  ∀ w, target_isdir (m w).2 = target_isdir w
       ∧ ∃ evs, log (m w).2 = log w ++ evs.

(** The three tools end normally or exit with an error. *)
Definition tools_undisturbed (E : env) : Prop :=
  (∀ l m, only_exit_errors (mogrify_format E l m).1)
  ∧ (∀ l m, only_exit_errors (mogrify_strip E l m).1)
  ∧ (∀ l m, only_exit_errors (rm_f E l m).1).

(** The stage as a whole: how it ends and the world it leaves. *)
Definition stage (E : env) (m1 m2 m3 : message) (command : list str)
    (tool : gmap (list N) fcontent → (exn + unit) * gmap (list N) fcontent)
    (w : world) : (exn + unit) * world :=
  ((stage_end E m2 m3 (tool (files w)).1).1,
   after_stage E m1 m2 m3 command tool w).

(** What the body of the [try] does: how it ends, the entries and the
    events it adds. *)
Definition attempt (E : env) (f : str) (m : gmap (list N) fcontent)
    : (exn + unit) * gmap (list N) fcontent * list event :=
  match identify E f with
  | inl e => (inl e, m, [Run (identify_command f)])
  | inr stdout =>
      match parse_identify_output stdout with
      | None => (inl KeyOrAttributeError, m, [Run (identify_command f)])
      | Some t =>
          match m !! metadata_file_of f with
          | Some Subdir =>
              (inl IsADirectoryError, m, [Run (identify_command f)])
          | _ =>
              match open_error E (metadata_file_of f) with
              | Some e => (inl (exn_of e), m, [Run (identify_command f)])
              | None =>
                  match dump_error E t with
                  | Some e =>
                      (inl (exn_of e), <[metadata_file_of f := Truncated]> m,
                       [Run (identify_command f)])
                  | None =>
                      match print_error E (MsgWritten (metadata_file_of f)) with
                      | Some e =>
                          (inl (exn_of e),
                           <[metadata_file_of f := Json t]> m,
                           [Run (identify_command f);
                            Write (metadata_file_of f) t])
                      | None =>
                          (inr tt, <[metadata_file_of f := Json t]> m,
                           [Run (identify_command f);
                            Write (metadata_file_of f) t;
                            Print (MsgWritten (metadata_file_of f))])
                      end
                  end
              end
          end
      end
  end.

(** What an iteration of stage 1 does on the file [f]: how it ends and the
    world it leaves.  Of what the body of the [try] raises, only
    [CalledProcessError] is caught and reported. *)
Definition after_file (E : env) (f : str) (w : world) : (exn + unit) * world :=
  match print_error E (MsgCollecting f) with
  | Some e => (inl (exn_of e), w)
  | None =>
      let r := attempt E f (files w) in
      let ended :=
        match r.1.1 with
        | inl e => if decide (e = CalledProcessError)
                   then printed E (MsgErrCollect f)
                   else (inl e, [])
        | inr _ => (inr tt, [])
        end in
      (ended.1,
       World (target_isdir w) r.1.2
         (log w ++ [Print (MsgCollecting f)] ++ r.2 ++ ended.2))
  end.


(** A conversion that exits with an error and changes nothing. *)
Definition tool_fails (paths : list str) (m : gmap (list N) fcontent)
    : (exn + unit) * gmap (list N) fcontent := (inl CalledProcessError, m).

(** Surroundings like [calm identify_fails_on_a] in which the conversion
    exits with an error. *)
Definition conversion_fails : env :=
  Env (of_string "photos") true (λ _, []) identify_fails_on_a
      tool_fails tool_ok tool_ok (λ _, None) (λ _, None) (λ _, None).

(** A directory whose HEIC file has a sub-directory where its sidecar file
    would be, and an identification that succeeds. *)
Definition sidecar_is_directory : world :=
  World true {[ of_string "a.HEIC" := Data [];
                of_string "a_metadata.json" := Subdir ]} [].

Definition identify_ok (file_path : str) : exn + str :=
  inr (txt ["Format: HEIC"]%string).

End HeicStages.

(** ** What [create_image_directories] may do to the file system *)

Module DateFoldersShape.
Import DateFolders.

(** Everything of [m] is in [m'] as it was, and what [m'] has besides is a
    directory: [images] or a child of [images]. *)
Definition only_adds_directories (m m' : gmap (list (list N)) kind) : Prop :=
  (∀ p k, m !! p = Some k → m' !! p = Some k)
  ∧ (∀ p, m !! p = None → is_Some (m' !! p) →
          m' !! p = Some KDir ∧ (p = [images] ∨ ∃ d, p = [d; images])).

(** The name [n] is a file of the target directory that [glob] lists and
    that holds a date token. *)
Definition dated (isdecimal : N → bool) (m : gmap (list (list N)) kind)
    (n : list N) : Prop :=
  m !! [n] = Some KFile ∧ hidden n = false ∧ date_search isdecimal n = true.

(** The name [n] is one that the loop takes for a file: a regular file of
    the target directory that [glob] lists, when [target_dir] is taken
    literally; one of [matched] otherwise. *)
Definition taken (E : env) (m : gmap (list (list N)) kind) (n : list N)
    : Prop :=
  if has_magic (target_dir E) then n ∈ matched E
  else listable E = true ∧ hidden n = false ∧ m !! [n] = Some KFile.

(** Nothing is in the way of a directory: the name is free, or it is a
    directory already. *)
Definition free_or_dir (o : option kind) : Prop :=
  o = None ∨ o = Some KDir.

(** The target is taken literally and can be read, nothing is refused and
    every line can be printed. *)
Definition undisturbed (E : env) : Prop :=
  has_magic (target_dir E) = false
  ∧ listable E = true
  ∧ (∀ p, refused E p = None)
  ∧ (∀ p, unprintable E p = None).

(** A target that is a regular file. *)
Definition target_is_file : world := World {[ [] := KFile ]} [].

(** A FIFO named [images] in the target directory. *)
Definition images_is_fifo : world :=
  World {[ [] := KDir; [images] := KSpecial ]} [].

End DateFoldersShape.

(** ** Trees written as indented text *)

Module Document.

(** [n] spaces. *)
Definition spaces (n : nat) : list N := replicate n SP.

(** The lines of the entry [key] of a mapping, at indentation [ind]: one
    line [key: v] for a string, one such line for every string of a list,
    and for a nested mapping the line [key:] followed by the lines of its
    entries, two columns further in. *)
Fixpoint render (ind : nat) (key : list N) (t : tree) : list (list N) :=
  match t with
  | TStr v => [spaces ind ++ key_value_line key v]
  | TList l =>
      flat_map (λ x, match x with
                     | TStr v => [spaces ind ++ key_value_line key v]
                     | _ => []
                     end) l
  | TDict d =>
      (spaces ind ++ key ++ [COLON])
      :: flat_map (λ kv, render (ind + 2) kv.1 kv.2) d
  end.

Definition render_entries (ind : nat) (d : list (list N * tree))
    : list (list N) :=
  flat_map (λ kv, render ind kv.1 kv.2) d.

(** The text of a list of lines, each ended by a line feed. *)
Definition unlines (ls : list (list N)) : list N :=
  concat (map (λ l, l ++ [LF]) ls).

(** The trees that can be written so: the strings are clean, a list holds
    two strings or more, the keys of a mapping are clean, hold no colon
    and differ from each other. *)
Inductive printable : tree → Prop :=
  | printable_str (v : list N) :
      clean v → printable (TStr v)
  | printable_list (vs : list (list N)) :
      2 ≤ length vs → Forall clean vs → printable (TList (TStr <$> vs))
  | printable_dict (d : list (list N * tree)) :
      NoDup d.*1 →
      Forall (λ kv, clean kv.1 ∧ (COLON ∉ kv.1) ∧ printable kv.2) d →
      printable (TDict d).

(** The value [v] of the store [h] stands for the tree [t]; the
    dictionaries it reaches have addresses from [lo] on. *)
Inductive rep (lo : nat) (h : list (list (list N * pyval)))
    : tree → pyval → Prop :=
  | rep_str (s : list N) :
      rep lo h (TStr s) (PStr s)
  | rep_list (vs : list (list N)) :
      rep lo h (TList (TStr <$> vs)) (PList (PStr <$> vs))
  | rep_dict (d : list (list N * tree)) (a : nat)
        (pd : list (list N * pyval)) :
      lo ≤ a → h !! a = Some pd →
      Forall2 (λ kt kv, kv.1 = kt.1 ∧ rep lo h kt.2 kv.2) d pd →
      rep lo h (TDict d) (PRef a).

(** What the lines of the entry [key] do to a state: the dictionary [p]
    that the stack names at indentation [ind] gets the entry as its last
    one, with a value that stands for [t] in dictionaries allocated since;
    the others that existed are unchanged, and the stack names [p] again at
    this indentation. *)
Definition entry_added (ind : nat) (key : list N) (t : tree)
    (st st' : pstate) : Prop :=
  let stk := pop_while ind (stack st) in
  let p := parent_of stk in
  pop_while ind (stack st') = stk
  ∧ length (heap st) ≤ length (heap st')
  ∧ (∀ a, a < length (heap st) → a ≠ p → heap st' !! a = heap st !! a)
  ∧ ∃ dp v, heap st !! p = Some dp
      ∧ heap st' !! p = Some (dp ++ [(key, v)])
      ∧ rep (length (heap st)) (heap st') t v.

(** An example: a nested mapping, a list, and a value that holds colons. *)
Definition example_document : list (list N * tree) :=
  [(of_string "Image",
    TDict [(of_string "Format", TStr (of_string "HEIC"));
           (of_string "Channel",
            TDict [(of_string "Red", TStr (of_string "8-bit"))]);
           (of_string "Profile",
            TList [TStr (of_string "icc"); TStr (of_string "exif")])]);
   (of_string "Date", TStr (of_string "2024-01-01 12:30:45"))].

End Document.

(** ** Texts given by their structure *)

Module Outline.
Import Document.

(** A line [key: value], or a line [key:] with the lines below it. *)
Inductive item :=
  | Line (key value : list N)
  | Block (key : list N) (body : list item).

Definition item_key (it : item) : list N :=
  match it with Line k _ | Block k _ => k end.

(** The lines of an item at indentation [ind]; the body of a block is two
    columns further in. *)
Fixpoint render_item (ind : nat) (it : item) : list (list N) :=
  match it with
  | Line k v => [spaces ind ++ key_value_line k v]
  | Block k body =>
      (spaces ind ++ k ++ [COLON]) :: flat_map (render_item (ind + 2)) body
  end.

Definition render_items (ind : nat) (items : list item) : list (list N) :=
  flat_map (render_item ind) items.

(** Keys and values are non-empty, stripped and free of line breaks, and
    keys hold no colon. *)
Inductive well_formed : item → Prop :=
  | well_formed_line (k v : list N) :
      clean k → (COLON ∉ k) → clean v → well_formed (Line k v)
  | well_formed_block (k : list N) (body : list item) :
      clean k → (COLON ∉ k) → Forall well_formed body →
      well_formed (Block k body).

(** Lookup and update in a mapping of trees, as [dict_get] and [dict_set]
    on stored values. *)
Fixpoint tree_get (key : list N) (d : list (list N * tree)) : option tree :=
  match d with
  | [] => None
  | (k, t) :: d' => if decide (k = key) then Some t else tree_get key d'
  end.

Fixpoint tree_set (key : list N) (t : tree) (d : list (list N * tree))
    : list (list N * tree) :=
  match d with
  | [] => [(key, t)]
  | (k, t') :: d' =>
      if decide (k = key) then (key, t) :: d' else (k, t') :: tree_set key t d'
  end.

(** [appended] on trees. *)
Definition tree_appended (old : tree) (value : list N) : tree :=
  match old with
  | TList l => TList (l ++ [TStr value])
  | _ => TList [old; TStr value]
  end.

(** The mapping [d] after an item: a line appends to what its key holds,
    or sets the key; a block sets its key to the mapping of its body. *)
Fixpoint put_item (it : item) (d : list (list N * tree))
    : list (list N * tree) :=
  match it with
  | Line k v =>
      match tree_get k d with
      | Some old => tree_set k (tree_appended old v) d
      | None => tree_set k (TStr v) d
      end
  | Block k body =>
      tree_set k (TDict (fold_left (λ d' it', put_item it' d') body [])) d
  end.

Definition put_items (items : list item) (d : list (list N * tree))
    : list (list N * tree) :=
  fold_left (λ d' it', put_item it' d') items d.

(** The items [body] below a path of blocks: each step of the path gives
    the items before the block, its key, and the items after it. *)
Fixpoint nest (path : list (list item * list N * list item))
    (body : list item) : list item :=
  match path with
  | [] => body
  | (before, k, after) :: path' =>
      before ++ Block k (nest path' body) :: after
  end.

Definition path_keys (path : list (list item * list N * list item))
    : list (list N) :=
  (λ step, step.1.2) <$> path.

(** The value that a tree holds at a path of keys. *)
Fixpoint tree_at (keys : list (list N)) (t : tree) : option tree :=
  match keys with
  | [] => Some t
  | k :: keys' =>
      match t with
      | TDict d => t' ← tree_get k d; tree_at keys' t'
      | _ => None
      end
  end.

(** The value [v] of the store [h] stands for the tree [t]; the
    dictionaries it reaches have addresses from [lo] on. *)
Inductive stands_for (lo : nat) (h : list (list (list N * pyval)))
    : tree → pyval → Prop :=
  | stands_for_str (s : list N) :
      stands_for lo h (TStr s) (PStr s)
  | stands_for_list (ts : list tree) (vs : list pyval) :
      Forall2 (stands_for lo h) ts vs →
      stands_for lo h (TList ts) (PList vs)
  | stands_for_dict (d : list (list N * tree)) (a : nat)
        (pd : list (list N * pyval)) :
      lo ≤ a → h !! a = Some pd →
      Forall2 (λ kt kv, kv.1 = kt.1 ∧ stands_for lo h kt.2 kv.2) d pd →
      stands_for lo h (TDict d) (PRef a).

(** The dictionary at address [p] of the state holds the mapping [d]. *)
Definition holds (st : pstate) (p : nat) (d : list (list N * tree)) : Prop :=
  ∃ dp, heap st !! p = Some dp
        ∧ Forall2 (λ kt kv, kv.1 = kt.1
                            ∧ stands_for (S p) (heap st) kt.2 kv.2) d dp.

(** From [st] to [st'] the stack names the same dictionary at indentation
    [ind], and of the dictionaries that were there only that one may have
    changed. *)
Definition extends (ind : nat) (st st' : pstate) : Prop :=
  pop_while ind (stack st') = pop_while ind (stack st)
  ∧ length (heap st) ≤ length (heap st')
  ∧ (∀ a, a < length (heap st) →
          a ≠ parent_of (pop_while ind (stack st)) →
          heap st' !! a = heap st !! a).

(** Example: the key [X] twice inside the block [A], with a block of its
    own in between. *)
Definition example_path : list (list item * list N * list item) :=
  [([], of_string "A", [])].

Definition example_between : list item :=
  [Block (of_string "B") [Line (of_string "Y") (of_string "1")]].

End Outline.

(** ** Well-formed stores of the parser *)

Definition is_PStr (v : pyval) : bool :=
  match v with PStr _ => true | _ => false end.

(** An element of a list, or a scalar: a string, or a dictionary allocated
    after the one that holds it. *)
Definition elem_ok (lo hi : nat) (x : pyval) : Prop :=
  match x with
  | PStr _ => True
  | PRef a => lo < a < hi
  | PList _ => False
  end.

(** A list starts with the value it was promoted from; strings follow. *)
Definition val_ok (lo hi : nat) (v : pyval) : Prop :=
  match v with
  | PList (x :: l) => elem_ok lo hi x ∧ Forall (λ y, is_PStr y = true) l
  | PList [] => False
  | _ => elem_ok lo hi v
  end.

Definition dict_ok (a hi : nat) (d : dict) : Prop :=
  NoDup d.*1 ∧ Forall (λ kv, val_ok a hi kv.2) d.

Definition heap_ok (h : list dict) : Prop :=
  ∀ a d, h !! a = Some d → dict_ok a (length h) d.

Definition state_ok (st : pstate) : Prop :=
  heap_ok (heap st) ∧ 0 < length (heap st)
  ∧ Forall (λ ia, ia.2 < length (heap st)) (stack st).

(** * Properties *)

(** A decidable statement about closed terms, settled by evaluation. *)
Ltac decide_by_compute :=
  apply (bool_decide_unpack _); vm_compute; exact I.

(** ** The regular expression *)

Section ReFacts.
Context {A : Type}.
Implicit Types (k : str → str → option A) (p : char → bool).

Lemma star_greedy_cons p k c s acc :
  Re.star_greedy p acc (c :: s) k
  = if p c then
      match Re.star_greedy p (acc ++ [c]) s k with
      | Some r => Some r
      | None => k acc (c :: s)
      end
    else k acc (c :: s).
Proof. done. Qed.

(** A greedy star in front of a character it rejects (or of the end)
    hands its continuation the longest repetition first. *)
Lemma star_greedy_longest p k ws rest acc r :
  Forall (λ c, p c = true) ws →
  match rest with c :: _ => p c = false | [] => True end →
  k (acc ++ ws) rest = Some r →
  Re.star_greedy p acc (ws ++ rest) k = Some r.
Proof.
  intros Hws Hrest. revert acc.
  induction Hws as [|c ws Hc _ IH]; intros acc Hk; simpl in *.
  - rewrite app_nil_r in Hk. destruct rest as [|c rest]; [done|].
    simpl. by rewrite Hrest.
  - rewrite Hc. rewrite (IH (acc ++ [c])); [done|].
    by rewrite <- app_assoc.
Qed.

(** A continuation that fails on every string of a class closed under
    tails makes the star fail. *)
Lemma star_greedy_fails p k (Q : str → Prop) s acc :
  (∀ c s', Q (c :: s') → Q s') →
  (∀ acc' s', Q s' → k acc' s' = None) →
  Q s → Re.star_greedy p acc s k = None.
Proof.
  intros Htl Hk. revert acc.
  induction s as [|c s IH]; intros acc HQ; simpl.
  - by apply Hk.
  - destruct (p c); [|by apply Hk].
    rewrite IH; [by apply Hk|]. by eapply Htl.
Qed.

(** A lazy star stops at the first place where its continuation
    succeeds. *)
Lemma star_lazy_first p k pre rest acc r :
  Forall (λ c, p c = true) pre →
  (∀ i, i < length pre → k (acc ++ take i pre) (drop i pre ++ rest) = None) →
  k (acc ++ pre) rest = Some r →
  Re.star_lazy p acc (pre ++ rest) k = Some r.
Proof.
  intros Hp. revert acc.
  induction Hp as [|c pre Hc _ IH]; intros acc Hnone Hk.
  - rewrite app_nil_r in Hk. simpl. destruct rest; simpl; by rewrite Hk.
  - simpl. specialize (Hnone 0) as H0. simpl in H0.
    rewrite app_nil_r in H0. rewrite H0 by lia. rewrite Hc.
    apply IH.
    + intros i Hi. specialize (Hnone (S i)). simpl in Hnone.
      rewrite <- app_assoc. simpl. apply Hnone. lia.
    + by rewrite <- app_assoc.
Qed.

Lemma star_lazy_fails p k (Q : str → Prop) s acc :
  (∀ c s', Q (c :: s') → Q s') →
  (∀ acc' s', Q s' → k acc' s' = None) →
  Q s → Re.star_lazy p acc s k = None.
Proof.
  intros Htl Hk. revert acc.
  induction s as [|c s IH]; intros acc HQ; simpl.
  - by rewrite Hk.
  - rewrite Hk by done. destruct (p c); [|done].
    apply IH. by eapply Htl.
Qed.
End ReFacts.

Lemma not_elem_of_tail {A} (x c : A) (s : list A) : x ∉ c :: s → x ∉ s.
Proof. rewrite not_elem_of_cons. tauto. Qed.

(** After the colon: the rest of a line without line feed always matches,
    and group 2 is that rest without its leading white space. *)
Lemma re_rest_of_line (g1 acc s : str) :
  LF ∉ s →
  Re.star_greedy Re.dot acc s
    (λ g2 r5, if Re.at_end r5 then Some (g1, g2) else None)
  = Some (g1, acc ++ s).
Proof.
  revert acc. induction s as [|c s IH]; intros acc HLF; simpl.
  - by rewrite app_nil_r.
  - apply not_elem_of_cons in HLF as [Hc HLF].
    unfold Re.dot at 1. destruct (N.eqb_spec c LF) as [->|_]; [done|]. simpl.
    rewrite IH by done. by rewrite <- app_assoc.
Qed.

Lemma re_value_of_line (g1 acc s : str) :
  LF ∉ s →
  Re.star_greedy isspace acc s
    (λ _ r4, Re.star_greedy Re.dot [] r4
       (λ g2 r5, if Re.at_end r5 then Some (g1, g2) else None))
  = Some (g1, lstrip s).
Proof.
  revert acc. induction s as [|c s IH]; intros acc HLF; [done|].
  rewrite (star_greedy_cons isspace). cbn [lstrip].
  destruct (isspace c) eqn:Hc.
  - rewrite IH; [done|]. by eapply not_elem_of_tail.
  - by rewrite re_rest_of_line.
Qed.

(** The match on a line whose first character that is not white space is
    [c] and whose first colon after [c] ends [pre]. *)
Lemma key_value_split (ws : str) (c : char) (pre post : str) :
  Forall (λ x, isspace x = true) ws →
  isspace c = false →
  COLON ∉ pre →
  LF ∉ ws ++ c :: pre ++ COLON :: post →
  Re.key_value (ws ++ c :: pre ++ COLON :: post)
  = Some (c :: pre, lstrip post).
Proof.
  intros Hws Hc Hpre HLF. unfold Re.key_value.
  apply star_greedy_longest; [done|done|].
  rewrite not_elem_of_app, not_elem_of_cons, not_elem_of_app, not_elem_of_cons
    in HLF.
  destruct HLF as (_ & HcLF & HpreLF & _ & HpostLF).
  simpl. unfold Re.dot at 1.
  destruct (N.eqb_spec c LF) as [->|_]; [done|]. simpl.
  apply (star_lazy_first _ _ pre (COLON :: post) [c]).
  - apply Forall_forall. intros x Hx. unfold Re.dot.
    destruct (N.eqb_spec x LF) as [->|_]; [done|done].
  - intros i Hi.
    destruct (lookup_lt_is_Some_2 pre i Hi) as [x Hx].
    rewrite (drop_S _ _ _ Hx). simpl.
    destruct (N.eqb_spec x COLON) as [->|_]; [|done].
    destruct Hpre. by eapply list_elem_of_lookup_2.
  - simpl. by rewrite re_value_of_line.
Qed.

(** A line without a colon does not match. *)
Lemma key_value_no_colon (line : str) :
  COLON ∉ line → Re.key_value line = None.
Proof.
  intros Hline. unfold Re.key_value.
  apply (star_greedy_fails _ _ (λ s, COLON ∉ s)); [|clear line Hline|done].
  { intros c s'. apply not_elem_of_tail. }
  intros _ s Hs. destruct s as [|c s]; [done|]. simpl.
  destruct (Re.dot c); [|done].
  apply (star_lazy_fails _ _ (λ s, COLON ∉ s)).
  - intros c' s'. apply not_elem_of_tail.
  - intros acc [|c' s'] Hs'; [done|]. simpl.
    destruct (N.eqb_spec c' COLON) as [->|_]; [|done].
    destruct Hs'. apply list_elem_of_here.
  - by eapply not_elem_of_tail.
Qed.

(** A greedy star whose longest repetition makes the continuation fail
    gives back its last character. *)
Lemma star_greedy_backtrack {A} (p : char → bool) (k : str → str → option A)
    (ws : str) (x : char) (rest acc : str) (r : A) :
  Forall (λ c, p c = true) ws →
  p x = true →
  match rest with c :: _ => p c = false | [] => True end →
  k (acc ++ ws ++ [x]) rest = None →
  k (acc ++ ws) (x :: rest) = Some r →
  Re.star_greedy p acc (ws ++ x :: rest) k = Some r.
Proof.
  intros Hws Hx Hrest. revert acc.
  induction Hws as [|c ws Hc _ IH]; intros acc Hnone Hsome.
  - cbn [app] in *. rewrite app_nil_r in Hsome.
    rewrite star_greedy_cons, Hx.
    assert (Re.star_greedy p (acc ++ [x]) rest k = None) as ->; [|done].
    destruct rest as [|c rest]; [done|]. by rewrite star_greedy_cons, Hrest.
  - cbn [app]. rewrite star_greedy_cons, Hc.
    rewrite (IH (acc ++ [c])); [done| |]; by rewrite <- app_assoc.
Qed.

(** Group 1 cannot start at a colon that no other colon follows. *)
Lemma re_key_from_colon {A} (k : str → str → option A) (rest : str) :
  COLON ∉ rest →
  Re.plus_lazy Re.dot (COLON :: rest)
    (λ g1 r2, Re.lit COLON r2 (λ r3, k g1 r3)) = None.
Proof.
  intros Hrest. cbn [Re.plus_lazy]. replace (Re.dot COLON) with true by done.
  apply (star_lazy_fails _ _ (λ s, COLON ∉ s)); [| |done].
  - intros c s'. apply not_elem_of_tail.
  - intros acc [|c' s'] Hs'; [done|]. simpl.
    destruct (N.eqb_spec c' COLON) as [->|_]; [|done].
    destruct Hs'. apply list_elem_of_here.
Qed.

(** The match on a line whose only colon is its first character that is
    not white space, after white space: the last white space character is
    group 1. *)
Lemma key_value_after_space (ws : str) (x : char) (rest : str) :
  Forall (λ c, isspace c = true) ws →
  isspace x = true →
  COLON ∉ rest →
  LF ∉ ws ++ x :: COLON :: rest →
  Re.key_value (ws ++ x :: COLON :: rest) = Some ([x], lstrip rest).
Proof.
  intros Hws Hx Hrest HLF. unfold Re.key_value.
  rewrite not_elem_of_app, !not_elem_of_cons in HLF.
  destruct HLF as (_ & HxLF & _ & HrestLF).
  apply star_greedy_backtrack; [done|done|done| |].
  - by apply re_key_from_colon.
  - cbn [app Re.plus_lazy]. unfold Re.dot at 1.
    destruct (N.eqb_spec x LF) as [->|_]; [done|]. cbn [negb].
    destruct rest as [|c rest]; cbn [Re.star_lazy Re.lit];
      replace (COLON =? COLON)%N with true by done;
      by rewrite re_value_of_line.
Qed.

(** A line that starts with its only colon does not match. *)
Lemma key_value_only_colon_first (rest : str) :
  COLON ∉ rest → Re.key_value (COLON :: rest) = None.
Proof.
  intros Hrest. unfold Re.key_value. rewrite star_greedy_cons.
  replace (isspace COLON) with false by done. by apply re_key_from_colon.
Qed.

(** The leading white space of a string. *)
Lemma lstrip_split (s : str) :
  ∃ ws, s = ws ++ lstrip s ∧ Forall (λ c, isspace c = true) ws
        ∧ match lstrip s with c :: _ => isspace c = false | [] => True end.
Proof.
  induction s as [|c s (ws & Hs & Hws & Hhead)]; [by exists []|].
  cbn [lstrip]. destruct (isspace c) eqn:Hc.
  - exists (c :: ws). split_and!; [by rewrite Hs at 1|by constructor|done].
  - by exists [].
Qed.

Lemma first_occurrence (x : char) (l : str) :
  x ∈ l → ∃ l1 l2, l = l1 ++ x :: l2 ∧ x ∉ l1.
Proof.
  induction l as [|c l IH]; [by intros ?%elem_of_nil|].
  destruct (decide (c = x)) as [->|Hne].
  - intros _. exists [], l. split; [done|apply not_elem_of_nil].
  - intros [?|Hin]%elem_of_cons; [done|].
    destruct (IH Hin) as (l1 & l2 & -> & Hl1).
    exists (c :: l1), l2. split; [done|].
    rewrite not_elem_of_cons. by split; [congruence|].
Qed.

(** The four shapes of a line that is not blank: a colon comes after its
    first character [c] that is not white space; or [c] is its only colon
    and white space precedes it; or [c] is its only colon and starts the
    line; or it holds no colon. *)
Lemma line_shapes (line : str) :
  strip line ≠ [] →
  (∃ ws c pre post,
     line = ws ++ c :: pre ++ COLON :: post
     ∧ Forall (λ x, isspace x = true) ws ∧ isspace c = false ∧ COLON ∉ pre)
  ∨ (∃ ws x rest,
       line = ws ++ x :: COLON :: rest
       ∧ Forall (λ c, isspace c = true) ws ∧ isspace x = true ∧ COLON ∉ rest)
  ∨ (∃ rest, line = COLON :: rest ∧ COLON ∉ rest)
  ∨ COLON ∉ line.
Proof.
  intros Hline. destruct (lstrip_split line) as (ws & Hs & Hws & Hhead).
  destruct (lstrip line) as [|c tl] eqn:Htl.
  { destruct Hline. unfold strip. by rewrite Htl. }
  destruct (decide (COLON ∈ tl)) as [Hin|Hout].
  { left. destruct (first_occurrence _ _ Hin) as (pre & post & -> & Hpre).
    by exists ws, c, pre, post. }
  right. destruct (decide (c = COLON)) as [->|Hc].
  - destruct ws as [|w ws _] using rev_ind.
    + right. left. by exists tl.
    + left. apply Forall_app in Hws as [Hws [Hw _]%Forall_cons].
      exists ws, w, tl. by rewrite <- app_assoc in Hs.
  - do 2 right. rewrite Hs, not_elem_of_app, not_elem_of_cons.
    split_and!; [|congruence|done].
    intros Hin. rewrite Forall_forall in Hws. by specialize (Hws _ Hin).
Qed.

(** ** Dictionaries *)

Lemma dict_get_elem_of (key : str) (d : dict) v :
  dict_get key d = Some v → (key, v) ∈ d.
Proof.
  induction d as [|[k w] d IH]; simpl; [done|].
  case_decide as Hk; [intros [= ->]; subst; left|right; auto].
Qed.

Lemma dict_get_None (key : str) (d : dict) :
  dict_get key d = None ↔ key ∉ d.*1.
Proof.
  induction d as [|[k w] d IH]; simpl.
  - split; [intros _; apply not_elem_of_nil|done].
  - rewrite not_elem_of_cons. case_decide as Hk; [|rewrite IH]; intuition congruence.
Qed.

Lemma dict_get_set (key key' : str) v (d : dict) :
  dict_get key' (dict_set key v d)
  = if decide (key = key') then Some v else dict_get key' d.
Proof.
  induction d as [|[k w] d IH]; simpl.
  - done.
  - destruct (decide (k = key)) as [->|Hk]; simpl.
    + by destruct (decide (key = key')).
    + rewrite IH. destruct (decide (k = key')) as [->|Hk']; [|done].
      by rewrite decide_False.
Qed.

Lemma dict_set_keys (key : str) v (d : dict) :
  (dict_set key v d).*1 = if decide (key ∈ d.*1) then d.*1 else d.*1 ++ [key].
Proof.
  induction d as [|[k w] d IH]; [done|].
  cbn [dict_set]. rewrite fmap_cons. cbn [fst].
  destruct (decide (k = key)) as [->|Hk]; rewrite fmap_cons; cbn [fst].
  - rewrite decide_True; [done|left].
  - rewrite IH. destruct (decide (key ∈ d.*1)) as [Hin|Hin].
    + rewrite decide_True; [done|by right].
    + rewrite decide_False; [done|]. rewrite elem_of_cons.
      intuition congruence.
Qed.

Lemma dict_set_NoDup (key : str) v (d : dict) :
  NoDup d.*1 → NoDup (dict_set key v d).*1.
Proof.
  intros Hd. rewrite dict_set_keys. case_decide as Hin; [done|].
  apply NoDup_app. split_and!; [done| |apply NoDup_singleton].
  intros x Hx Hx'. apply list_elem_of_singleton in Hx'. by subst.
Qed.

Lemma dict_set_Forall (Q : pyval → Prop) (key : str) v (d : dict) :
  Forall (λ kv, Q kv.2) d → Q v → Forall (λ kv, Q kv.2) (dict_set key v d).
Proof.
  intros Hd Hv. induction Hd as [|[k w] d Hw Hd IH]; simpl.
  - by repeat constructor.
  - case_decide; constructor; done.
Qed.

(** ** The store of the parser *)

Lemma elem_ok_mono lo hi hi' x : hi ≤ hi' → elem_ok lo hi x → elem_ok lo hi' x.
Proof. destruct x; simpl; lia. Qed.

Lemma val_ok_mono lo hi hi' v : hi ≤ hi' → val_ok lo hi v → val_ok lo hi' v.
Proof.
  intros Hhi. destruct v as [s|[|x l]|a]; simpl; try done; try lia.
  intros [Hx Hl]. eauto using elem_ok_mono.
Qed.

Lemma dict_ok_mono a hi hi' d : hi ≤ hi' → dict_ok a hi d → dict_ok a hi' d.
Proof.
  intros Hhi [Hnd Hd]. split; [done|].
  eapply Forall_impl; [done|]. intros kv. by apply val_ok_mono.
Qed.

Lemma dict_ok_set a hi key v d :
  dict_ok a hi d → val_ok a hi v → dict_ok a hi (dict_set key v d).
Proof.
  intros [Hnd Hd] Hv. split; [by apply dict_set_NoDup|].
  by apply (dict_set_Forall (val_ok a hi)).
Qed.

Lemma dict_ok_get a hi key v d :
  dict_ok a hi d → dict_get key d = Some v → val_ok a hi v.
Proof.
  intros [_ Hd] Hget%dict_get_elem_of.
  rewrite Forall_forall in Hd. by apply (Hd _ Hget).
Qed.

(** The [else] branch never raises, and keeps the dictionary well formed. *)
Lemma add_value_ok a hi key value d :
  dict_ok a hi d →
  ∃ d', add_value key value d = Some d' ∧ dict_ok a hi d'.
Proof.
  intros Hd. unfold add_value.
  destruct (dict_get key d) as [old|] eqn:Hget; simpl.
  - pose proof (dict_ok_get _ _ _ _ _ Hd Hget) as Hold.
    destruct old as [s|[|x l]|b]; simpl in *; try done.
    + rewrite dict_get_set, decide_True by done. simpl.
      eexists; split; [done|].
      apply dict_ok_set; [by apply dict_ok_set|]. simpl.
      split; [done|by repeat constructor].
    + rewrite Hget. simpl. eexists; split; [done|].
      apply dict_ok_set; [done|]. simpl. destruct Hold as [Hx Hl].
      split; [done|]. apply Forall_app. by repeat constructor.
    + rewrite dict_get_set, decide_True by done. simpl.
      eexists; split; [done|].
      apply dict_ok_set; [by apply dict_ok_set|]. simpl.
      split; [done|by repeat constructor].
  - eexists; split; [done|]. by apply dict_ok_set.
Qed.

Lemma pop_while_Forall (Q : nat * nat → Prop) indent stk :
  Forall Q stk → Forall Q (pop_while indent stk).
Proof.
  induction 1 as [|[i a] stk Hx Hstk IH]; simpl; [done|].
  case_decide; [done|by constructor].
Qed.

Lemma parent_of_lt n stk :
  0 < n → Forall (λ ia : nat * nat, ia.2 < n) stk → parent_of stk < n.
Proof. intros Hn [|[i a] ? Ha _]; simpl; [done|done]. Qed.

Lemma heap_ok_insert h a d :
  heap_ok h → dict_ok a (length h) d → heap_ok (<[a := d]> h).
Proof.
  intros Hh Hd b d'. rewrite length_insert.
  destruct (decide (a = b)) as [->|Hne].
  - intros Hb. pose proof (lookup_lt_Some _ _ _ Hb) as Hlt.
    rewrite length_insert in Hlt.
    rewrite list_lookup_insert_eq in Hb by done. by injection Hb as <-.
  - rewrite list_lookup_insert_ne by done. apply Hh.
Qed.

Lemma heap_ok_alloc h :
  heap_ok h → heap_ok (h ++ [[]]).
Proof.
  intros Hh b d'. rewrite length_app. simpl.
  destruct (decide (b < length h)) as [Hlt|Hge].
  - rewrite lookup_app_l by done. intros Hb.
    eapply dict_ok_mono; [|by apply Hh]. lia.
  - rewrite lookup_app_r by lia. intros Hb.
    destruct (b - length h) as [|?]; [|done]. injection Hb as <-.
    split; [constructor|constructor].
Qed.

(** One line never raises, and keeps the state well formed. *)
Lemma process_line_ok st line :
  state_ok st → ∃ st', process_line st line = Some st' ∧ state_ok st'.
Proof.
  intros (Hheap & Hlen & Hstk). unfold process_line.
  case_decide; [by eexists|].
  destruct (Re.key_value line) as [[g1 g2]|]; [|by eexists].
  set (stk := pop_while (indent_of line) (stack st)).
  assert (Forall (λ ia : nat * nat, ia.2 < length (heap st)) stk) as Hstk'
    by by apply pop_while_Forall.
  pose proof (parent_of_lt _ _ Hlen Hstk') as Hparent.
  destruct (lookup_lt_is_Some_2 _ _ Hparent) as [d Hd]. rewrite Hd. simpl.
  pose proof (Hheap _ _ Hd) as Hdok.
  case_decide.
  - eexists; split; [done|]. split_and!; simpl.
    + rewrite <- insert_app_l by done.
      apply heap_ok_insert; [by apply heap_ok_alloc|].
      rewrite length_app. simpl.
      apply dict_ok_set; [|simpl; lia].
      eapply dict_ok_mono; [|done]. lia.
    + rewrite length_app. simpl. lia.
    + rewrite length_app, length_insert. simpl. constructor; [simpl; lia|].
      eapply Forall_impl; [done|]. simpl. lia.
  - destruct (add_value_ok _ _ (strip g1) (strip g2) _ Hdok) as (d' & -> & Hd').
    simpl. eexists; split; [done|]. split_and!; simpl.
    + by apply heap_ok_insert.
    + by rewrite length_insert.
    + by rewrite length_insert.
Qed.

Lemma run_lines_ok lines st :
  state_ok st → ∃ st', run_lines st lines = Some st' ∧ state_ok st'.
Proof.
  revert st. induction lines as [|line lines IH]; intros st Hst; simpl.
  - by eexists.
  - destruct (process_line_ok st line Hst) as (st' & -> & Hst'). simpl. auto.
Qed.

Lemma init_ok : state_ok init.
Proof.
  split_and!; simpl; [|lia|by repeat constructor].
  intros [|a] d; [|done]. intros [= <-]. split; constructor.
Qed.

(** ** Reading the tree back *)

Lemma mapM_Forall2_ex {A B} (f : A → option B) (Q : A → B → Prop) (l : list A) :
  Forall (λ x, ∃ y, f x = Some y ∧ Q x y) l →
  ∃ k, mapM f l = Some k ∧ Forall2 Q l k.
Proof.
  induction 1 as [|x l (y & Hy & HQ) _ (k & Hk & HF)].
  - by exists [].
  - exists (y :: k). split; [|by constructor].
    cbn [mapM]. rewrite Hy. simpl. by rewrite Hk.
Qed.

Lemma reify_ref fuel (h : list dict) a :
  reify (S fuel) h (PRef a)
  = d ← h !! a; TDict <$> mapM (λ kv, pair kv.1 <$> reify fuel h kv.2) d.
Proof. done. Qed.

Lemma reify_list fuel (h : list dict) l :
  reify (S fuel) h (PList l) = TList <$> mapM (reify fuel h) l.
Proof. done. Qed.

Section Reify.
(** A property of trees that holds of strings, of lists promoted from a
    value that has it, and of mappings with unique keys whose values have
    it, holds of everything read back from a well-formed store. *)
Variable P : tree → Prop.
Hypothesis P_str : ∀ s, P (TStr s).
Hypothesis P_list : ∀ x l,
  is_TList x = false → P x → Forall (λ y, is_TStr y = true) l →
  P (TList (x :: l)).
Hypothesis P_dict : ∀ d,
  NoDup d.*1 → Forall (λ kv, P kv.2) d → P (TDict d).

Variable h : list dict.
Hypothesis Hh : heap_ok h.

Lemma reify_ref_ok fuel a :
  a < length h → 2 * (length h - a) + 1 ≤ fuel →
  ∃ d, reify fuel h (PRef a) = Some (TDict d) ∧ P (TDict d).
Proof.
  revert a. induction fuel as [fuel IH] using lt_wf_ind.
  intros a Ha Hfuel. destruct fuel as [|f]; [lia|].
  destruct (lookup_lt_is_Some_2 h a Ha) as [d0 Hd0].
  setoid_rewrite reify_ref. rewrite Hd0. simpl.
  assert (∀ g x, elem_ok a (length h) x →
            2 * (length h - a) - 1 ≤ g → g < S f →
            ∃ t, reify g h x = Some t ∧ P t ∧ is_TList t = false) as Helem.
  { intros g [s|l|b] Hx Hg Hlt; simpl in Hx; [|done|].
    - destruct g as [|g]; [lia|]. by exists (TStr s).
    - destruct (IH g Hlt b) as (d & Hd & HP); [lia|lia|].
      by exists (TDict d). }
  assert (∀ v, val_ok a (length h) v →
            ∃ t, reify f h v = Some t ∧ P t) as Hval.
  { intros [s|[|x l]|b] Hv; simpl in Hv; [|done| |].
    - destruct (Helem f (PStr s)) as (t & Ht & HP & _); [done|lia|lia|eauto].
    - destruct Hv as [Hx Hl].
      destruct f as [|f']; [lia|]. rewrite reify_list.
      destruct (Helem f' x) as (tx & Htx & HPx & Hnl); [done|lia|lia|].
      destruct (mapM_Forall2_ex (reify f' h) (λ _ t, is_TStr t = true) l)
        as (tl & Htl & Hstr).
      { eapply Forall_impl; [exact Hl|]. intros [s| |] Hy; try done.
        destruct f' as [|f'']; [lia|]. by exists (TStr s). }
      exists (TList (tx :: tl)). split.
      + cbn [mapM]. rewrite Htx. simpl. by rewrite Htl.
      + apply P_list; [done|done|]. clear -Hstr. induction Hstr; by constructor.
    - destruct (Helem f (PRef b)) as (t & Ht & HP & _); [done|lia|lia|eauto]. }
  destruct (Hh _ _ Hd0) as [Hnd Hvals].
  destruct (mapM_Forall2_ex (λ kv, pair kv.1 <$> reify f h kv.2)
              (λ kv kt, kt.1 = kv.1 ∧ P kt.2) d0) as (d & Hd & HF).
  { eapply Forall_impl; [exact Hvals|]. intros [k v] Hv. simpl in *.
    destruct (Hval v Hv) as (t & -> & HP). by exists (k, t). }
  exists d. rewrite Hd. split; [done|]. apply P_dict.
  - replace (d.*1) with (d0.*1); [done|].
    clear -HF. induction HF as [|kv kt d0 d [Hk _] _ IH]; [done|].
    rewrite !fmap_cons. by rewrite Hk, IH.
  - clear -HF. induction HF as [|kv kt d0 d [_ HP] _ IH]; by constructor.
Qed.
End Reify.

(** [parse_identify_output] returns a mapping for every text, and every
    property that [reify_ref_ok] carries holds of it. *)
Lemma parse_identify_output_returns (P : tree → Prop) (text : str) :
  (∀ s, P (TStr s)) →
  (∀ x l, is_TList x = false → P x → Forall (λ y, is_TStr y = true) l →
          P (TList (x :: l))) →
  (∀ d, NoDup d.*1 → Forall (λ kv, P kv.2) d → P (TDict d)) →
  ∃ d, parse_identify_output text = Some (TDict d) ∧ P (TDict d).
Proof.
  intros P_str P_list P_dict. unfold parse_identify_output.
  destruct (run_lines_ok (splitlines text) init init_ok)
    as (st & -> & Hheap & Hlen & _).
  simpl. apply reify_ref_ok; try done; unfold result; lia.
Qed.

(** ** Closure of the tree shapes *)

Lemma keys_unique_dict d :
  NoDup d.*1 → Forall (λ kv, keys_unique kv.2) d → keys_unique (TDict d).
Proof.
  intros Hnd Hd. split; [done|]. clear Hnd.
  induction Hd as [|kv d Hkv _ IH]; simpl; [done|by split].
Qed.

Lemma keys_unique_list x l :
  keys_unique x → Forall (λ y, is_TStr y = true) l → keys_unique (TList (x :: l)).
Proof.
  intros Hx Hl. split; [done|].
  induction Hl as [|y l Hy _ IH]; simpl; [done|].
  split; [by destruct y|done].
Qed.

Lemma promoted_tree_dict d :
  Forall (λ kv, promoted_tree kv.2 = true) d → promoted_tree (TDict d) = true.
Proof.
  intros Hd. simpl. induction Hd as [|kv d Hkv _ IH]; simpl; [done|].
  by rewrite Hkv, IH.
Qed.

Lemma promoted_tree_list x l :
  is_TList x = false → promoted_tree x = true →
  Forall (λ y, is_TStr y = true) l → promoted_tree (TList (x :: l)) = true.
Proof.
  intros Hnl Hx Hl. simpl. rewrite Hnl, Hx. simpl.
  induction Hl as [|y l Hy _ IH]; simpl; [done|]. by rewrite Hy, IH.
Qed.

(** ** Lines *)

Lemma splitlines_from_no_linebreak n : ∀ (s cur line : str),
  length s ≤ n →
  Forall (λ c, islinebreak c = false) cur →
  line ∈ splitlines_from cur s →
  Forall (λ c, islinebreak c = false) line.
Proof.
  induction n as [|n IH]; intros s cur line Hn Hcur Hline.
  - destruct s; [|simpl in Hn; lia]. simpl in Hline.
    destruct cur; [by apply elem_of_nil in Hline|].
    apply list_elem_of_singleton in Hline as ->. by apply Forall_rev.
  - destruct s as [|c s]; simpl in Hline.
    { destruct cur; [by apply elem_of_nil in Hline|].
      apply list_elem_of_singleton in Hline as ->. by apply Forall_rev. }
    simpl in Hn. destruct (islinebreak c) eqn:Hc.
    + destruct s as [|c' s].
      { apply list_elem_of_singleton in Hline as ->. by apply Forall_rev. }
      simpl in Hn.
      destruct ((c =? CR) && (c' =? LF))%N;
        apply elem_of_cons in Hline as [->|Hline]; try by apply Forall_rev.
      * apply (IH s [] line); [lia|done|done].
      * apply (IH (c' :: s) [] line); [simpl; lia|done|done].
    + apply (IH s (c :: cur) line); [lia|by constructor|done].
Qed.

(** No line of [splitlines] holds a line break; in particular none holds a
    line feed. *)
Lemma splitlines_no_LF (text line : str) :
  line ∈ splitlines text → LF ∉ line.
Proof.
  intros Hline HLF.
  pose proof (splitlines_from_no_linebreak (length text) text [] line
                (le_n _) (Forall_nil_2 _) Hline) as Hnb.
  rewrite Forall_forall in Hnb. by specialize (Hnb _ HLF).
Qed.

(** ** One line of the loop *)

Lemma dict_set_set (key : str) v w (d : list (list N * pyval)) :
  dict_set key v (dict_set key w d) = dict_set key v d.
Proof.
  induction d as [|[k u] d IH]; simpl.
  - by rewrite decide_True.
  - destruct (decide (k = key)) as [->|Hk]; simpl.
    + by rewrite decide_True.
    + by rewrite decide_False, IH.
Qed.

(** A key that is present: the stored value is kept and the new string is
    appended to it. *)
Lemma add_value_present (key value : str) (d : list (list N * pyval)) old :
  dict_get key d = Some old →
  add_value key value d = Some (dict_set key (appended old value) d).
Proof.
  intros Hget. unfold add_value. rewrite Hget. simpl.
  destruct old as [s|l|a]; simpl.
  - rewrite dict_get_set, decide_True by done. simpl. by rewrite dict_set_set.
  - by rewrite Hget.
  - rewrite dict_get_set, decide_True by done. simpl. by rewrite dict_set_set.
Qed.

Lemma process_line_repeat st (line g1 g2 : str) d old :
  strip line ≠ [] →
  Re.key_value line = Some (g1, g2) →
  strip g2 ≠ [] →
  heap st !! parent_of (pop_while (indent_of line) (stack st)) = Some d →
  dict_get (strip g1) d = Some old →
  process_line st line
  = Some (PState
            (<[parent_of (pop_while (indent_of line) (stack st))
               := dict_set (strip g1) (appended old (strip g2)) d]> (heap st))
            (pop_while (indent_of line) (stack st))).
Proof.
  intros Hline Hkv Hvalue Hd Hget. unfold process_line.
  rewrite decide_False by done. rewrite Hkv, Hd. simpl.
  rewrite decide_False by done.
  by rewrite (add_value_present _ _ _ _ Hget).
Qed.

Lemma process_line_open st (line g1 g2 : str) d :
  strip line ≠ [] →
  Re.key_value line = Some (g1, g2) →
  strip g2 = [] →
  heap st !! parent_of (pop_while (indent_of line) (stack st)) = Some d →
  process_line st line
  = Some (PState
            (<[parent_of (pop_while (indent_of line) (stack st))
               := dict_set (strip g1) (PRef (length (heap st))) d]> (heap st)
             ++ [[]])
            ((indent_of line, length (heap st))
             :: pop_while (indent_of line) (stack st))).
Proof.
  intros Hline Hkv Hvalue Hd. unfold process_line.
  rewrite decide_False by done. rewrite Hkv, Hd. simpl.
  by rewrite decide_True.
Qed.

Lemma process_line_no_colon st (line : str) :
  COLON ∉ line → process_line st line = Some st.
Proof.
  intros Hline. unfold process_line. case_decide; [done|].
  by rewrite key_value_no_colon.
Qed.

Lemma pop_while_0 stk : pop_while 0 stk = [].
Proof.
  induction stk as [|[i a] stk IH]; [done|].
  cbn [pop_while]. destruct (decide (0 ≤ i)); [done|lia].
Qed.

(** ** Two lines with the same key at the top level *)

Lemma lstrip_length (s : str) : length (lstrip s) ≤ length s.
Proof.
  induction s as [|c s IH]; simpl; [done|].
  destruct (isspace c); simpl; lia.
Qed.

Lemma strip_length (s : str) : length (strip s) ≤ length s.
Proof.
  unfold strip, rstrip. rewrite length_rev.
  etrans; [apply lstrip_length|]. rewrite length_rev. apply lstrip_length.
Qed.

Lemma strip_fixed_head (c : char) (s : str) :
  strip (c :: s) = c :: s → isspace c = false.
Proof.
  intros Hfix. destruct (isspace c) eqn:Hc; [|done].
  pose proof (f_equal length Hfix) as Hlen. revert Hlen.
  unfold strip at 1. cbn [lstrip]. rewrite Hc. fold (strip s).
  pose proof (strip_length s). simpl. lia.
Qed.

Lemma lstrip_snoc_nonspace (s : str) (c : char) :
  isspace c = false → lstrip (s ++ [c]) ≠ [].
Proof.
  intros Hc. induction s as [|x s IH]; simpl.
  - by rewrite Hc.
  - by destruct (isspace x).
Qed.

Lemma strip_nonblank (c : char) (s : str) :
  isspace c = false → strip (c :: s) ≠ [].
Proof.
  intros Hc. unfold strip, rstrip. cbn [lstrip]. rewrite Hc.
  cbn [rev]. intros Hnil.
  apply (f_equal length) in Hnil. rewrite length_rev in Hnil.
  apply (lstrip_snoc_nonspace (rev s) c Hc). by apply nil_length_inv.
Qed.

Lemma indent_of_nonspace (c : char) (s : str) :
  isspace c = false → indent_of (c :: s) = 0.
Proof. intros Hc. unfold indent_of. cbn [lstrip]. rewrite Hc. lia. Qed.

Lemma clean_head (s : str) :
  clean s → ∃ c s', s = c :: s' ∧ isspace c = false.
Proof.
  intros (Hne & Hfix & _). destruct s as [|c s']; [done|].
  exists c, s'. split; [done|]. by apply (strip_fixed_head c s').
Qed.

Lemma clean_no_LF (s : str) : clean s → LF ∉ s.
Proof.
  intros (_ & _ & Hlb) HLF. rewrite Forall_forall in Hlb.
  by specialize (Hlb _ HLF).
Qed.

(** The line [key: value] is matched with groups [key] and [value]. *)
Lemma key_value_of_line (key value : str) :
  clean key → COLON ∉ key → clean value →
  strip (key_value_line key value) ≠ []
  ∧ indent_of (key_value_line key value) = 0
  ∧ Re.key_value (key_value_line key value) = Some (key, value).
Proof.
  intros Hkey Hcolon Hvalue.
  destruct (clean_head key Hkey) as (c & k' & -> & Hc).
  destruct (clean_head value Hvalue) as (x & v' & -> & Hx).
  unfold key_value_line. split_and!.
  - by apply strip_nonblank.
  - by apply indent_of_nonspace.
  - etrans; [apply (key_value_split [] c k' (SP :: x :: v'))|].
    + done.
    + done.
    + by eapply not_elem_of_tail.
    + simpl. apply clean_no_LF in Hkey, Hvalue.
      rewrite not_elem_of_cons in Hkey. destruct Hkey as [Hc' Hk'].
      rewrite !not_elem_of_cons, not_elem_of_app, !not_elem_of_cons.
      rewrite not_elem_of_cons in Hvalue. by destruct Hvalue.
    + cbn [lstrip]. replace (isspace SP) with true by done. by rewrite Hx.
Qed.

(** [splitlines] on a line without line break that a line feed ends. *)
Lemma splitlines_from_line (cur line rest : str) :
  Forall (λ c, islinebreak c = false) line →
  splitlines_from cur (line ++ LF :: rest)
  = (rev cur ++ line) :: splitlines_from [] rest.
Proof.
  intros Hline. revert cur.
  induction Hline as [|c line Hc _ IH]; intros cur.
  - rewrite app_nil_r. simpl. by destruct rest.
  - cbn [app splitlines_from]. rewrite Hc, IH. cbn [rev].
    by rewrite <- app_assoc.
Qed.

Lemma clean_line_no_linebreak (key value : str) :
  clean key → clean value →
  Forall (λ c, islinebreak c = false) (key_value_line key value).
Proof.
  intros (_ & _ & Hk) (_ & _ & Hv). unfold key_value_line.
  apply Forall_app. split; [done|]. by repeat constructor.
Qed.

(** The parser on the two lines [key: v1] and [key: v2]. *)
Lemma parse_repeated_top_level_key (key v1 v2 : str) :
  clean key → COLON ∉ key → clean v1 → clean v2 →
  parse_identify_output
    (key_value_line key v1 ++ LF :: key_value_line key v2 ++ [LF])
  = Some (TDict [(key, TList [TStr v1; TStr v2])]).
Proof.
  intros Hkey Hcolon Hv1 Hv2. unfold parse_identify_output, splitlines.
  rewrite splitlines_from_line by by apply clean_line_no_linebreak.
  rewrite splitlines_from_line by by apply clean_line_no_linebreak.
  cbn [rev app splitlines_from run_lines].
  destruct (key_value_of_line key v1 Hkey Hcolon Hv1) as (Hb1 & Hi1 & Hm1).
  destruct (key_value_of_line key v2 Hkey Hcolon Hv2) as (Hb2 & Hi2 & Hm2).
  destruct Hkey as (_ & Hk & _). destruct Hv1 as (Hne1 & Hs1 & _).
  destruct Hv2 as (Hne2 & Hs2 & _).
  assert (process_line init (key_value_line key v1)
          = Some (PState [[(key, PStr v1)]] [])) as ->.
  { unfold process_line. rewrite decide_False by done.
    rewrite Hm1, Hi1, Hk, Hs1, pop_while_0. cbn.
    by rewrite decide_False by done. }
  cbn [mbind option_bind].
  rewrite (process_line_repeat _ _ key v2 [(key, PStr v1)] (PStr v1));
    [|done|done|by rewrite Hs2|by rewrite Hi2|].
  2:{ rewrite Hk. cbn. by rewrite decide_True. }
  rewrite Hi2, Hk, Hs2, pop_while_0. cbn. by rewrite !decide_True.
Qed.

(** * The claims about [parse_identify_output] *)

(** C4.  On the three lines [A:], [  B: 1], [  C: 2], each ended by a line
    feed, the parser returns exactly the mapping that sends [A] to the
    mapping of [B] to the string [1] and [C] to the string [2]: the empty
    value after [A] opens a nested mapping, and the two indented lines go
    into it as strings. *)
Theorem parse_nested_block :
  parse_identify_output (txt ["A:"; "  B: 1"; "  C: 2"]%string)
  = Some (TDict [(of_string "A",
                  TDict [(of_string "B", TStr (of_string "1"));
                         (of_string "C", TStr (of_string "2"))])]).
Proof. vm_compute. reflexivity. Qed.

(** C10.  For every text the parser returns a mapping and raises nothing.
    A line at indentation 0 pops every entry of the stack, the seeded one
    included; the parent is then [result]; and in every state that the loop
    reaches, no line raises. *)
Theorem parse_identify_output_total :
  (∀ text : str, ∃ d, parse_identify_output text = Some (TDict d))
  ∧ (∀ stk, pop_while 0 stk = [])
  ∧ parent_of [] = result
  ∧ (∀ lines : list str, ∃ st,
       run_lines init lines = Some st
       ∧ ∀ line : str, is_Some (process_line st line)).
Proof.
  split_and!.
  - intros text.
    destruct (parse_identify_output_returns (λ _, True) text) as (d & Hd & _);
      eauto.
  - apply pop_while_0.
  - done.
  - intros lines.
    destruct (run_lines_ok lines init init_ok) as (st & Hst & Hok).
    exists st. split; [done|]. intros line.
    destruct (process_line_ok st line Hok) as (st' & -> & _). by eexists.
Qed.

(** C2, the claim as stated fails: on the two lines [X: 1], [X:] the second
    occurrence of [X], whose value is empty, overwrites the string [1] with
    a new empty mapping. *)
Lemma repeated_key_empty_value_overwrites :
  (heap <$> run_lines init (splitlines (txt ["X: 1"]%string)))
    = Some [[(of_string "X", PStr (of_string "1"))]]
  ∧ (heap <$> run_lines init (splitlines (txt ["X: 1"; "X:"]%string)))
    = Some [[(of_string "X", PRef 1)]; []]
  ∧ parse_identify_output (txt ["X: 1"; "X:"]%string)
    = Some (TDict [(of_string "X", TDict [])]).
Proof. vm_compute. done. Qed.

(** C2, amended.  In the mapping returned for any text no key occurs twice
    at one nesting level.  A key that repeats with a value that is not
    empty keeps what was stored under it: a list gets the new value
    appended, anything else becomes the first element of a new list that
    the new value follows.  A key that repeats with an empty value has its
    stored value replaced by a new empty mapping. *)
Theorem repeated_key_keeps_value_unless_empty :
  (∀ text : str, ∃ d,
     parse_identify_output text = Some (TDict d) ∧ keys_unique (TDict d))
  ∧ (∀ st (line g1 g2 : str) d old,
       strip line ≠ [] →
       Re.key_value line = Some (g1, g2) →
       strip g2 ≠ [] →
       heap st !! parent_of (pop_while (indent_of line) (stack st)) = Some d →
       dict_get (strip g1) d = Some old →
       ∃ st',
         process_line st line = Some st'
         ∧ stack st' = pop_while (indent_of line) (stack st)
         ∧ heap st' = <[parent_of (pop_while (indent_of line) (stack st))
                        := dict_set (strip g1) (appended old (strip g2)) d]>
                        (heap st))
  ∧ (∀ st (line g1 g2 : str) d,
       strip line ≠ [] →
       Re.key_value line = Some (g1, g2) →
       strip g2 = [] →
       heap st !! parent_of (pop_while (indent_of line) (stack st)) = Some d →
       ∃ st',
         process_line st line = Some st'
         ∧ stack st' = (indent_of line, length (heap st))
                       :: pop_while (indent_of line) (stack st)
         ∧ heap st' = <[parent_of (pop_while (indent_of line) (stack st))
                        := dict_set (strip g1) (PRef (length (heap st))) d]>
                        (heap st) ++ [[]]).
Proof.
  split_and!.
  - intros text.
    apply (parse_identify_output_returns keys_unique text); [done| |].
    + intros x l _. apply keys_unique_list.
    + apply keys_unique_dict.
  - intros st line g1 g2 d old Hline Hkv Hvalue Hd Hget.
    eexists. split; [by apply (process_line_repeat st line g1 g2 d old)|done].
  - intros st line g1 g2 d Hline Hkv Hvalue Hd.
    eexists. split; [by apply (process_line_open st line g1 g2 d)|done].
Qed.

Lemma repeated_key_keeps_value_unless_empty_witness :
  (∃ st',
     process_line (PState [[(of_string "X", PRef 1)]; []] []) (of_string "X: 2")
     = Some st'
     ∧ stack st' = []
     ∧ heap st' = [[(of_string "X", PList [PRef 1; PStr (of_string "2")])]; []])
  ∧ (∃ st',
       process_line (PState [[(of_string "X", PStr (of_string "1"))]] [])
         (of_string "X:")
       = Some st'
       ∧ stack st' = [(0, 1)]
       ∧ heap st' = [[(of_string "X", PRef 1)]; []]).
Proof.
  split.
  - apply (proj1 (proj2 repeated_key_keeps_value_unless_empty)
             (PState [[(of_string "X", PRef 1)]; []] [])
             (of_string "X: 2") (of_string "X") (of_string "2")
             [(of_string "X", PRef 1)] (PRef 1));
      vm_compute; (reflexivity || discriminate).
  - apply (proj2 (proj2 repeated_key_keeps_value_unless_empty)
             (PState [[(of_string "X", PStr (of_string "1"))]] [])
             (of_string "X:") (of_string "X") []
             [(of_string "X", PStr (of_string "1"))]);
      vm_compute; (reflexivity || discriminate).
Defined.

(** C6, the claim as stated fails: on the two lines [X:], [X: 1] the
    mapping opened by the first line is promoted to a list, so the list
    under [X] holds a nested mapping, and the tree is not of the shape the
    specification gives. *)
Lemma list_value_holds_mapping :
  parse_identify_output (txt ["X:"; "X: 1"]%string)
  = Some (TDict [(of_string "X", TList [TDict []; TStr (of_string "1")])])
  ∧ metadata_tree
      (TDict [(of_string "X", TList [TDict []; TStr (of_string "1")])])
    = false.
Proof. vm_compute. done. Qed.

(** C6, amended.  For every text, every value of the returned mapping is a
    string, a nested mapping of the same shape, or a list that is not empty,
    whose first element is a string or a nested mapping of the same shape
    and whose other elements are strings. *)
Theorem parse_identify_output_shape :
  ∀ text : str, ∃ d,
    parse_identify_output text = Some (TDict d)
    ∧ promoted_tree (TDict d) = true.
Proof.
  intros text.
  apply (parse_identify_output_returns (λ t, promoted_tree t = true) text).
  - done.
  - apply promoted_tree_list.
  - intros d _. apply promoted_tree_dict.
Qed.

(** C3, the claim as stated fails: the line [a:b] holds no colon that a
    space follows, so the split of the specification does not apply, yet
    the line is not skipped: it puts [b] under [a]. *)
Lemma colon_without_space_is_matched :
  spec_split [] (of_string "a:b") = None
  ∧ strip (of_string "a:b") ≠ []
  ∧ process_line init (of_string "a:b") ≠ Some init
  ∧ parse_identify_output (txt ["a:b"]%string)
    = Some (TDict [(of_string "a", TStr (of_string "b"))]).
Proof. vm_compute. split_and!; (reflexivity || discriminate). Qed.

(** C3, amended.  Every line the parser reads is free of line feeds, and a
    line that is not blank has one of four shapes.  Let [c] be its first
    character that is not white space.  If a colon comes after [c], the
    line is split at the first such colon, whether or not a space follows
    it: group 1 runs from [c] to that colon, group 2 is what follows the
    colon without its leading white space.  If [c] is the only colon of
    the line and white space precedes it, the line is split at [c]: group 1
    is the white space character before it, so the key is empty, and
    group 2 is what follows without its leading white space.  If [c] is
    the only colon and starts the line, or if the line holds no colon, the
    line is skipped and leaves the state as it was. *)
Theorem line_split_at_first_colon :
  (∀ text line : str, line ∈ splitlines text → LF ∉ line)
  ∧ (∀ line : str,
       strip line ≠ [] →
       (∃ ws c pre post,
          line = ws ++ c :: pre ++ COLON :: post
          ∧ Forall (λ x, isspace x = true) ws ∧ isspace c = false
          ∧ COLON ∉ pre)
       ∨ (∃ ws x rest,
            line = ws ++ x :: COLON :: rest
            ∧ Forall (λ c, isspace c = true) ws ∧ isspace x = true
            ∧ COLON ∉ rest)
       ∨ (∃ rest, line = COLON :: rest ∧ COLON ∉ rest)
       ∨ COLON ∉ line)
  ∧ (∀ (ws : str) (c : char) (pre post : str),
       Forall (λ x, isspace x = true) ws →
       isspace c = false →
       COLON ∉ pre →
       LF ∉ ws ++ c :: pre ++ COLON :: post →
       Re.key_value (ws ++ c :: pre ++ COLON :: post)
       = Some (c :: pre, lstrip post))
  ∧ (∀ (ws : str) (x : char) (rest : str),
       Forall (λ c, isspace c = true) ws →
       isspace x = true →
       COLON ∉ rest →
       LF ∉ ws ++ x :: COLON :: rest →
       Re.key_value (ws ++ x :: COLON :: rest) = Some ([x], lstrip rest)
       ∧ strip [x] = [])
  ∧ (∀ st (rest : str),
       COLON ∉ rest → process_line st (COLON :: rest) = Some st)
  ∧ (∀ st (line : str), COLON ∉ line → process_line st line = Some st).
Proof.
  split_and!.
  - apply splitlines_no_LF.
  - apply line_shapes.
  - apply key_value_split.
  - intros ws x rest Hws Hx Hrest HLF.
    split; [by apply key_value_after_space|].
    unfold strip. cbn [lstrip]. by rewrite Hx.
  - intros st rest Hrest. unfold process_line. case_decide; [done|].
    by rewrite key_value_only_colon_first.
  - apply process_line_no_colon.
Qed.

Lemma line_split_at_first_colon_witness :
  (LF ∉ of_string "  a b:c: d")
  ∧ ((∃ ws c pre post,
        of_string " :x" = ws ++ c :: pre ++ COLON :: post
        ∧ Forall (λ x, isspace x = true) ws ∧ isspace c = false
        ∧ COLON ∉ pre)
     ∨ (∃ ws x rest,
          of_string " :x" = ws ++ x :: COLON :: rest
          ∧ Forall (λ c, isspace c = true) ws ∧ isspace x = true
          ∧ COLON ∉ rest)
     ∨ (∃ rest, of_string " :x" = COLON :: rest ∧ COLON ∉ rest)
     ∨ COLON ∉ of_string " :x")
  ∧ Re.key_value (of_string "  a b:c: d")
    = Some (of_string "a b", of_string "c: d")
  ∧ (Re.key_value (of_string "  :x") = Some ([SP], of_string "x")
     ∧ strip [SP] = [])
  ∧ process_line init (of_string ":x") = Some init
  ∧ process_line init (of_string "no colon here") = Some init.
Proof.
  split; [|split; [|split; [|split; [|split]]]].
  - apply (proj1 line_split_at_first_colon
             (txt ["  a b:c: d"]%string) (of_string "  a b:c: d")).
    vm_compute. apply list_elem_of_here.
  - apply (proj1 (proj2 line_split_at_first_colon) (of_string " :x")).
    vm_compute. discriminate.
  - apply (proj1 (proj2 (proj2 line_split_at_first_colon))
             (of_string "  ") (N_of_ascii "a") (of_string " b")
             (of_string "c: d")).
    + by repeat constructor.
    + done.
    + decide_by_compute.
    + decide_by_compute.
  - apply (proj1 (proj2 (proj2 (proj2 line_split_at_first_colon)))
             [SP] SP (of_string "x")).
    + by repeat constructor.
    + done.
    + decide_by_compute.
    + decide_by_compute.
  - apply (proj1 (proj2 (proj2 (proj2 (proj2 line_split_at_first_colon))))
             init (of_string "x")).
    decide_by_compute.
  - apply (proj2 (proj2 (proj2 (proj2 (proj2 line_split_at_first_colon))))
             init (of_string "no colon here")).
    decide_by_compute.
Defined.

(** * [create_image_directories] *)

Module DateFoldersFacts.
Import DateFolders DateFoldersShape.

(** Running a script: unfold the operations of the monad and the
    primitives of the file system. *)
Ltac run_script :=
  repeat progress
    (cbv beta iota delta
       [bind ret raise get modify when try_except
        exists_ isdir isfile mkdir isfile_listed glob_star];
     simpl).

Lemma makedirs_cons (E : env) (n : str) (head : path) :
  makedirs E (n :: head)
  = ((e <- exists_ head ;;
      when (negb e) (try_except (makedirs E head) FileExistsError (ret tt))) ;;
     λ w, match mkdir E (n :: head) w with
          | (inl e, w') =>
              if is_OSError e then
                match isdir (n :: head) w' with
                | (inr true, w'') => (inr tt, w'')
                | _ => (inl e, w')
                end
              else (inl e, w')
          | r => r
          end).
Proof. reflexivity. Qed.

#[global] Arguments makedirs : simpl never.

(** [makedirs] of a child of a directory: nothing to do when the child is a
    directory, [FileExistsError] when it is anything else, and otherwise
    one new directory unless the operating system refuses. *)
Lemma makedirs_child (E : env) (n : str) (head : path) (w : world) :
  fs w !! head = Some KDir →
  makedirs E (n :: head) w
  = match fs w !! (n :: head) with
    | Some KDir => (inr tt, w)
    | Some _ => (inl FileExistsError, w)
    | None =>
        match refused E (n :: head) with
        | Some e => (inl (exn_of e), w)
        | None => (inr tt, World (<[n :: head := KDir]> (fs w)) (out w))
        end
    end.
Proof.
  intros Hhead. rewrite makedirs_cons. run_script. rewrite Hhead. run_script.
  destruct (fs w !! (n :: head)) as [[]|] eqn:Hp; run_script;
    rewrite ?Hp; try done.
  rewrite Hhead. destruct (refused E (n :: head)) as [e|]; run_script; [|done].
  rewrite Hp. by destruct (is_OSError (exn_of e)).
Qed.

Section Loop.
Variable E : env.

Lemma grows_nil m : grows E [] m m.
Proof.
  split; [done| |].
  - intros p Hp [k Hk]. congruence.
  - intros n Hn. by apply elem_of_nil in Hn.
Qed.

(** Growth does not change which names the loop takes for files. *)
Lemma grows_listed F m m' n :
  grows E F m m' → is_listed_file E m' n = is_listed_file E m n.
Proof.
  intros [A B _]. unfold is_listed_file.
  destruct (has_magic (target_dir E)); [done|].
  apply bool_decide_ext. split.
  - intros Hn. destruct (m !! [n]) as [k|] eqn:Hm.
    + apply A in Hm. congruence.
    + destruct (B [n] Hm) as [Hdir _]; [by rewrite Hn|]. congruence.
  - apply A.
Qed.

Lemma grows_app F1 F2 m1 m2 m3 :
  grows E F1 m1 m2 → grows E F2 m2 m3 → grows E (F1 ++ F2) m1 m3.
Proof.
  intros H1 H2.
  assert (∀ n, is_listed_file E m2 n = is_listed_file E m1 n) as Hlisted
    by (intros n; by eapply grows_listed).
  destruct H1 as [A1 B1 C1], H2 as [A2 B2 C2]. split.
  - eauto.
  - intros p Hp Hsome. destruct (m2 !! p) as [k|] eqn:Hp2.
    + destruct (B1 p Hp) as (Hk & n & Hn & Hfile & Hdate & ->);
        [by rewrite Hp2|].
      split; [apply A2; congruence|].
      exists n. rewrite elem_of_app. eauto.
    + destruct (B2 p Hp2 Hsome) as (Hk & n & Hn & Hfile & Hdate & ->).
      split; [done|]. exists n. rewrite elem_of_app.
      split_and!; [by right| |done|done]. by rewrite <- Hlisted.
  - intros n [Hn|Hn]%elem_of_app Hfile Hdate.
    + destruct (C1 n Hn Hfile Hdate) as [Hdir Hprint]. eauto.
    + apply C2; [done| |done]. by rewrite Hlisted.
Qed.

(** One iteration of the loop, when it raises nothing. *)
Lemma create_for_grows (n : str) (w w' : world) :
  fs w !! [images] = Some KDir →
  create_for E n w = (inr tt, w') →
  grows E [n] (fs w) (fs w').
Proof.
  intros Himages. unfold create_for. run_script.
  destruct (is_listed_file E (fs w) n) eqn:Hfile; simpl.
  2:{ intros [= <-]. split; [done|intros p -> [??]; congruence|].
      intros ? ->%list_elem_of_singleton. congruence. }
  destruct (date_search (digits E) n) eqn:Hdate; simpl.
  2:{ intros [= <-]. split; [done|intros p -> [??]; congruence|].
      intros ? ->%list_elem_of_singleton. congruence. }
  unfold bind. rewrite makedirs_child by done. unfold print.
  destruct (fs w !! [splitext_root n; images]) as [[]|] eqn:Htarget;
    simpl; try done.
  - destruct (unprintable E [splitext_root n; images]) eqn:Hprint;
      run_script; [done|].
    intros [= <-]. simpl. split; [done|intros p -> [??]; congruence|].
    by intros ? ->%list_elem_of_singleton.
  - destruct (refused E [splitext_root n; images]); [done|].
    destruct (unprintable E [splitext_root n; images]) eqn:Hprint;
      run_script; [done|].
    intros [= <-]. simpl. split.
    + intros p k Hp. rewrite lookup_insert_ne; [done|congruence].
    + intros p Hp Hsome.
      destruct (decide ([splitext_root n; images] = p)) as [<-|Hne].
      * rewrite lookup_insert_eq. split; [done|].
        exists n. split_and!; [apply list_elem_of_here|done|done|done].
      * rewrite lookup_insert_ne in Hsome by done.
        rewrite Hp in Hsome. by destruct Hsome.
    + intros ? ->%list_elem_of_singleton _ _. by rewrite lookup_insert_eq.
Qed.

Lemma for_each_grows (files : list str) (w w' : world) :
  fs w !! [images] = Some KDir →
  for_each files (create_for E) w = (inr tt, w') →
  grows E files (fs w) (fs w').
Proof.
  revert w. induction files as [|n files IH]; intros w Himages; simpl.
  - intros [= <-]. apply grows_nil.
  - unfold bind at 1.
    destruct (create_for E n w) as [[e|[]] w2] eqn:Hn; [done|].
    intros Hrest. pose proof (create_for_grows n w w2 Himages Hn) as Hg.
    apply (grows_app [n] files _ _ _ Hg), IH; [|done].
    by apply (grows_keeps _ _ _ _ Hg).
Qed.

(** An iteration for which the directory is there only prints. *)
Lemma create_for_settled (n : str) (w : world) :
  fs w !! [images] = Some KDir →
  (is_listed_file E (fs w) n = true → date_search (digits E) n = true →
   fs w !! [splitext_root n; images] = Some KDir
   ∧ unprintable E [splitext_root n; images] = None) →
  ∃ o, create_for E n w = (inr tt, World (fs w) o).
Proof.
  intros Himages Hthere. unfold create_for. run_script.
  destruct (is_listed_file E (fs w) n) eqn:Hfile; simpl;
    [|exists (out w); by destruct w].
  destruct (date_search (digits E) n) eqn:Hdate; simpl;
    [|exists (out w); by destruct w].
  destruct Hthere as [Hdir Hprint]; [done|done|].
  unfold bind. rewrite makedirs_child by done. rewrite Hdir.
  unfold print. rewrite Hprint. run_script. by eexists.
Qed.

Lemma for_each_settled (files : list str) (w : world) :
  fs w !! [images] = Some KDir →
  (∀ n, n ∈ files → is_listed_file E (fs w) n = true →
        date_search (digits E) n = true →
        fs w !! [splitext_root n; images] = Some KDir
        ∧ unprintable E [splitext_root n; images] = None) →
  ∃ o, for_each files (create_for E) w = (inr tt, World (fs w) o).
Proof.
  revert w. induction files as [|n files IH]; intros w Himages Hthere; simpl.
  - exists (out w). by destruct w.
  - unfold bind at 1.
    destruct (create_for_settled n w Himages) as [o ->].
    { apply Hthere. apply list_elem_of_here. }
    apply (IH (World (fs w) o)); [done|].
    intros n' Hn'. apply Hthere. by apply list_elem_of_further.
Qed.
End Loop.

(** The names of the entries of a directory. *)
Lemma elem_of_listdir (m : gmap path kind) (dir : path) (n : str) :
  n ∈ listdir m dir ↔ is_Some (m !! (n :: dir)).
Proof.
  unfold listdir. rewrite list_elem_of_omap. split.
  - intros ([p k] & Hpk & Hn). apply elem_of_map_to_list in Hpk. simpl in Hn.
    destruct p as [|n' d]; [done|]. case_decide; [|done].
    injection Hn as ->. subst. by eexists.
  - intros [k Hk]. exists (n :: dir, k). split.
    + by apply elem_of_map_to_list.
    + simpl. by rewrite decide_True.
Qed.

(** The names that the loop takes for files are those that [glob] lists
    and that pass the test of the loop. *)
Lemma taken_listed (E : env) (m m1 : gmap path kind) (n : str) :
  (∀ k, k ≠ KDir → (m1 !! [n] = Some k ↔ m !! [n] = Some k)) →
  n ∈ listing E m1 ∧ is_listed_file E m1 n = true ↔ taken E m n.
Proof.
  intros Hsame. unfold listing, is_listed_file, taken.
  destruct (has_magic (target_dir E)); [tauto|].
  rewrite bool_decide_eq_true, (Hsame KFile) by done.
  destruct (listable E).
  - rewrite list_elem_of_filter, elem_of_listdir, <- (Hsame KFile) by done.
    destruct (hidden n); simpl; split.
    + by intros [[[] _] _].
    + by intros (_ & ? & _).
    + by intros [_ Hn].
    + intros (_ & _ & Hn). split; [|done]. split; [done|]. by rewrite Hn.
  - split; [by intros [?%elem_of_nil _]|by intros [? _]].
Qed.

(** What a run that raises nothing leaves: what is not a directory is the
    same, and the directories are those that were there, [images], and one
    [images/<stem>] for every dated name that the loop takes for a file;
    the line of each of them could be printed. *)
Lemma create_image_directories_spec (E : env) (w w' : world) :
  create_image_directories E w = (inr tt, w') →
  fs w !! [] = Some KDir
  ∧ (∀ p k, k ≠ KDir → (fs w' !! p = Some k ↔ fs w !! p = Some k))
  ∧ (∀ p, fs w' !! p = Some KDir ↔
          fs w !! p = Some KDir ∨ p = [images]
          ∨ ∃ n, taken E (fs w) n ∧ date_search (digits E) n = true
                 ∧ p = [splitext_root n; images])
  ∧ (∀ n, taken E (fs w) n → date_search (digits E) n = true →
          unprintable E [splitext_root n; images] = None).
Proof.
  unfold create_image_directories. unfold bind at 1. unfold isdir at 1.
  run_script. case_bool_decide as Hroot; simpl; [|done].
  rewrite makedirs_child by done.
  assert (∀ w1, fs w1 !! [images] = Some KDir →
            (∀ p k, fs w !! p = Some k → fs w1 !! p = Some k) →
            (∀ p, fs w !! p = None → is_Some (fs w1 !! p) → p = [images]) →
            for_each (listing E (fs w1)) (create_for E) w1 = (inr tt, w') →
            fs w !! [] = Some KDir
            ∧ (∀ p k, k ≠ KDir → (fs w' !! p = Some k ↔ fs w !! p = Some k))
            ∧ (∀ p, fs w' !! p = Some KDir ↔
                 fs w !! p = Some KDir ∨ p = [images]
                 ∨ ∃ n, taken E (fs w) n ∧ date_search (digits E) n = true
                        ∧ p = [splitext_root n; images])
            ∧ (∀ n, taken E (fs w) n → date_search (digits E) n = true →
                    unprintable E [splitext_root n; images] = None))
    as Hloop.
  { intros w1 Himages Hkeep Hnew Hrun.
    pose proof (for_each_grows E _ _ _ Himages Hrun) as [A B C].
    assert (∀ p k, k ≠ KDir → (fs w1 !! p = Some k ↔ fs w !! p = Some k))
      as Hsame1.
    { intros p k Hk. split; [|apply Hkeep]. intros Hp.
      destruct (fs w !! p) as [k'|] eqn:Hw.
      - apply Hkeep in Hw. congruence.
      - rewrite (Hnew p Hw) in Hp by by rewrite Hp. congruence. }
    assert (∀ n, n ∈ listing E (fs w1) ∧ is_listed_file E (fs w1) n = true
                 ↔ taken E (fs w) n) as Htaken.
    { intros n. apply taken_listed. intros k Hk. by apply Hsame1. }
    split_and!; [done| | |].
    - intros p k Hk. split.
      + intros Hp. apply Hsame1; [done|].
        destruct (fs w1 !! p) as [k'|] eqn:Hw1.
        * apply A in Hw1. congruence.
        * destruct (B p Hw1) as [Hdir _]; [by rewrite Hp|]. congruence.
      + intros Hp. by apply A, Hkeep.
    - intros p; split.
      + intros Hp. destruct (fs w !! p) as [k|] eqn:Hw.
        { left. apply Hkeep, A in Hw. congruence. }
        right. destruct (fs w1 !! p) as [k|] eqn:Hw1.
        { left. apply Hnew; [done|by rewrite Hw1]. }
        right. destruct (B p Hw1) as (_ & n & Hn & Hnfile & Hdate & ->);
          [by rewrite Hp|].
        exists n. split_and!; [by apply Htaken|done|done].
      + intros [Hp|[->|(n & Hn & Hdate & ->)]].
        * by apply A, Hkeep.
        * by apply A.
        * apply Htaken in Hn as [Hin Hfile]. by apply C.
    - intros n Hn Hdate. apply Htaken in Hn as [Hin Hfile]. by apply C. }
  destruct (fs w !! [images]) as [[]|] eqn:Himages; try done.
  - apply Hloop; [done|done|]. intros p Hp [k Hk]. congruence.
  - destruct (refused E [images]); [done|].
    apply (Hloop (World (<[[images] := KDir]> (fs w)) (out w))); simpl.
    + by rewrite lookup_insert_eq.
    + intros p k Hp. rewrite lookup_insert_ne; [done|congruence].
    + intros p Hp Hsome. destruct (decide ([images] = p)) as [<-|Hne]; [done|].
      rewrite lookup_insert_ne in Hsome by done. rewrite Hp in Hsome.
      by destruct Hsome.
Qed.

End DateFoldersFacts.

(** * The claims about [create_image_directories] *)

Import DateFolders DateFoldersShape DateFoldersFacts.

(** C8, the claim as stated fails: a hidden file with a date in its name is
    a file of the target directory whose name holds the token, yet the run,
    which raises nothing, creates no directory for it.  When a regular
    file named [images] is in the way the run raises [FileExistsError] and
    creates no directory for the dated file beside it.  And when the target
    directory is named [[d]], [glob] reads the name as a pattern, which
    the directory itself does not match: the run raises nothing and
    creates no directory for the dated file. *)
Lemma hidden_dated_file_gets_no_directory :
  fs hidden_dated_file !! [of_string ".2024-01-01.txt"] = Some KFile
  ∧ date_search ascii_digit (of_string ".2024-01-01.txt") = true
  ∧ splitext_root (of_string ".2024-01-01.txt") = of_string ".2024-01-01"
  ∧ (create_image_directories plain hidden_dated_file).1 = inr tt
  ∧ fs (create_image_directories plain hidden_dated_file).2
      !! [of_string ".2024-01-01"; images] = None
  ∧ fs dated_file_beside_images_file !! [of_string "2024-01-01.txt"]
    = Some KFile
  ∧ date_search ascii_digit (of_string "2024-01-01.txt") = true
  ∧ create_image_directories plain dated_file_beside_images_file
    = (inl FileExistsError, dated_file_beside_images_file)
  ∧ has_magic (target_dir bracketed) = true
  ∧ fs dated_file !! [of_string "a2024-01-01.b.txt"] = Some KFile
  ∧ date_search ascii_digit (of_string "a2024-01-01.b.txt") = true
  ∧ splitext_root (of_string "a2024-01-01.b.txt") = of_string "a2024-01-01.b"
  ∧ (create_image_directories bracketed dated_file).1 = inr tt
  ∧ fs (create_image_directories bracketed dated_file).2
      !! [of_string "a2024-01-01.b"; images] = None.
Proof. vm_compute. done. Qed.

(** C8, amended.  When the target path holds none of the characters that
    [glob] reads as a pattern, the entries of the target directory can be
    listed, and a run of [create_image_directories] raises nothing, the
    directories below the target afterwards are those that were there,
    [images], and [images/<name without extension>] for exactly the entries
    of the target directory that are files, are not hidden (their name does
    not start with a dot) and hold a date token in their name; nothing that
    is not a directory is added, removed or changed.  So an entry that is a
    directory gets no subdirectory even when its name holds the token, and
    neither does a file whose name holds none. *)
Theorem create_image_directories_creates_exactly :
  ∀ (E : env) (w w' : world),
    has_magic (target_dir E) = false →
    listable E = true →
    create_image_directories E w = (inr tt, w') →
    (∀ p k, k ≠ KDir → (fs w' !! p = Some k ↔ fs w !! p = Some k))
    ∧ (∀ p, fs w' !! p = Some KDir ↔
            fs w !! p = Some KDir ∨ p = [images]
            ∨ ∃ n, fs w !! [n] = Some KFile ∧ hidden n = false
                   ∧ date_search (digits E) n = true
                   ∧ p = [splitext_root n; images]).
Proof.
  intros E w w' Hliteral Hlistable Hrun.
  destruct (create_image_directories_spec E w w' Hrun)
    as (_ & Hsame & Hdirs & _).
  split; [done|]. intros p. rewrite Hdirs. unfold taken.
  rewrite Hliteral, Hlistable. split.
  - intros [?|[?|(n & (_ & ? & ?) & ? & ?)]]; [by left|by right; left|].
    right; right. by exists n.
  - intros [?|[?|(n & ? & ? & ? & ?)]]; [by left|by right; left|].
    right; right. by exists n.
Qed.

Lemma create_image_directories_creates_exactly_witness :
  (∀ p k, k ≠ KDir →
     (fs (create_image_directories plain dated_file).2 !! p = Some k
      ↔ fs dated_file !! p = Some k))
  ∧ (∀ p, fs (create_image_directories plain dated_file).2 !! p = Some KDir
          ↔ fs dated_file !! p = Some KDir ∨ p = [images]
            ∨ ∃ n, fs dated_file !! [n] = Some KFile ∧ hidden n = false
                   ∧ date_search (digits plain) n = true
                   ∧ p = [splitext_root n; images]).
Proof.
  apply (create_image_directories_creates_exactly plain dated_file
           (create_image_directories plain dated_file).2).
  - reflexivity.
  - reflexivity.
  - vm_compute. reflexivity.
Defined.

(** C7, the claim as stated fails: when the target directory holds a
    regular file named [images], the first run raises [FileExistsError] and
    changes nothing, and so does the second run on the same directory. *)
Lemma second_run_raises_when_images_is_file :
  fs images_is_file !! [] = Some KDir
  ∧ create_image_directories plain images_is_file
    = (inl FileExistsError, images_is_file)
  ∧ create_image_directories plain
      (create_image_directories plain images_is_file).2
    = (inl FileExistsError, images_is_file).
Proof. vm_compute. done. Qed.

(** C7, amended.  When the first run of [create_image_directories] on a
    target directory raises nothing, a second run on the directory as the
    first run left it, in the same surroundings, raises nothing either and
    leaves the file system as it was: it creates no directory, and the
    directories that exist cause no failure. *)
Theorem create_image_directories_idempotent :
  ∀ (E : env) (w w1 : world),
    create_image_directories E w = (inr tt, w1) →
    ∃ w2, create_image_directories E w1 = (inr tt, w2)
          ∧ fs w2 = fs w1.
Proof.
  intros E w w1 Hrun.
  destruct (create_image_directories_spec E w w1 Hrun)
    as (Hroot & Hsame & Hdirs & Hprint).
  assert (fs w1 !! [] = Some KDir) as Hroot1 by (apply Hdirs; auto).
  assert (fs w1 !! [images] = Some KDir) as Himages by (apply Hdirs; auto).
  unfold create_image_directories. unfold bind at 1. unfold isdir at 1.
  run_script. rewrite bool_decide_eq_true_2 by done. simpl.
  rewrite makedirs_child by done. rewrite Himages.
  destruct (for_each_settled E (listing E (fs w1)) w1)
    as [o Ho]; [done| |by eexists].
  intros n Hin Hfile Hdate.
  assert (taken E (fs w) n) as Htaken.
  { apply (taken_listed E (fs w) (fs w1)); [|done].
    intros k Hk. by apply Hsame. }
  split; [|by apply Hprint]. apply Hdirs. right; right. by exists n.
Qed.

Lemma create_image_directories_idempotent_witness :
  ∃ w2, create_image_directories plain
          (create_image_directories plain dated_file).2 = (inr tt, w2)
        ∧ fs w2 = fs (create_image_directories plain dated_file).2.
Proof.
  apply (create_image_directories_idempotent plain dated_file
           (create_image_directories plain dated_file).2).
  vm_compute. reflexivity.
Defined.

(** * [process_heic_images] *)

Module HeicFacts.
Import Heic HeicStages.

Ltac run_pipeline :=
  repeat progress
    (cbv beta iota delta
       [bind ret raise get modify when try_except
        emit glob_ext run_identify run_tool parse];
     simpl).

Lemma parse_identify_output_is_dict (text : str) :
  ∃ d, parse_identify_output text = Some (TDict d).
Proof.
  destruct (parse_identify_output_returns (λ _, True) text) as (d & Hd & _);
    eauto.
Qed.

Lemma exn_of_not_exit_error (f : failure) : exn_of f ≠ CalledProcessError.
Proof. by destruct f. Qed.

(** A fixed text is always printed. *)
Lemma print_fixed (E : env) (m : message) (w : world) :
  shows_data m = false →
  print E m w
  = (inr tt, World (target_isdir w) (files w) (log w ++ [Print m])).
Proof. intros Hm. unfold print, print_error. by rewrite Hm. Qed.

Lemma print_runs (E : env) (m : message) (w : world) :
  print E m w
  = ((printed E m).1,
     World (target_isdir w) (files w) (log w ++ (printed E m).2)).
Proof.
  unfold print, printed. destruct (print_error E m); run_pipeline; [|done].
  rewrite app_nil_r. by destruct w.
Qed.

(** A stage that prints, runs one tool and reports its outcome. *)
Lemma stage_runs (E : env) (m1 m2 m3 : message) (command : list str)
    (tool : gmap (list N) fcontent → (exn + unit) * gmap (list N) fcontent)
    (w : world) :
  shows_data m1 = false → shows_data m2 = false →
  (print E m1 ;;
   try_except (run_tool command tool ;; print E m2) CalledProcessError
     (print E m3)) w
  = stage E m1 m2 m3 command tool w.
Proof.
  intros H1 H2. unfold stage, after_stage, stage_end.
  unfold bind at 1. rewrite print_fixed by done.
  unfold try_except, run_tool. run_pipeline.
  destruct (tool (files w)) as [[e|[]] m]; simpl.
  - destruct (decide (e = CalledProcessError)); simpl.
    + rewrite print_runs. simpl. by rewrite <- !app_assoc.
    + by rewrite <- !app_assoc.
  - rewrite print_fixed by done. simpl. by rewrite <- !app_assoc.
Qed.

(** ** One iteration of stage 1 *)

Lemma write_json_runs (E : env) (name : str) (t : tree) (w : world) :
  write_json E name t w
  = match files w !! name with
    | Some Subdir => (inl IsADirectoryError, w)
    | _ =>
        match open_error E name with
        | Some e => (inl (exn_of e), w)
        | None =>
            match dump_error E t with
            | Some e =>
                (inl (exn_of e),
                 World (target_isdir w) (<[name := Truncated]> (files w))
                   (log w))
            | None =>
                (inr tt,
                 World (target_isdir w) (<[name := Json t]> (files w))
                   (log w ++ [Write name t]))
            end
        end
    end.
Proof.
  unfold write_json. run_pipeline.
  destruct (files w !! name) as [[]|]; try done;
    destruct (open_error E name); try done; by destruct (dump_error E t).
Qed.

Lemma extract_metadata_runs (E : env) (f : str) (w : world) :
  extract_metadata E f w = after_file E f w.
Proof.
  unfold extract_metadata, after_file, attempt.
  fold (metadata_file_of f). unfold bind at 1. unfold print at 1.
  destruct (print_error E (MsgCollecting f)); [done|].
  unfold try_except, bind, run_identify. run_pipeline.
  destruct (identify E f) as [e|stdout]; simpl.
  { destruct (decide (e = CalledProcessError)); simpl.
    - rewrite print_runs. simpl. by rewrite ?app_nil_r, <- ?app_assoc.
    - by rewrite ?app_nil_r, <- ?app_assoc. }
  destruct (parse_identify_output stdout) as [t|]; simpl;
    [|by rewrite ?app_nil_r, <- ?app_assoc].
  rewrite write_json_runs. simpl.
  destruct (files w !! metadata_file_of f) as [[]|];
    (try by rewrite ?app_nil_r, <- ?app_assoc);
    (destruct (open_error E (metadata_file_of f)) as [e1|]; simpl;
     [rewrite !decide_False by apply exn_of_not_exit_error;
      by rewrite ?app_nil_r, <- ?app_assoc|];
     destruct (dump_error E t) as [e2|]; simpl;
     [rewrite !decide_False by apply exn_of_not_exit_error;
      by rewrite ?app_nil_r, <- ?app_assoc|];
     rewrite print_runs; unfold printed;
     destruct (print_error E (MsgWritten (metadata_file_of f))) as [e3|];
     simpl;
     [rewrite !decide_False by apply exn_of_not_exit_error|];
     by rewrite ?app_nil_r, <- !app_assoc).
Qed.

(** What an attempt does to the entries and what it logs. *)
Lemma attempt_effects (E : env) (f : str) (m : gmap (list N) fcontent) :
  (∀ n, (∀ stdout, identify E f = inr stdout → metadata_file_of f ≠ n) →
        (attempt E f m).1.2 !! n = m !! n)
  ∧ (∀ n, is_Some (m !! n) → is_Some ((attempt E f m).1.2 !! n))
  ∧ (∀ n, (attempt E f m).1.2 !! n = Some Subdir → m !! n = Some Subdir)
  ∧ Run (identify_command f) ∈ (attempt E f m).2
  ∧ ((attempt E f m).1.1 = inl CalledProcessError →
     identify E f = inl CalledProcessError)
  ∧ (∀ e, identify E f = inl e →
          attempt E f m = (inl e, m, [Run (identify_command f)]))
  ∧ ((attempt E f m).1.1 = inr tt →
     ∃ stdout t, identify E f = inr stdout
                 ∧ parse_identify_output stdout = Some t
                 ∧ (attempt E f m).1.2 !! metadata_file_of f = Some (Json t)).
Proof.
  assert (∀ (x : fcontent) (n : list N),
            is_Some (m !! n) → is_Some (<[metadata_file_of f := x]> m !! n))
    as Hkeep.
  { intros x n Hn. destruct (decide (metadata_file_of f = n)) as [<-|Hne].
    - by rewrite lookup_insert_eq.
    - by rewrite lookup_insert_ne. }
  assert (∀ x : fcontent,
            x ≠ Subdir →
            ∀ n : list N,
              <[metadata_file_of f := x]> m !! n = Some Subdir →
              m !! n = Some Subdir) as Hsub.
  { intros x Hx n. destruct (decide (metadata_file_of f = n)) as [<-|Hne].
    - rewrite lookup_insert_eq. congruence.
    - by rewrite lookup_insert_ne. }
  unfold attempt. destruct (identify E f) as [e|stdout] eqn:Hid; simpl.
  { split_and!; try done; [left|congruence|by intros ? [= ->]]. }
  destruct (parse_identify_output stdout) as [t|] eqn:Ht; simpl.
  2:{ split_and!; try done. left. }
  assert (∀ x n,
            (∀ stdout0, @inr exn (list N) stdout = inr stdout0 →
                        metadata_file_of f ≠ n) →
            <[metadata_file_of f := x]> m !! n = m !! n) as Hframe.
  { intros x n Hn. apply lookup_insert_ne. by eapply Hn. }
  destruct (m !! metadata_file_of f) as [[]|] eqn:Hm; simpl;
    try (split_and!; try done; left);
    (destruct (open_error E (metadata_file_of f)) as [e1|]; simpl;
     [split_and!; try done; [left|by destruct e1]|]);
    (destruct (dump_error E t) as [e2|]; simpl;
     [split_and!; try done;
      [by apply Hframe|by apply Hkeep|by apply Hsub|left|by destruct e2]|]);
    (destruct (print_error E (MsgWritten (metadata_file_of f))) as [e3|];
     simpl;
     (split_and!; try done;
      [by apply Hframe|by apply Hkeep|by apply Hsub|left|..]);
     [by destruct e3|
      intros _; exists stdout, t; by rewrite lookup_insert_eq]).
Qed.

(** What an iteration does, however it ends. *)
Lemma after_file_effects (E : env) (f : str) (w : world) :
  target_isdir (after_file E f w).2 = target_isdir w
  ∧ (∃ evs, log (after_file E f w).2 = log w ++ evs
       ∧ ((after_file E f w).1 = inr tt →
          Run (identify_command f) ∈ evs
          ∧ (identify E f = inl CalledProcessError →
             Print (MsgErrCollect f) ∈ evs)))
  ∧ (∀ n, (∀ stdout, identify E f = inr stdout → metadata_file_of f ≠ n) →
          files (after_file E f w).2 !! n = files w !! n)
  ∧ (∀ n, is_Some (files w !! n) → is_Some (files (after_file E f w).2 !! n))
  ∧ (∀ n, files (after_file E f w).2 !! n = Some Subdir →
          files w !! n = Some Subdir)
  ∧ ((after_file E f w).1 = inr tt →
     (∀ e, identify E f = inl e → e = CalledProcessError)
     ∧ ∀ stdout, identify E f = inr stdout →
         ∃ t, parse_identify_output stdout = Some t
              ∧ files (after_file E f w).2 !! metadata_file_of f
                = Some (Json t)).
Proof.
  unfold after_file. destruct (print_error E (MsgCollecting f)); simpl.
  { split_and!; try done. exists []. by rewrite app_nil_r. }
  destruct (attempt_effects E f (files w))
    as (Hframe & Hkeep & Hsub & Hrun & Hexit & Hfailed & Hok).
  destruct (attempt E f (files w)) as [[r m'] evs]; simpl in *.
  destruct r as [e|[]]; simpl.
  - destruct (decide (e = CalledProcessError)) as [->|Hne]; simpl.
    + specialize (Hexit eq_refl). unfold printed.
      destruct (print_error E (MsgErrCollect f)); simpl.
      * split_and!; try done. by eexists.
      * split_and!; try done; [eexists; split; [done|]|].
        -- intros _. rewrite !elem_of_cons, !elem_of_app, elem_of_cons.
           split; [by right; left|]. intros _. right; right. by left.
        -- intros _. split; [congruence|]. intros stdout Hid. congruence.
    + split_and!; try done. by eexists.
  - destruct (Hok eq_refl) as (stdout & t & Hid & Ht & Hm).
    split_and!; try done; [eexists; split; [done|]|].
    + intros _. rewrite elem_of_cons, elem_of_app.
      split; [by right; left|]. congruence.
    + intros _. split; [congruence|]. intros stdout' Hid'.
      exists t. split; [congruence|done].
Qed.



(** ** The loop of stage 1 *)

Lemma stage1_cons (E : env) (f : str) (l : list str) (w : world) :
  for_each (f :: l) (extract_metadata E) w
  = match after_file E f w with
    | (inr _, w1) => for_each l (extract_metadata E) w1
    | (inl e, w1) => (inl e, w1)
    end.
Proof. cbn [for_each]. unfold bind. by rewrite extract_metadata_runs. Qed.


(** What stage 1 does to the world, however it ends. *)
Lemma stage1_effects (E : env) (l : list str) (w : world) :
  target_isdir (for_each l (extract_metadata E) w).2 = target_isdir w
  ∧ (∃ evs, log (for_each l (extract_metadata E) w).2 = log w ++ evs)
  ∧ (∀ n, (∀ f stdout, f ∈ l → identify E f = inr stdout →
                       metadata_file_of f ≠ n) →
          files (for_each l (extract_metadata E) w).2 !! n = files w !! n)
  ∧ (∀ n, is_Some (files w !! n) →
          is_Some (files (for_each l (extract_metadata E) w).2 !! n))
  ∧ (∀ n, files (for_each l (extract_metadata E) w).2 !! n = Some Subdir →
          files w !! n = Some Subdir).
Proof.
  revert w. induction l as [|f l IH]; intros w.
  { split_and!; try done. exists []. by rewrite app_nil_r. }
  rewrite stage1_cons.
  destruct (after_file_effects E f w)
    as (Hdir & (evs & Hlog & _) & Hframe & Hkeep & Hsub & _).
  destruct (after_file E f w) as [[e|[]] w1]; simpl in *.
  { split_and!; try done; [by eexists|].
    intros n Hn. apply Hframe. intros stdout. apply Hn. left. }
  destruct (IH w1) as (Hdir' & (evs' & Hlog') & Hframe' & Hkeep' & Hsub').
  split_and!.
  - congruence.
  - exists (evs ++ evs'). by rewrite Hlog', Hlog, <- app_assoc.
  - intros n Hn. rewrite Hframe'.
    + apply Hframe. intros stdout. apply Hn. left.
    + intros f' stdout Hf'. apply Hn. by right.
  - intros n Hn. by apply Hkeep', Hkeep.
  - intros n Hn. by apply Hsub, Hsub'.
Qed.


(** With the sidecar names of the list all different, the sidecar of a
    file holds what its own identification gave. *)
Lemma stage1_sidecars (E : env) (l : list str) (w w1 : world) :
  for_each l (extract_metadata E) w = (inr tt, w1) →
  NoDup (metadata_file_of <$> l) →
  ∀ f stdout, f ∈ l → identify E f = inr stdout →
    ∃ t, parse_identify_output stdout = Some t
         ∧ files w1 !! metadata_file_of f = Some (Json t).
Proof.
  revert w. induction l as [|f l IH]; intros w Hl Hnd f0 stdout Hf0 Hid.
  { by apply elem_of_nil in Hf0. }
  rewrite fmap_cons in Hnd. apply NoDup_cons in Hnd as [Hfresh Hnd].
  rewrite stage1_cons in Hl.
  destruct (after_file_effects E f w) as (_ & _ & _ & _ & _ & Hok).
  destruct (after_file E f w) as [[e|[]] w2]; simpl in *; [done|].
  apply elem_of_cons in Hf0 as [->|Hf0]; [|by eapply IH].
  destruct (Hok eq_refl) as [_ Hside].
  destruct (Hside stdout Hid) as (t & Ht & Hw2).
  exists t. split; [done|].
  destruct (stage1_effects E l w2) as (_ & _ & Hframe & _).
  rewrite Hl in Hframe. simpl in Hframe. rewrite Hframe; [done|].
  intros f' stdout' Hf' _ Heq. apply Hfresh. rewrite <- Heq.
  by apply list_elem_of_fmap_2.
Qed.

Lemma print_error_undisturbed (E : env) (m : message) :
  (∀ m, unprintable E m = None) → print_error E m = None.
Proof. intros H. unfold print_error. rewrite H. by destruct (shows_data m). Qed.

Lemma stage_end_undisturbed (E : env) (m2 m3 : message) (r : exn + unit) :
  (∀ m, unprintable E m = None) →
  only_exit_errors r →
  (stage_end E m2 m3 r).1 = inr tt.
Proof.
  intros Hp Hr. unfold stage_end. destruct r as [e|[]]; [|done].
  rewrite (Hr e eq_refl). rewrite decide_True by done.
  unfold printed. by rewrite print_error_undisturbed.
Qed.

(** An iteration that meets nothing it does not catch returns normally. *)
Lemma after_file_undisturbed (E : env) (f : str) (w : world) :
  stage1_undisturbed E →
  files w !! metadata_file_of f ≠ Some Subdir →
  (after_file E f w).1 = inr tt.
Proof.
  intros (Hid & Hopen & Hdump & Hprint) Hfree. unfold after_file, attempt.
  rewrite print_error_undisturbed by done. cbv zeta.
  destruct (identify E f) as [e|stdout] eqn:Hf; simpl.
  { rewrite (Hid f e Hf). rewrite decide_True by done.
    unfold printed. by rewrite print_error_undisturbed. }
  destruct (parse_identify_output_is_dict stdout) as [d ->].
  rewrite Hopen, Hdump, print_error_undisturbed by done.
  by destruct (files w !! metadata_file_of f) as [[]|].
Qed.

Lemma stage1_undisturbed_returns (E : env) (l : list str) (w : world) :
  stage1_undisturbed E →
  (∀ f, f ∈ l → files w !! metadata_file_of f ≠ Some Subdir) →
  ∃ w1, for_each l (extract_metadata E) w = (inr tt, w1).
Proof.
  intros HE. revert w. induction l as [|f l IH]; intros w Hfree.
  { by exists w. }
  rewrite stage1_cons.
  pose proof (after_file_undisturbed E f w HE (Hfree f ltac:(left))) as Hok.
  destruct (after_file_effects E f w) as (_ & _ & _ & _ & Hsub & _).
  destruct (after_file E f w) as [[e|[]] w2]; simpl in *; [done|].
  apply IH. intros f' Hf' Hd. apply (Hfree f'); [by right|]. by apply Hsub.
Qed.

(** ** The script, stage by stage *)

Lemma glob_result_literal (E : env) (ext : str) (m : gmap (list N) fcontent) :
  has_magic (target_path E) = false →
  listable E = true →
  glob_result E ext m = glob_names ext m.
Proof. intros Hm Hl. unfold glob_result. by rewrite Hm, Hl. Qed.

Lemma nonempty_true {A} (l : list A) : l ≠ [] → nonempty l = true.
Proof. by destruct l. Qed.

Lemma process_heic_images_stages (E : env) (w : world) :
  target_isdir w = true →
  process_heic_images E w
  = ((if nonempty (heic_paths_of E (files w))
      then for_each (heic_paths_of E (files w)) (extract_metadata E)
      else print E MsgNoHeic) ;;
     when (nonempty (heic_paths_of E (files w)))
       (stage E MsgConverting MsgConverted
          (MsgErrConvert (heic_paths_of E (files w)))
          (convert_command (heic_paths_of E (files w)))
          (mogrify_format E (heic_paths_of E (files w)))) ;;
     w2 <- get ;;
     when (nonempty (glob_result E (of_string ".jpg") (files w2)))
       (stage E MsgStripping MsgStripped
          (MsgErrStrip (glob_result E (of_string ".jpg") (files w2)))
          (strip_command (glob_result E (of_string ".jpg") (files w2)))
          (mogrify_strip E (glob_result E (of_string ".jpg") (files w2)))) ;;
     when (nonempty (heic_paths_of E (files w)))
       (stage E MsgDeleting MsgDeleted
          (MsgErrDelete (heic_paths_of E (files w)))
          (delete_command (heic_paths_of E (files w)))
          (rm_f E (heic_paths_of E (files w))))) w.
Proof.
  intros Hdir. unfold process_heic_images.
  cbv beta iota delta [bind get ret glob_ext]. rewrite Hdir.
  cbv beta iota delta [negb].
  change (glob_result E (of_string ".HEIC") (files w)
          ++ glob_result E (of_string ".heic") (files w))
    with (heic_paths_of E (files w)).
  cbv zeta. generalize (heic_paths_of E (files w)). intros hp.
  destruct (nonempty hp); cbn [negb when].
  - destruct (for_each hp (extract_metadata E) w) as [[e|[]] w1]; [done|].
    unfold convert. rewrite stage_runs by done.
    destruct (stage _ _ _ _ _ _ w1) as [[e|[]] w2]; [done|].
    destruct (nonempty (glob_result E (of_string ".jpg") (files w2)));
      cbn [when].
    + unfold strip_metadata. rewrite stage_runs by done.
      destruct (stage _ _ _ _ _ _ w2) as [[e|[]] w3]; [done|].
      unfold delete_originals. by rewrite stage_runs.
    + cbv beta iota delta [ret]. unfold delete_originals.
      by rewrite stage_runs.
  - destruct (print E MsgNoHeic w) as [[e|[]] w1]; [done|].
    cbv beta iota delta [ret].
    destruct (nonempty (glob_result E (of_string ".jpg") (files w1)));
      cbn [when]; [|done].
    unfold strip_metadata. rewrite stage_runs by done.
    by destruct (stage _ _ _ _ _ _ w1) as [[e|[]] w3].
Qed.





Lemma appends_print (E : env) (m : message) : appends (print E m).
Proof. intros w. rewrite print_runs. split; [done|by eexists]. Qed.


Lemma appends_stage1 (E : env) (l : list str) :
  appends (for_each l (extract_metadata E)).
Proof.
  intros w. destruct (stage1_effects E l w) as (Hd & Hl & _). by split.
Qed.


(** A stage that meets nothing it does not catch returns normally. *)
Lemma stage_undisturbed (E : env) (m1 m2 m3 : message) (command : list str)
    (tool : gmap (list N) fcontent → (exn + unit) * gmap (list N) fcontent)
    (w : world) :
  (∀ m, unprintable E m = None) →
  only_exit_errors (tool (files w)).1 →
  stage E m1 m2 m3 command tool w
  = (inr tt, after_stage E m1 m2 m3 command tool w).
Proof.
  intros Hp Hr. unfold stage. by rewrite stage_end_undisturbed.
Qed.

End HeicFacts.

(** * The claims about [process_heic_images] *)

Import Heic HeicStages HeicFacts.

(** C1.  The code departs from the claim on a directory without HEIC files
    that holds a JPG file, whenever the target path is taken literally and
    the directory can be listed: the script reports that no HEIC file was
    found and starts neither the conversion nor the deletion, but it does
    start the metadata-stripping command on the JPG file that was there,
    and the files of the directory are then what that command leaves.  The
    run ends as that stage ends: normally when the command succeeds, and
    also when it exits with an error and the report can be printed. *)
Theorem strip_runs_without_heic_files :
  ∀ E : env,
    has_magic (target_path E) = false →
    listable E = true →
    heic_paths_of E (files jpg_only) = []
    ∧ process_heic_images E jpg_only
      = ((stage_end E MsgStripped (MsgErrStrip [of_string "a.jpg"])
            (mogrify_strip E [of_string "a.jpg"] (files jpg_only)).1).1,
         World true
           (mogrify_strip E [of_string "a.jpg"] (files jpg_only)).2
           ([Print MsgNoHeic; Print MsgStripping;
             Run (strip_command [of_string "a.jpg"])]
            ++ (stage_end E MsgStripped (MsgErrStrip [of_string "a.jpg"])
                  (mogrify_strip E [of_string "a.jpg"] (files jpg_only)).1).2))
    ∧ ((mogrify_strip E [of_string "a.jpg"] (files jpg_only)).1 = inr tt →
       process_heic_images E jpg_only
       = (inr tt,
          World true
            (mogrify_strip E [of_string "a.jpg"] (files jpg_only)).2
            [Print MsgNoHeic; Print MsgStripping;
             Run (strip_command [of_string "a.jpg"]); Print MsgStripped]))
    ∧ ((mogrify_strip E [of_string "a.jpg"] (files jpg_only)).1
       = inl CalledProcessError →
       unprintable E (MsgErrStrip [of_string "a.jpg"]) = None →
       process_heic_images E jpg_only
       = (inr tt,
          World true
            (mogrify_strip E [of_string "a.jpg"] (files jpg_only)).2
            [Print MsgNoHeic; Print MsgStripping;
             Run (strip_command [of_string "a.jpg"]);
             Print (MsgErrStrip [of_string "a.jpg"])])).
Proof.
  intros E Hm Hl.
  assert (heic_paths_of E (files jpg_only) = []) as Hhp.
  { unfold heic_paths_of. rewrite !glob_result_literal by done.
    by vm_compute. }
  assert (glob_result E (of_string ".jpg") (files jpg_only)
          = [of_string "a.jpg"]) as Hjp.
  { rewrite glob_result_literal by done. by vm_compute. }
  assert (process_heic_images E jpg_only
      = ((stage_end E MsgStripped (MsgErrStrip [of_string "a.jpg"])
            (mogrify_strip E [of_string "a.jpg"] (files jpg_only)).1).1,
         World true
           (mogrify_strip E [of_string "a.jpg"] (files jpg_only)).2
           ([Print MsgNoHeic; Print MsgStripping;
             Run (strip_command [of_string "a.jpg"])]
            ++ (stage_end E MsgStripped (MsgErrStrip [of_string "a.jpg"])
                  (mogrify_strip E [of_string "a.jpg"] (files jpg_only)).1).2)))
    as Hrun.
  { rewrite process_heic_images_stages by done. rewrite Hhp.
    cbn [nonempty when]. unfold bind at 1. rewrite print_fixed by done.
    unfold bind at 1. cbv beta iota delta [ret]. unfold bind at 1, get.
    cbn [files]. rewrite Hjp. cbn [nonempty when]. unfold bind.
    unfold stage, after_stage. cbn [files log target_isdir jpg_only].
    by destruct (stage_end _ _ _ _) as [[e|[]] evs]. }
  split_and!; [done|done| |].
  - intros Hok. rewrite Hrun, Hok. done.
  - intros Hexit Hp. rewrite Hrun, Hexit. cbn [stage_end].
    rewrite decide_True by done. unfold printed, print_error.
    cbn [shows_data]. by rewrite Hp.
Qed.

Lemma strip_runs_without_heic_files_witness :
  heic_paths_of (calm identify_fails_on_a) (files jpg_only) = []
  ∧ process_heic_images (calm identify_fails_on_a) jpg_only
    = (inr tt,
       World true (files jpg_only)
         [Print MsgNoHeic; Print MsgStripping;
          Run (strip_command [of_string "a.jpg"]); Print MsgStripped]).
Proof.
  split.
  - apply (strip_runs_without_heic_files (calm identify_fails_on_a));
      reflexivity.
  - apply (proj1 (proj2 (proj2 (strip_runs_without_heic_files
                                  (calm identify_fails_on_a)
                                  eq_refl eq_refl)))).
    reflexivity.
Defined.




(** * Further properties of [process_heic_images] *)

Module HeicMore.
Import Heic HeicFacts HeicStages.

(** X1.  [process_heic_images] raises nothing when it meets nothing that
    it does not catch: every identification and every tool ends normally
    or exits with an error, no sidecar name is taken by a directory, every
    sidecar can be written and every line printed.  It then leaves the
    target a directory and only adds to what was printed and run before.
    On a target that is not a directory it prints the error message, if
    that can be printed, and does nothing else. *)
Theorem process_heic_images_returns_when_undisturbed :
  ∀ E : env,
    (∀ w : world,
       stage1_undisturbed E →
       tools_undisturbed E →
       (∀ f, f ∈ heic_paths_of E (files w) →
             files w !! metadata_file_of f ≠ Some Subdir) →
       (process_heic_images E w).1 = inr tt
       ∧ target_isdir (process_heic_images E w).2 = target_isdir w
       ∧ ∃ evs, log (process_heic_images E w).2 = log w ++ evs)
    ∧ (∀ m l,
         unprintable E MsgNotDirectory = None →
         process_heic_images E (World false m l)
         = (inr tt, World false m (l ++ [Print MsgNotDirectory]))).
Proof.
  intros E. split.
  2:{ intros m l Hp. unfold process_heic_images.
      cbv beta iota delta [bind get]. cbn [target_isdir negb].
      unfold print, print_error. cbn [shows_data]. by rewrite Hp. }
  intros w HE (Hconv & Hstrip & Hdel) Hfree.
  pose proof HE as (_ & _ & _ & Hprint).
  destruct (target_isdir w) eqn:Hdir.
  2:{ unfold process_heic_images. cbv beta iota delta [bind get].
      rewrite Hdir. cbn [negb]. rewrite print_runs. unfold printed.
      rewrite print_error_undisturbed by done. cbn [fst snd log target_isdir].
      split_and!; [done|done|by eexists]. }
  cut (∃ w', process_heic_images E w = (inr tt, w')
             ∧ target_isdir w' = true ∧ ∃ evs, log w' = log w ++ evs).
  { intros (w' & -> & ? & ?). by split_and!. }
  rewrite process_heic_images_stages by done.
  assert (∃ w1,
    (if nonempty (heic_paths_of E (files w))
     then for_each (heic_paths_of E (files w)) (extract_metadata E)
     else print E MsgNoHeic) w = (inr tt, w1)
    ∧ target_isdir w1 = true ∧ ∃ evs, log w1 = log w ++ evs)
    as (w1 & Hw1 & Hdir1 & evs1 & Hlog1).
  { destruct (nonempty (heic_paths_of E (files w))).
    - destruct (stage1_undisturbed_returns E _ w HE Hfree) as [w1 Hw1].
      destruct (appends_stage1 E (heic_paths_of E (files w)) w) as [Hd Hl].
      rewrite Hw1 in Hd, Hl. simpl in Hd, Hl. exists w1.
      split; [done|]. split; [congruence|done].
    - rewrite print_fixed by done. eexists. split; [done|].
      split; [done|by eexists]. }
  unfold bind at 1. rewrite Hw1.
  unfold bind, get.
  destruct (nonempty (heic_paths_of E (files w))); cbn [when];
    rewrite ?stage_undisturbed by first [done|apply Hconv|apply Hstrip|apply Hdel]; cbv beta iota delta [ret];
    match goal with |- context [nonempty (glob_result E ?e ?m)] =>
      destruct (nonempty (glob_result E e m)) end;
    cbn [when]; rewrite ?stage_undisturbed by first [done|apply Hconv|apply Hstrip|apply Hdel];
    cbv beta iota delta [ret]; rewrite ?stage_undisturbed by first [done|apply Hconv|apply Hstrip|apply Hdel];
    (eexists; split; [done|]);
    cbn [fst snd after_stage target_isdir log]; rewrite Hlog1;
    (split; [done|]); rewrite <- ?app_assoc; by eexists.
Qed.

Lemma process_heic_images_returns_when_undisturbed_witness :
  (process_heic_images (calm identify_fails_on_a) two_heic).1 = inr tt
  ∧ process_heic_images (calm identify_fails_on_a) (World false ∅ [])
    = (inr tt, World false ∅ [Print MsgNotDirectory]).
Proof.
  split.
  - apply (proj1 (process_heic_images_returns_when_undisturbed
                    (calm identify_fails_on_a)) two_heic).
    + by split_and!; [intros f e; unfold calm, identify_fails_on_a; simpl;
                      case_decide; intros [= <-]|..].
    + by split_and!; intros l m e [= <-].
    + intros f Hf. vm_compute in Hf.
      repeat (apply elem_of_cons in Hf as [->|Hf]; [by vm_compute|]).
      by apply elem_of_nil in Hf.
  - apply (proj2 (process_heic_images_returns_when_undisturbed
                    (calm identify_fails_on_a)) ∅ []).
    reflexivity.
Defined.

(** The premise on the sidecar names is needed: a directory where the
    sidecar file would be ends the run at that file. *)
Lemma sidecar_directory_stops_pipeline :
  process_heic_images (calm identify_ok) sidecar_is_directory
  = (inl IsADirectoryError,
     World true (files sidecar_is_directory)
       [Print (MsgCollecting (of_string "a.HEIC"));
        Run (identify_command (of_string "a.HEIC"))]).
Proof. by vm_compute. Qed.



(** X3.  When HEIC files were matched and stage 1 raised nothing, the
    removal command for all of them is the last thing the script runs,
    after the conversion stage and the optional stripping stage, whether
    their commands succeeded or exited with an error (the tools end in one
    of these two ways and every line can be printed): the originals are
    removed also when the conversion failed. *)
Theorem originals_deleted_whatever_conversion_did :
  ∀ (E : env) (w w1 : world),
    target_isdir w = true →
    heic_paths_of E (files w) ≠ [] →
    for_each (heic_paths_of E (files w)) (extract_metadata E) w
    = (inr tt, w1) →
    tools_undisturbed E →
    (∀ m, unprintable E m = None) →
    ∃ w2 w3,
      w2 = after_stage E MsgConverting MsgConverted
             (MsgErrConvert (heic_paths_of E (files w)))
             (convert_command (heic_paths_of E (files w)))
             (mogrify_format E (heic_paths_of E (files w))) w1
      ∧ (w3 = w2
         ∨ w3 = after_stage E MsgStripping MsgStripped
                  (MsgErrStrip (glob_result E (of_string ".jpg") (files w2)))
                  (strip_command (glob_result E (of_string ".jpg") (files w2)))
                  (mogrify_strip E
                     (glob_result E (of_string ".jpg") (files w2)))
                  w2)
      ∧ process_heic_images E w
        = (inr tt,
           after_stage E MsgDeleting MsgDeleted
             (MsgErrDelete (heic_paths_of E (files w)))
             (delete_command (heic_paths_of E (files w)))
             (rm_f E (heic_paths_of E (files w))) w3).
Proof.
  intros E w w1 Hdir Hne Hrun (Hconv & Hstrip & Hdel) Hprint.
  rewrite process_heic_images_stages by done.
  rewrite (nonempty_true _ Hne). unfold bind at 1. rewrite Hrun.
  cbn [when]. unfold bind, get. rewrite stage_undisturbed by first [done|apply Hconv|apply Hstrip|apply Hdel].
  eexists. 
  match goal with |- context [nonempty (glob_result E ?e ?m)] =>
    destruct (nonempty (glob_result E e m)) end; cbn [when].
  - rewrite stage_undisturbed by first [done|apply Hconv|apply Hstrip|apply Hdel]. rewrite stage_undisturbed by first [done|apply Hconv|apply Hstrip|apply Hdel].
    eexists. split_and!; [done|by right|done].
  - cbv beta iota delta [ret]. rewrite stage_undisturbed by first [done|apply Hconv|apply Hstrip|apply Hdel].
    eexists. split_and!; [done|by left|done].
Qed.

Lemma originals_deleted_whatever_conversion_did_witness :
  ∃ w2 w3,
    w2 = after_stage conversion_fails MsgConverting MsgConverted
           (MsgErrConvert (heic_paths_of conversion_fails (files two_heic)))
           (convert_command (heic_paths_of conversion_fails (files two_heic)))
           (mogrify_format conversion_fails
              (heic_paths_of conversion_fails (files two_heic)))
           (for_each (heic_paths_of conversion_fails (files two_heic))
              (extract_metadata conversion_fails) two_heic).2
    ∧ (w3 = w2
       ∨ w3 = after_stage conversion_fails MsgStripping MsgStripped
                (MsgErrStrip
                   (glob_result conversion_fails (of_string ".jpg") (files w2)))
                (strip_command
                   (glob_result conversion_fails (of_string ".jpg") (files w2)))
                (mogrify_strip conversion_fails
                   (glob_result conversion_fails (of_string ".jpg") (files w2)))
                w2)
    ∧ process_heic_images conversion_fails two_heic
      = (inr tt,
         after_stage conversion_fails MsgDeleting MsgDeleted
           (MsgErrDelete (heic_paths_of conversion_fails (files two_heic)))
           (delete_command (heic_paths_of conversion_fails (files two_heic)))
           (rm_f conversion_fails
              (heic_paths_of conversion_fails (files two_heic))) w3).
Proof.
  apply (originals_deleted_whatever_conversion_did conversion_fails two_heic
           (for_each (heic_paths_of conversion_fails (files two_heic))
              (extract_metadata conversion_fails) two_heic).2).
  - reflexivity.
  - by vm_compute.
  - by vm_compute.
  - by split_and!; intros l m e [= <-].
  - done.
Defined.

(** X4.  Stage 1 writes sidecar files and nothing else: a file whose name
    is not the sidecar name of a file whose identification succeeded is as
    it was, however the stage ends.  When the stage raises nothing and no
    two files of the list share a sidecar name, the sidecar of every file
    whose identification succeeded holds the tree that
    [parse_identify_output] returns on the output of that
    identification. *)
Theorem stage1_writes_the_sidecars :
  ∀ (E : env) (l : list str) (w : world),
    (∀ n : str,
       (∀ f stdout, f ∈ l → identify E f = inr stdout →
                    metadata_file_of f ≠ n) →
       files (for_each l (extract_metadata E) w).2 !! n = files w !! n)
    ∧ (∀ w1 : world,
         for_each l (extract_metadata E) w = (inr tt, w1) →
         NoDup (metadata_file_of <$> l) →
         ∀ f stdout, f ∈ l → identify E f = inr stdout →
           ∃ t, parse_identify_output stdout = Some t
                ∧ files w1 !! metadata_file_of f = Some (Json t)).
Proof.
  intros E l w. split.
  - apply stage1_effects.
  - intros w1. apply stage1_sidecars.
Qed.

Lemma stage1_writes_the_sidecars_witness :
  ∃ t, parse_identify_output (txt ["Format: HEIC"]%string) = Some t
       ∧ files (for_each [of_string "a.HEIC"; of_string "b.heic"]
                  (extract_metadata (calm identify_fails_on_a)) two_heic).2
           !! metadata_file_of (of_string "b.heic") = Some (Json t).
Proof.
  apply (proj2 (stage1_writes_the_sidecars (calm identify_fails_on_a)
                  [of_string "a.HEIC"; of_string "b.heic"] two_heic)
           (for_each [of_string "a.HEIC"; of_string "b.heic"]
              (extract_metadata (calm identify_fails_on_a)) two_heic).2).
  - by vm_compute.
  - apply (bool_decide_unpack _). vm_compute. exact I.
  - apply (bool_decide_unpack _). vm_compute. exact I.
  - reflexivity.
Defined.

End HeicMore.
(** * Further properties of [create_image_directories] *)

Module DateFoldersMore.
Import DateFolders DateFoldersFacts DateFoldersShape.

Lemma only_adds_refl (m : gmap (list (list N)) kind) :
  only_adds_directories m m.
Proof. split; [done|]. intros p Hp [k Hk]. congruence. Qed.

Lemma only_adds_trans (m1 m2 m3 : gmap (list (list N)) kind) :
  only_adds_directories m1 m2 → only_adds_directories m2 m3 →
  only_adds_directories m1 m3.
Proof.
  intros [A1 B1] [A2 B2]. split; [eauto|].
  intros p Hp Hsome. destruct (m2 !! p) as [k|] eqn:Hp2.
  - destruct (B1 p Hp) as [Hk Hshape]; [by rewrite Hp2|].
    split; [apply A2; congruence|done].
  - by apply B2.
Qed.

Lemma only_adds_insert (m : gmap (list (list N)) kind) (p : list (list N)) :
  m !! p = None → (p = [images] ∨ ∃ d, p = [d; images]) →
  only_adds_directories m (<[p := KDir]> m).
Proof.
  intros Hp Hshape. split.
  - intros q k Hq. rewrite lookup_insert_ne; [done|congruence].
  - intros q Hq Hsome. destruct (decide (p = q)) as [<-|Hne].
    + by rewrite lookup_insert_eq.
    + rewrite lookup_insert_ne in Hsome by done. rewrite Hq in Hsome.
      by destruct Hsome.
Qed.

Section LoopOutcome.
Variable E : env.

(** [makedirs] of a child of a directory, whatever the outcome. *)
Lemma makedirs_child_outcome (n : str) (head : list (list N)) (w : world) :
  fs w !! head = Some KDir →
  (n :: head = [images] ∨ ∃ d, n :: head = [d; images]) →
  ((makedirs E (n :: head) w).1 = inr tt →
   fs (makedirs E (n :: head) w).2 !! (n :: head) = Some KDir)
  ∧ only_adds_directories (fs w) (fs (makedirs E (n :: head) w).2)
  ∧ out (makedirs E (n :: head) w).2 = out w.
Proof.
  intros Hhead Hshape. rewrite makedirs_child by done.
  destruct (fs w !! (n :: head)) as [[]|] eqn:Hp; simpl;
    try (split_and!; [done|apply only_adds_refl|done]).
  destruct (refused E (n :: head)); simpl.
  - split_and!; [done|apply only_adds_refl|done].
  - split_and!; [by rewrite lookup_insert_eq| |done].
    by apply only_adds_insert.
Qed.

Lemma create_for_adds (n : str) (w : world) :
  fs w !! [images] = Some KDir →
  only_adds_directories (fs w) (fs (create_for E n w).2).
Proof.
  intros Himages. unfold create_for. run_script.
  destruct (is_listed_file E (fs w) n); simpl; [|apply only_adds_refl].
  destruct (date_search (digits E) n); simpl; [|apply only_adds_refl].
  destruct (makedirs_child_outcome (splitext_root n) [images] w Himages)
    as (_ & Hadds & _); [by eauto|].
  unfold bind.
  destruct (makedirs E [splitext_root n; images] w) as [[e|[]] w2];
    simpl in *; [done|].
  unfold print. by destruct (unprintable E [splitext_root n; images]).
Qed.

Lemma for_each_adds (files : list str) (w : world) :
  fs w !! [images] = Some KDir →
  only_adds_directories (fs w) (fs (for_each files (create_for E) w).2).
Proof.
  revert w. induction files as [|n files IH]; intros w Himages.
  { apply only_adds_refl. }
  cbn [for_each]. unfold bind.
  pose proof (create_for_adds n w Himages) as Hadds.
  destruct (create_for E n w) as [[e|[]] w2]; simpl in *; [done|].
  eapply only_adds_trans; [done|]. apply IH. by apply (proj1 Hadds).
Qed.

Lemma free_or_dir_grows (F : list str) (m m' : gmap (list (list N)) kind)
    (p : list (list N)) :
  grows E F m m' → free_or_dir (m !! p) → free_or_dir (m' !! p).
Proof.
  intros [A B _] [Hfree|Hdir]; [|right; by apply A].
  destruct (m' !! p) as [k|] eqn:Hp; [|by left].
  right. destruct (B p Hfree) as [Hk _]; [by rewrite Hp|]. congruence.
Qed.

(** The loop raises nothing when nothing is in the way of the directories
    to make, none of them is refused and each line can be printed. *)
Lemma for_each_succeeds (files : list str) (w : world) :
  fs w !! [images] = Some KDir →
  (∀ n, n ∈ files → is_listed_file E (fs w) n = true →
        date_search (digits E) n = true →
        free_or_dir (fs w !! [splitext_root n; images])
        ∧ refused E [splitext_root n; images] = None
        ∧ unprintable E [splitext_root n; images] = None) →
  (for_each files (create_for E) w).1 = inr tt.
Proof.
  revert w. induction files as [|n files IH]; intros w Himages Hfree; [done|].
  cbn [for_each]. unfold bind at 1.
  destruct (create_for E n w) as [[e|[]] w2] eqn:Hn.
  - exfalso. revert Hn. unfold create_for. run_script.
    destruct (is_listed_file E (fs w) n) eqn:Hfile; simpl; [|done].
    destruct (date_search (digits E) n) eqn:Hdate; simpl; [|done].
    destruct (Hfree n) as ([Hnone|Hdir] & Hrefused & Hprint);
      [left|done|done| |]; unfold bind; rewrite makedirs_child by done;
      unfold print; rewrite ?Hnone, ?Hdir, ?Hrefused, ?Hprint; done.
  - pose proof (create_for_grows E n w w2 Himages Hn) as Hg.
    apply IH; [by apply (grows_keeps _ _ _ _ Hg)|].
    intros n' Hn' Hfile Hdate.
    rewrite (grows_listed E _ _ _ n' Hg) in Hfile.
    destruct (Hfree n') as (Hfr & Hrefused & Hprint); [by right|done|done|].
    split_and!; [by eapply free_or_dir_grows|done|done].
Qed.

(** Where nothing is refused and every line can be printed, the loop ends
    normally or with [FileExistsError]. *)
Lemma for_each_outcome (files : list str) (w : world) :
  (∀ p, refused E p = None) → (∀ p, unprintable E p = None) →
  fs w !! [images] = Some KDir →
  (for_each files (create_for E) w).1 = inr tt
  ∨ (for_each files (create_for E) w).1 = inl FileExistsError.
Proof.
  intros Hrefused Hprint. revert w.
  induction files as [|n files IH]; intros w Himages; [by left|].
  cbn [for_each]. unfold bind.
  destruct (create_for E n w) as [[e|[]] w2] eqn:Hn.
  - right. simpl. revert Hn. unfold create_for. run_script.
    destruct (is_listed_file E (fs w) n); simpl; [|done].
    destruct (date_search (digits E) n); simpl; [|done].
    unfold bind. rewrite makedirs_child by done. unfold print.
    rewrite Hrefused, Hprint.
    destruct (fs w !! [splitext_root n; images]) as [[]|]; run_script;
      intros ?; by simplify_eq.
  - apply IH.
    by apply (grows_keeps _ _ _ _ (create_for_grows E n w w2 Himages Hn)).
Qed.
End LoopOutcome.

(** X6.  Whatever a run of [create_image_directories] does, in whatever
    surroundings and also when it raises, it removes and changes nothing
    that was below the target directory, and everything it adds is a
    directory: [images] itself or a child of [images]. *)
Theorem create_image_directories_only_adds_directories :
  ∀ (E : env) (w : world),
    only_adds_directories (fs w) (fs (create_image_directories E w).2).
Proof.
  intros E w. unfold create_image_directories. run_script.
  case_bool_decide as Hroot; simpl; [|apply only_adds_refl].
  destruct (makedirs_child_outcome E images [] w Hroot)
    as (Himages & Hadds & _); [by left|].
  destruct (makedirs E [images] w) as [[e|[]] w1]; simpl in *; [done|].
  eapply only_adds_trans; [done|]. apply for_each_adds. by apply Himages.
Qed.

(** X7.  [create_image_directories] on a target that is not a directory
    raises [NotADirectoryError] and does nothing else, in whatever
    surroundings.  Where the target path is taken literally, the target
    can be listed, no directory is refused and every line can be printed,
    it raises [NotADirectoryError] exactly when the target is not a
    directory, and it raises nothing exactly when the target is a
    directory, [images] is free or a directory, and so is
    [images/<name without extension>] for every dated file that is
    listed; a FIFO or a dangling link in the way makes it raise as a
    regular file does. *)
Theorem create_image_directories_raises_exactly_when :
  ∀ (E : env) (w : world),
    (fs w !! [] ≠ Some KDir →
     create_image_directories E w = (inl NotADirectoryError, w))
    ∧ (undisturbed E →
       ((create_image_directories E w).1 = inl NotADirectoryError
        ↔ fs w !! [] ≠ Some KDir)
       ∧ ((create_image_directories E w).1 = inr tt
          ↔ fs w !! [] = Some KDir
            ∧ free_or_dir (fs w !! [images])
            ∧ ∀ n, dated (digits E) (fs w) n →
                   free_or_dir (fs w !! [splitext_root n; images]))).
Proof.
  intros E w. split.
  { intros Hroot. unfold create_image_directories. run_script.
    by rewrite bool_decide_eq_false_2. }
  intros (Hliteral & Hlistable & Hrefused & Hprint). split.
  - unfold create_image_directories. run_script.
    case_bool_decide as Hroot; simpl; [|done]. split; [|done].
    rewrite makedirs_child by done. rewrite Hrefused.
    destruct (fs w !! [images]) as [[]|] eqn:Himages; simpl; try done.
    + destruct (for_each_outcome E (listing E (fs w)) w Hrefused Hprint
                  Himages) as [Hres|Hres]; by rewrite Hres.
    + match goal with |- context [for_each ?l _ ?w1] =>
        destruct (for_each_outcome E l w1 Hrefused Hprint) as [Hres|Hres]
      end; [by apply lookup_insert_eq|by rewrite Hres..].
  - split.
    + intros Hrun.
      destruct (create_image_directories E w) as [r w'] eqn:Hw.
      simpl in Hrun. subst r.
      destruct (create_image_directories_spec E w w' Hw)
        as (Hroot & Hsame & Hdirs & _).
      assert (∀ p, fs w' !! p = Some KDir → free_or_dir (fs w !! p))
        as Hfree.
      { intros p Hp. destruct (fs w !! p) as [k|] eqn:Hk; [|by left].
        right. destruct (decide (k = KDir)) as [->|Hne]; [done|].
        apply (Hsame p k Hne) in Hk. congruence. }
      split_and!; [done| |].
      * apply Hfree, Hdirs. auto.
      * intros n (Hn & Hvisible & Hdate). apply Hfree, Hdirs.
        right; right. exists n. split; [|done]. unfold taken.
        by rewrite Hliteral.
    + intros (Hroot & Himages & Hfree).
      unfold create_image_directories. run_script.
      rewrite bool_decide_eq_true_2 by done. simpl.
      rewrite makedirs_child by done. rewrite Hrefused.
      assert (∀ m n, is_listed_file E m n = true → m !! [n] = Some KFile)
        as Hfile_of.
      { intros m n. unfold is_listed_file. rewrite Hliteral.
        by intros ?%bool_decide_eq_true. }
      assert (∀ m n, n ∈ listing E m → hidden n = false) as Hvisible_of.
      { intros m n. unfold listing. rewrite Hliteral, Hlistable.
        intros [? _]%list_elem_of_filter. by destruct (hidden n). }
      destruct Himages as [Hi|Hi]; rewrite Hi;
        apply for_each_succeeds; simpl; try done.
      * by apply lookup_insert_eq.
      * intros n Hin Hfile Hdate. apply Hfile_of in Hfile.
        apply Hvisible_of in Hin.
        assert (fs w !! [n] = Some KFile) as Hfile0.
        { destruct (decide ([images] = [n])) as [Heq|Hne].
          - rewrite <- Heq, lookup_insert_eq in Hfile. congruence.
          - by rewrite lookup_insert_ne in Hfile. }
        rewrite lookup_insert_ne by congruence.
        split_and!; [|done|done]. by apply Hfree.
      * intros n Hin Hfile Hdate. apply Hfile_of in Hfile.
        apply Hvisible_of in Hin. split_and!; [|done|done]. by apply Hfree.
Qed.

Lemma create_image_directories_raises_exactly_when_witness :
  create_image_directories bracketed target_is_file
  = (inl NotADirectoryError, target_is_file)
  ∧ ((create_image_directories plain images_is_fifo).1
     = inl NotADirectoryError
     ↔ fs images_is_fifo !! [] ≠ Some KDir)
  ∧ ((create_image_directories plain images_is_fifo).1 = inr tt
     ↔ fs images_is_fifo !! [] = Some KDir
       ∧ free_or_dir (fs images_is_fifo !! [images])
       ∧ ∀ n, dated (digits plain) (fs images_is_fifo) n →
              free_or_dir (fs images_is_fifo !! [splitext_root n; images])).
Proof.
  split.
  - apply (proj1 (create_image_directories_raises_exactly_when
                    bracketed target_is_file)).
    vm_compute. discriminate.
  - apply (proj2 (create_image_directories_raises_exactly_when
                    plain images_is_fifo)).
    by split_and!.
Defined.

(** ** What is printed *)

Lemma NoDup_listdir (m : gmap (list (list N)) kind) (dir : list (list N)) :
  NoDup (listdir m dir).
Proof.
  unfold listdir.
  assert (NoDup ((map_to_list m).*1)) as Hnd by apply NoDup_fst_map_to_list.
  induction (map_to_list m) as [|[p k] l IH]; simpl; [constructor|].
  rewrite fmap_cons in Hnd. apply NoDup_cons in Hnd as [Hp Hnd].
  destruct p as [|n d]; simpl; [by apply IH|].
  case_decide as Hd; [|by apply IH]. subst d.
  apply NoDup_cons. split; [|by apply IH].
  rewrite list_elem_of_omap. intros ([p' k'] & Hin & Hn). simpl in Hn.
  destruct p' as [|n' d']; [done|]. case_decide; [|done].
  injection Hn as ->. subst d'. apply Hp.
  apply list_elem_of_fmap. by exists (n :: dir, k').
Qed.

Section Printed.
Variable E : env.

Lemma for_each_prints (files : list str) (w w' : world) :
  fs w !! [images] = Some KDir →
  for_each files (create_for E) w = (inr tt, w') →
  out w'
  = out w ++ ((λ n, [splitext_root n; images])
              <$> filter (λ n, is_listed_file E (fs w) n = true
                               ∧ date_search (digits E) n = true) files).
Proof.
  revert w. induction files as [|n files IH]; intros w Himages.
  { intros [= <-]. simpl. by rewrite app_nil_r. }
  cbn [for_each]. unfold bind at 1.
  destruct (create_for E n w) as [[e|[]] w2] eqn:Hn; [done|].
  intros Hrest.
  pose proof (create_for_grows E n w w2 Himages Hn) as Hg.
  rewrite (IH w2 (grows_keeps _ _ _ _ Hg _ _ Himages) Hrest).
  rewrite (list_filter_iff
             (λ n, is_listed_file E (fs w2) n = true
                   ∧ date_search (digits E) n = true)
             (λ n, is_listed_file E (fs w) n = true
                   ∧ date_search (digits E) n = true)).
  2:{ intros n'. by rewrite (grows_listed E _ _ _ n' Hg). }
  revert Hn. unfold create_for. run_script.
  destruct (is_listed_file E (fs w) n) eqn:Hfile; simpl.
  2:{ intros [= <-]. rewrite filter_cons_False; [done|].
      intros [? _]. congruence. }
  destruct (date_search (digits E) n) eqn:Hdate; simpl.
  2:{ intros [= <-]. rewrite filter_cons_False; [done|].
      intros [_ ?]. congruence. }
  unfold bind. rewrite makedirs_child by done.
  rewrite filter_cons_True by done. rewrite fmap_cons. unfold print.
  destruct (fs w !! [splitext_root n; images]) as [[]|]; simpl; try done;
    try destruct (refused E [splitext_root n; images]); try done;
    destruct (unprintable E [splitext_root n; images]); run_script;
    try done; intros [= <-]; simpl; by rewrite <- app_assoc.
Qed.
End Printed.

(** X8.  A run of [create_image_directories] that raises nothing prints
    one line for every dated file that is listed, naming its directory
    [images/<name without extension>], and nothing else, whether the
    directory was made by this run or was already there.  Where the
    target path is taken literally, these are the dated files of the
    target directory that [glob] lists, each reported once (none when the
    directory cannot be listed); where [glob] reads the target path as a
    pattern, they are the dated ones among the regular files that it
    returns, in its order. *)
Theorem create_image_directories_reports_each_dated_file :
  ∀ (E : env) (w w' : world),
    create_image_directories E w = (inr tt, w') →
    ∃ files : list str,
      out w' = out w ++ ((λ n, [splitext_root n; images]) <$> files)
      ∧ if has_magic (target_dir E)
        then files = filter (λ n, date_search (digits E) n = true) (matched E)
        else NoDup files
             ∧ ∀ n, n ∈ files
                    ↔ listable E = true ∧ dated (digits E) (fs w) n.
Proof.
  intros E w w'. unfold create_image_directories. run_script.
  case_bool_decide as Hroot; simpl; [|done].
  rewrite makedirs_child by done.
  assert (∀ w1, fs w1 !! [images] = Some KDir → out w1 = out w →
            (∀ n k, k ≠ KDir → (fs w1 !! [n] = Some k ↔ fs w !! [n] = Some k)) →
            for_each (listing E (fs w1)) (create_for E) w1 = (inr tt, w') →
            ∃ files : list str,
              out w' = out w ++ ((λ n, [splitext_root n; images]) <$> files)
              ∧ if has_magic (target_dir E)
                then files = filter (λ n, date_search (digits E) n = true)
                               (matched E)
                else NoDup files
                     ∧ ∀ n, n ∈ files
                            ↔ listable E = true ∧ dated (digits E) (fs w) n)
    as Hloop.
  { intros w1 Himages Hout Hsame Hrun. eexists. split.
    { rewrite <- Hout. by apply for_each_prints. }
    pose proof (λ n, taken_listed E (fs w) (fs w1) n (Hsame n)) as Htaken.
    unfold taken in Htaken. unfold listing in *. unfold is_listed_file in *.
    destruct (has_magic (target_dir E)).
    - apply list_filter_iff. intros n. tauto.
    - split.
      + apply NoDup_filter. destruct (listable E); [|constructor].
        apply NoDup_filter, NoDup_listdir.
      + intros n. rewrite list_elem_of_filter. unfold dated.
        specialize (Htaken n). tauto. }
  destruct (fs w !! [images]) as [[]|] eqn:Himages; try done.
  - by apply Hloop.
  - destruct (refused E [images]); [done|].
    apply (Hloop (World (<[[images] := KDir]> (fs w)) (out w))); simpl;
      [by rewrite lookup_insert_eq|done|].
    intros n k Hk. destruct (decide ([images] = [n])) as [Heq|Hne].
    + rewrite <- Heq, lookup_insert_eq, Himages. split; congruence.
    + by rewrite lookup_insert_ne.
Qed.

Lemma create_image_directories_reports_each_dated_file_witness :
  ∃ files : list str,
    out (create_image_directories plain dated_file).2
    = out dated_file ++ ((λ n, [splitext_root n; images]) <$> files)
    ∧ if has_magic (target_dir plain)
      then files = filter (λ n, date_search (digits plain) n = true)
                     (matched plain)
      else NoDup files
           ∧ ∀ n, n ∈ files
                  ↔ listable plain = true ∧ dated (digits plain) (fs dated_file) n.
Proof.
  apply (create_image_directories_reports_each_dated_file plain
           dated_file (create_image_directories plain dated_file).2).
  vm_compute. reflexivity.
Defined.

(** ** The date pattern *)

Section DatePattern.
Variable isdecimal : char → bool.

Lemma date_at_token (s : str) :
  date_at isdecimal s = true
  ↔ ∃ y1 y2 y3 y4 m1 m2 d1 d2 post,
      s = [y1; y2; y3; y4; DASH; m1; m2; DASH; d1; d2] ++ post
      ∧ isdecimal y1 = true ∧ isdecimal y2 = true ∧ isdecimal y3 = true
      ∧ isdecimal y4 = true ∧ isdecimal m1 = true ∧ isdecimal m2 = true
      ∧ isdecimal d1 = true ∧ isdecimal d2 = true.
Proof.
  split.
  - do 10 (destruct s as [|? s]; [done|]). simpl.
    rewrite !andb_true_iff, !N.eqb_eq.
    intros Hall.
    repeat match goal with H : _ ∧ _ |- _ => destruct H end. subst.
    by eexists _, _, _, _, _, _, _, _, s.
  - intros (y1&y2&y3&y4&m1&m2&d1&d2&post&->&H1&H2&H3&H4&H5&H6&H7&H8).
    simpl. by rewrite H1, H2, H3, H4, H5, H6, H7, H8.
Qed.

Lemma date_search_somewhere (s : str) :
  date_search isdecimal s = true
  ↔ ∃ pre rest, s = pre ++ rest ∧ date_at isdecimal rest = true.
Proof.
  split.
  - induction s as [|c s IH]; cbn [date_search].
    + rewrite orb_false_r. intros H. by exists [], [].
    + intros [H|H]%orb_true_iff; [by exists [], (c :: s)|].
      destruct (IH H) as (pre & rest & -> & Hrest). by exists (c :: pre), rest.
  - intros (pre & rest & -> & Hrest).
    induction pre as [|c pre IH]; cbn [app date_search].
    + destruct rest; cbn [date_search]; by rewrite Hrest.
    + by rewrite IH, orb_true_r.
Qed.
End DatePattern.

(** X9.  The date pattern of [create_image_directories] is found in a name
    exactly when the name holds, anywhere, four decimal digits, a dash, two
    decimal digits, a dash and two decimal digits; whether the digits make
    a date of the calendar is not looked at.  A name of fewer than ten
    characters is never matched. *)
Theorem date_search_finds_the_token :
  ∀ (isdecimal : char → bool) (s : str),
    (date_search isdecimal s = true
     ↔ ∃ pre y1 y2 y3 y4 m1 m2 d1 d2 post,
         s = pre ++ [y1; y2; y3; y4; DASH; m1; m2; DASH; d1; d2] ++ post
         ∧ isdecimal y1 = true ∧ isdecimal y2 = true ∧ isdecimal y3 = true
         ∧ isdecimal y4 = true ∧ isdecimal m1 = true ∧ isdecimal m2 = true
         ∧ isdecimal d1 = true ∧ isdecimal d2 = true)
    ∧ (length s < 10 → date_search isdecimal s = false).
Proof.
  intros isdecimal s.
  assert (date_search isdecimal s = true
     ↔ ∃ pre y1 y2 y3 y4 m1 m2 d1 d2 post,
         s = pre ++ [y1; y2; y3; y4; DASH; m1; m2; DASH; d1; d2] ++ post
         ∧ isdecimal y1 = true ∧ isdecimal y2 = true ∧ isdecimal y3 = true
         ∧ isdecimal y4 = true ∧ isdecimal m1 = true ∧ isdecimal m2 = true
         ∧ isdecimal d1 = true ∧ isdecimal d2 = true) as Hiff.
  { rewrite date_search_somewhere. split.
    - intros (pre & rest & -> & Hrest). apply date_at_token in Hrest
        as (y1&y2&y3&y4&m1&m2&d1&d2&post&->&H).
      by exists pre, y1, y2, y3, y4, m1, m2, d1, d2, post.
    - intros (pre&y1&y2&y3&y4&m1&m2&d1&d2&post&->&H).
      eexists pre, _. split; [done|]. apply date_at_token.
      by exists y1, y2, y3, y4, m1, m2, d1, d2, post. }
  split; [done|]. intros Hlen.
  destruct (date_search isdecimal s) eqn:Hs; [|done].
  destruct (proj1 Hiff eq_refl) as (pre&y1&y2&y3&y4&m1&m2&d1&d2&post&->&_).
  rewrite length_app in Hlen. simpl in Hlen. lia.
Qed.

Lemma date_search_finds_the_token_witness :
  date_search ascii_digit (of_string "9-99-99") = false.
Proof.
  apply (proj2 (date_search_finds_the_token ascii_digit (of_string "9-99-99"))).
  vm_compute. lia.
Defined.

End DateFoldersMore.

(** * The parser on trees written as indented text *)

Module DocumentFacts.
Import Document.

(** Induction on trees, with the induction hypothesis for the elements of
    a list and for the values of a mapping. *)
Lemma tree_nested_ind (P : tree → Prop) :
  (∀ s, P (TStr s)) →
  (∀ l, Forall P l → P (TList l)) →
  (∀ d, Forall (λ kv, P kv.2) d → P (TDict d)) →
  ∀ t, P t.
Proof.
  intros Hs Hl Hd. fix IH 1. intros [s|l|d].
  - apply Hs.
  - apply Hl. induction l as [|t l IHl]; constructor; [apply IH|apply IHl].
  - apply Hd. induction d as [|[k t] d IHd]; constructor; [apply IH|apply IHd].
Qed.

(** ** Lines with indentation *)

Lemma lstrip_spaces (ws s : list N) :
  Forall (λ c, isspace c = true) ws → lstrip (ws ++ s) = lstrip s.
Proof. induction 1 as [|c ws Hc _ IH]; simpl; [done|]. by rewrite Hc. Qed.

Lemma spaces_isspace (n : nat) : Forall (λ c, isspace c = true) (spaces n).
Proof. unfold spaces. induction n; simpl; by constructor. Qed.

Lemma spaces_no_linebreak (n : nat) :
  Forall (λ c, islinebreak c = false) (spaces n).
Proof. unfold spaces. induction n; simpl; by constructor. Qed.

Lemma indent_of_spaces (n : nat) (c : N) (s : list N) :
  isspace c = false → indent_of (spaces n ++ c :: s) = n.
Proof.
  intros Hc. unfold indent_of.
  rewrite (lstrip_spaces _ _ (spaces_isspace n)). cbn [lstrip]. rewrite Hc.
  rewrite length_app. unfold spaces. rewrite length_replicate. lia.
Qed.

Lemma strip_spaces (n : nat) (c : N) (s : list N) :
  isspace c = false → strip (spaces n ++ c :: s) ≠ [].
Proof.
  intros Hc. unfold strip.
  rewrite (lstrip_spaces _ _ (spaces_isspace n)).
  by apply (strip_nonblank c s).
Qed.

Lemma not_LF_of_no_linebreak (s : list N) :
  Forall (λ c, islinebreak c = false) s → LF ∉ s.
Proof. intros Hs HLF. rewrite Forall_forall in Hs. by specialize (Hs _ HLF). Qed.

(** The line [key: v] at indentation [ind]. *)
Lemma value_line_facts (ind : nat) (key v : list N) :
  clean key → COLON ∉ key → clean v →
  strip (spaces ind ++ key_value_line key v) ≠ []
  ∧ indent_of (spaces ind ++ key_value_line key v) = ind
  ∧ Re.key_value (spaces ind ++ key_value_line key v) = Some (key, v)
  ∧ Forall (λ c, islinebreak c = false) (spaces ind ++ key_value_line key v).
Proof.
  intros Hkey Hcolon Hv.
  pose proof (clean_line_no_linebreak key v Hkey Hv) as Hnl.
  destruct (clean_head key Hkey) as (c & k' & -> & Hc).
  destruct (clean_head v Hv) as (x & v' & -> & Hx).
  assert (Forall (λ c, islinebreak c = false)
            (spaces ind ++ key_value_line (c :: k') (x :: v'))) as Hnl'.
  { apply Forall_app. split; [apply spaces_no_linebreak|done]. }
  unfold key_value_line in *. split_and!; [| | |done].
  - by apply strip_spaces.
  - by apply indent_of_spaces.
  - etrans; [apply (key_value_split (spaces ind) c k' (SP :: x :: v'))|].
    + apply spaces_isspace.
    + done.
    + by eapply not_elem_of_tail.
    + by apply not_LF_of_no_linebreak.
    + cbn [lstrip]. replace (isspace SP) with true by done. by rewrite Hx.
Qed.

(** The line [key:] at indentation [ind]. *)
Lemma header_line_facts (ind : nat) (key : list N) :
  clean key → COLON ∉ key →
  strip (spaces ind ++ key ++ [COLON]) ≠ []
  ∧ indent_of (spaces ind ++ key ++ [COLON]) = ind
  ∧ Re.key_value (spaces ind ++ key ++ [COLON]) = Some (key, [])
  ∧ Forall (λ c, islinebreak c = false) (spaces ind ++ key ++ [COLON]).
Proof.
  intros Hkey Hcolon.
  assert (Forall (λ c, islinebreak c = false) (spaces ind ++ key ++ [COLON]))
    as Hnl.
  { destruct Hkey as (_ & _ & Hk). apply Forall_app.
    split; [apply spaces_no_linebreak|]. apply Forall_app.
    split; [done|by repeat constructor]. }
  destruct (clean_head key Hkey) as (c & k' & -> & Hc).
  split_and!; [| | |done].
  - by apply strip_spaces.
  - by apply indent_of_spaces.
  - apply (key_value_split (spaces ind) c k' []).
    + apply spaces_isspace.
    + done.
    + by eapply not_elem_of_tail.
    + by apply not_LF_of_no_linebreak.
Qed.

(** ** Texts and lines *)

Lemma splitlines_unlines (ls : list (list N)) :
  Forall (Forall (λ c, islinebreak c = false)) ls →
  splitlines (unlines ls) = ls.
Proof.
  unfold splitlines, unlines. induction 1 as [|l ls Hl _ IH]; [done|].
  cbn [map concat]. rewrite <- app_assoc. cbn [app].
  rewrite (splitlines_from_line [] l _ Hl). by rewrite IH.
Qed.

Lemma run_lines_app (st : pstate) (l1 l2 : list (list N)) :
  run_lines st (l1 ++ l2) = run_lines st l1 ≫= λ st1, run_lines st1 l2.
Proof.
  revert st. induction l1 as [|l l1 IH]; intros st; [done|].
  cbn [app run_lines]. destruct (process_line st l) as [st1|]; [|done].
  cbn. apply IH.
Qed.

(** ** The stack *)

Lemma pop_while_idemp (i : nat) (stk : list (nat * nat)) :
  pop_while i (pop_while i stk) = pop_while i stk.
Proof.
  induction stk as [|[j a] stk IH]; [done|]. cbn [pop_while].
  destruct (decide (i ≤ j)) as [Hle|Hgt]; [done|].
  cbn [pop_while]. by rewrite decide_False.
Qed.

Lemma pop_while_pop_while (i j : nat) (stk : list (nat * nat)) :
  i ≤ j → pop_while i (pop_while j stk) = pop_while i stk.
Proof.
  intros Hij. induction stk as [|[k a] stk IH]; [done|]. cbn [pop_while].
  destruct (decide (j ≤ k)) as [Hle|Hgt].
  - rewrite IH. by rewrite decide_True by lia.
  - done.
Qed.

(** ** Dictionaries with a fresh or a last key *)

Lemma dict_set_fresh (key : list N) (v : pyval) (d : list (list N * pyval)) :
  key ∉ d.*1 → dict_set key v d = d ++ [(key, v)].
Proof.
  induction d as [|[k w] d IH]; [done|]. rewrite fmap_cons, not_elem_of_cons.
  intros [Hne Hd]. cbn [dict_set app]. rewrite decide_False by done.
  by rewrite IH.
Qed.

Lemma dict_get_last (key : list N) (v : pyval) (d : list (list N * pyval)) :
  key ∉ d.*1 → dict_get key (d ++ [(key, v)]) = Some v.
Proof.
  intros Hd. rewrite <- (dict_set_fresh key v d Hd).
  by rewrite dict_get_set, decide_True.
Qed.

Lemma dict_set_last (key : list N) (v w : pyval) (d : list (list N * pyval)) :
  key ∉ d.*1 → dict_set key v (d ++ [(key, w)]) = d ++ [(key, v)].
Proof.
  intros Hd. rewrite <- (dict_set_fresh key w d Hd), dict_set_set.
  by apply dict_set_fresh.
Qed.

(** ** Values that stand for trees *)

Lemma Forall2_rep_impl (P Q : tree → pyval → Prop)
    (d : list (list N * tree)) (pd : list (list N * pyval)) :
  Forall (λ kt, ∀ v, P kt.2 v → Q kt.2 v) d →
  Forall2 (λ kt kv, kv.1 = kt.1 ∧ P kt.2 kv.2) d pd →
  Forall2 (λ kt kv, kv.1 = kt.1 ∧ Q kt.2 kv.2) d pd.
Proof.
  intros HF H2. induction H2 as [|kt kv d pd [Hk HP] _ IH]; [constructor|].
  apply Forall_cons in HF as [Hkt HF]. constructor; [|by apply IH].
  split; [done|by apply Hkt].
Qed.

Lemma rep_weaken (lo lo' : nat) (h : list (list (list N * pyval))) (t : tree) :
  lo' ≤ lo → ∀ v, rep lo h t v → rep lo' h t v.
Proof.
  intros Hlo. induction t as [s|l _|d IH] using tree_nested_ind;
    intros v Hrep; inversion Hrep; subst; try constructor.
  eapply rep_dict; [lia|done|]. by eapply Forall2_rep_impl.
Qed.

(** A store that agrees with [h] from [lo] on stands for the same trees. *)
Lemma rep_frame (lo : nat) (h h' : list (list (list N * pyval))) (t : tree) :
  (∀ a, lo ≤ a → a < length h → h' !! a = h !! a) →
  ∀ v, rep lo h t v → rep lo h' t v.
Proof.
  intros Hsame. induction t as [s|l _|d IH] using tree_nested_ind;
    intros v Hrep; inversion Hrep; subst; try constructor.
  eapply rep_dict; [done| |by eapply Forall2_rep_impl].
  rewrite Hsame; [done|done|]. by eapply lookup_lt_Some.
Qed.

(** What is read back from a value is the tree it stands for. *)
Lemma reify_rep (lo : nat) (h : list (list (list N * pyval))) (fuel : nat) :
  ∀ t v t', rep lo h t v → reify fuel h v = Some t' → t' = t.
Proof.
  induction fuel as [|f IH]; intros t v t' Hrep Hread; [done|].
  inversion Hrep as [s|vs|d a pd Hlo Ha Hd]; subst.
  - by injection Hread as <-.
  - rewrite reify_list in Hread.
    destruct (mapM (reify f h) (PStr <$> vs)) as [ts|] eqn:Hts; [|done].
    injection Hread as <-. f_equal. apply mapM_Some_1 in Hts.
    clear -Hts. revert ts Hts. induction vs as [|s vs IHvs]; intros ts Hts.
    + by inversion Hts.
    + rewrite fmap_cons in Hts. inversion Hts as [|? y ? ts' Hy Hrest]; subst.
      rewrite fmap_cons. f_equal; [|by apply IHvs].
      destruct f; [done|]. by injection Hy as <-.
  - rewrite reify_ref, Ha in Hread. simpl in Hread.
    destruct (mapM (λ kv, pair kv.1 <$> reify f h kv.2) pd) as [d'|] eqn:Hd';
      [|done].
    injection Hread as <-. f_equal. apply mapM_Some_1 in Hd'.
    clear -IH Hd Hd'. revert d' Hd'.
    induction Hd as [|[k t] [k' v] d pd [Hk Ht] _ IHd]; intros d' Hd'.
    + by inversion Hd'.
    + inversion Hd' as [|? kt' ? d'' Hkt Hrest]; subst. simpl in *. subst k'.
      destruct (reify f h v) as [t''|] eqn:Hv; [|done].
      injection Hkt as <-. rewrite (IH t v t'' Ht Hv).
      f_equal. by apply IHd.
Qed.

(** ** One line *)

Lemma process_line_fresh st (line g1 g2 : list N) d :
  strip line ≠ [] →
  Re.key_value line = Some (g1, g2) →
  strip g2 ≠ [] →
  heap st !! parent_of (pop_while (indent_of line) (stack st)) = Some d →
  dict_get (strip g1) d = None →
  process_line st line
  = Some (PState
            (<[parent_of (pop_while (indent_of line) (stack st))
               := dict_set (strip g1) (PStr (strip g2)) d]> (heap st))
            (pop_while (indent_of line) (stack st))).
Proof.
  intros Hline Hkv Hvalue Hd Hget. unfold process_line.
  rewrite decide_False by done. rewrite Hkv, Hd. simpl.
  rewrite decide_False by done. unfold add_value. by rewrite Hget.
Qed.

Lemma clean_strip (s : list N) : clean s → strip s = s ∧ s ≠ [].
Proof. by intros (? & ? & _). Qed.

(** The first line of a key. *)
Lemma value_line_fresh (ind : nat) (key v : list N) st dp :
  clean key → COLON ∉ key → clean v →
  heap st !! parent_of (pop_while ind (stack st)) = Some dp →
  key ∉ dp.*1 →
  process_line st (spaces ind ++ key_value_line key v)
  = Some (PState
            (<[parent_of (pop_while ind (stack st))
               := dp ++ [(key, PStr v)]]> (heap st))
            (pop_while ind (stack st))).
Proof.
  intros Hkey Hcolon Hv Hdp Hfresh.
  destruct (value_line_facts ind key v Hkey Hcolon Hv) as (Hs & Hi & Hkv & _).
  destruct (clean_strip key Hkey) as [Hsk _].
  destruct (clean_strip v Hv) as [Hsv Hnv].
  rewrite (process_line_fresh st _ key v dp); rewrite ?Hi, ?Hsk, ?Hsv; try done.
  - by rewrite dict_set_fresh.
  - by apply dict_get_None.
Qed.

(** A further line of a key, which is the last one of its dictionary. *)
Lemma value_line_repeat (ind : nat) (key v : list N) st dp old :
  clean key → COLON ∉ key → clean v →
  heap st !! parent_of (pop_while ind (stack st)) = Some (dp ++ [(key, old)]) →
  key ∉ dp.*1 →
  process_line st (spaces ind ++ key_value_line key v)
  = Some (PState
            (<[parent_of (pop_while ind (stack st))
               := dp ++ [(key, appended old v)]]> (heap st))
            (pop_while ind (stack st))).
Proof.
  intros Hkey Hcolon Hv Hdp Hfresh.
  destruct (value_line_facts ind key v Hkey Hcolon Hv) as (Hs & Hi & Hkv & _).
  destruct (clean_strip key Hkey) as [Hsk _].
  destruct (clean_strip v Hv) as [Hsv Hnv].
  rewrite (process_line_repeat st _ key v (dp ++ [(key, old)]) old);
    rewrite ?Hi, ?Hsk, ?Hsv; try done.
  - by rewrite dict_set_last.
  - by apply dict_get_last.
Qed.

(** The line that opens a nested mapping. *)
Lemma header_line_fresh (ind : nat) (key : list N) st dp :
  clean key → COLON ∉ key →
  heap st !! parent_of (pop_while ind (stack st)) = Some dp →
  key ∉ dp.*1 →
  process_line st (spaces ind ++ key ++ [COLON])
  = Some (PState
            (<[parent_of (pop_while ind (stack st))
               := dp ++ [(key, PRef (length (heap st)))]]> (heap st) ++ [[]])
            ((ind, length (heap st)) :: pop_while ind (stack st))).
Proof.
  intros Hkey Hcolon Hdp Hfresh.
  destruct (header_line_facts ind key Hkey Hcolon) as (Hs & Hi & Hkv & _).
  destruct (clean_strip key Hkey) as [Hsk _].
  rewrite (process_line_open st _ key [] dp); rewrite ?Hi, ?Hsk; try done.
  by rewrite dict_set_fresh.
Qed.

(** ** The lines of a list *)

Lemma foldl_appended (l : list pyval) (vs : list (list N)) :
  foldl appended (PList l) vs = PList (l ++ (PStr <$> vs)).
Proof.
  revert l. induction vs as [|v vs IH]; intros l; simpl.
  - by rewrite app_nil_r.
  - by rewrite IH, <- app_assoc.
Qed.

Lemma render_list (ind : nat) (key : list N) (vs : list (list N)) :
  render ind key (TList (TStr <$> vs))
  = (λ v, spaces ind ++ key_value_line key v) <$> vs.
Proof.
  cbn [render]. induction vs as [|v vs IH]; [done|].
  rewrite !fmap_cons. cbn [flat_map app]. by rewrite IH.
Qed.

Lemma run_repeats (ind : nat) (key : list N) (vs : list (list N)) :
  clean key → COLON ∉ key → Forall clean vs →
  ∀ st dp old,
    heap st !! parent_of (pop_while ind (stack st))
    = Some (dp ++ [(key, old)]) →
    key ∉ dp.*1 →
    ∃ st',
      run_lines st ((λ v, spaces ind ++ key_value_line key v) <$> vs)
      = Some st'
      ∧ pop_while ind (stack st') = pop_while ind (stack st)
      ∧ length (heap st') = length (heap st)
      ∧ (∀ a, a ≠ parent_of (pop_while ind (stack st)) →
              heap st' !! a = heap st !! a)
      ∧ heap st' !! parent_of (pop_while ind (stack st))
        = Some (dp ++ [(key, foldl appended old vs)]).
Proof.
  intros Hkey Hcolon Hvs.
  induction Hvs as [|v vs Hv _ IH]; intros st dp old Hdp Hfresh.
  - by exists st.
  - rewrite fmap_cons. cbn [run_lines].
    rewrite (value_line_repeat ind key v st dp old) by done.
    cbn [mbind option_bind].
    pose proof (lookup_lt_Some _ _ _ Hdp) as Hlt.
    match goal with
    | |- context [run_lines ?s _] =>
        destruct (IH s dp (appended old v))
          as (st' & Hrun & Hstk & Hlen & Hframe & Hp)
    end.
    { cbn [heap stack]. rewrite pop_while_idemp.
      by apply list_lookup_insert_eq. }
    { done. }
    cbn [heap stack] in *. rewrite pop_while_idemp in *.
    rewrite length_insert in Hlen.
    exists st'. split_and!; try done.
    intros a Ha. rewrite Hframe by done. by rewrite list_lookup_insert_ne.
Qed.

(** ** The entries of a mapping, one after the other *)

Lemma run_entries (ind : nat) (d : list (list N * tree)) :
  NoDup d.*1 →
  Forall (λ kv, ∀ st dp,
            heap st !! parent_of (pop_while ind (stack st)) = Some dp →
            kv.1 ∉ dp.*1 →
            ∃ st', run_lines st (render ind kv.1 kv.2) = Some st'
                   ∧ entry_added ind kv.1 kv.2 st st') d →
  ∀ st dp,
    heap st !! parent_of (pop_while ind (stack st)) = Some dp →
    (∀ k, k ∈ d.*1 → k ∉ dp.*1) →
    ∃ st' pd,
      run_lines st (render_entries ind d) = Some st'
      ∧ pop_while ind (stack st') = pop_while ind (stack st)
      ∧ length (heap st) ≤ length (heap st')
      ∧ (∀ a, a < length (heap st) →
              a ≠ parent_of (pop_while ind (stack st)) →
              heap st' !! a = heap st !! a)
      ∧ heap st' !! parent_of (pop_while ind (stack st)) = Some (dp ++ pd)
      ∧ Forall2 (λ kt kv, kv.1 = kt.1
                          ∧ rep (length (heap st)) (heap st') kt.2 kv.2) d pd.
Proof.
  intros Hnd Hd. induction Hd as [|[k t] d Hkt _ IH]; intros st dp Hdp Hfresh.
  - exists st, []. rewrite app_nil_r. by split_and!.
  - rewrite fmap_cons in Hnd, Hfresh. apply NoDup_cons in Hnd as [Hk Hnd].
    cbn [fst snd] in *.
    destruct (Hkt st dp Hdp) as (st1 & Hrun1 & Hstk1 & Hlen1 & Hframe1 & Hp1).
    { apply Hfresh. left. }
    destruct Hp1 as (dp' & v & Hdp' & Hp1 & Hrep1).
    rewrite Hdp in Hdp'. injection Hdp' as <-.
    pose proof (lookup_lt_Some _ _ _ Hdp) as Hlt.
    destruct (IH Hnd st1 (dp ++ [(k, v)]))
      as (st' & pd & Hrun & Hstk & Hlen & Hframe & Hp & Hreps).
    { by rewrite Hstk1. }
    { intros k' Hk'. rewrite fmap_app, elem_of_app. cbn.
      intros [Hin|Hin%list_elem_of_singleton].
      - by apply (Hfresh k'); [right|].
      - by subst. }
    rewrite Hstk1 in Hstk, Hframe, Hp.
    exists st', ((k, v) :: pd).
    unfold render_entries in *. cbn [flat_map fst snd].
    rewrite run_lines_app, Hrun1. cbn [mbind option_bind].
    split_and!; try done.
    + lia.
    + intros a Ha Hne. rewrite Hframe by (done || lia). by apply Hframe1.
    + by rewrite Hp, <- app_assoc.
    + constructor.
      * split; [done|]. cbn [snd].
        eapply rep_frame; [|done]. intros a Hlo Ha. apply Hframe; [done|lia].
      * eapply Forall2_impl; [done|]. intros kt kv [? ?]. split; [done|].
        by eapply rep_weaken.
Qed.

(** ** The lines of one entry *)

Lemma pop_while_deeper (ind a : nat) (stk : list (nat * nat)) :
  pop_while (ind + 2) ((ind, a) :: stk) = (ind, a) :: stk.
Proof. cbn [pop_while]. by rewrite decide_False by lia. Qed.

Lemma render_adds_entry (t : tree) :
  printable t →
  ∀ ind key st dp,
    clean key → COLON ∉ key →
    heap st !! parent_of (pop_while ind (stack st)) = Some dp →
    key ∉ dp.*1 →
    ∃ st', run_lines st (render ind key t) = Some st'
           ∧ entry_added ind key t st st'.
Proof.
  induction t as [s|l _|d IH] using tree_nested_ind;
    intros Hp ind key st dp Hkey Hcolon Hdp Hfresh;
    inversion Hp as [v Hv|vs Hlen Hvs|d' Hnd Hd]; subst;
    pose proof (lookup_lt_Some _ _ _ Hdp) as Hlt.
  - cbn [render run_lines]. rewrite (value_line_fresh ind key s st dp) by done.
    cbn [mbind option_bind]. eexists. split; [done|].
    unfold entry_added. cbn [heap stack]. split_and!.
    + apply pop_while_idemp.
    + by rewrite length_insert.
    + intros a _ Hne. by rewrite list_lookup_insert_ne.
    + exists dp, (PStr s).
      split_and!; [done|by apply list_lookup_insert_eq|constructor].
  - rewrite render_list. destruct vs as [|v0 vs]; [simpl in Hlen; lia|].
    apply Forall_cons in Hvs as [Hv0 Hvs].
    destruct vs as [|v1 vs]; [simpl in Hlen; lia|].
    rewrite fmap_cons. cbn [run_lines].
    rewrite (value_line_fresh ind key v0 st dp) by done.
    cbn [mbind option_bind].
    match goal with
    | |- context [run_lines ?s _] =>
        destruct (run_repeats ind key (v1 :: vs) Hkey Hcolon Hvs s dp (PStr v0))
          as (st' & Hrun & Hstk & Hlen' & Hframe & Hp')
    end.
    { cbn [heap stack]. rewrite pop_while_idemp.
      by apply list_lookup_insert_eq. }
    { done. }
    cbn [heap stack] in *. rewrite pop_while_idemp in *.
    rewrite length_insert in Hlen'.
    exists st'. split; [done|]. unfold entry_added. split_and!.
    + done.
    + lia.
    + intros a _ Hne. rewrite Hframe by done. by rewrite list_lookup_insert_ne.
    + exists dp, (PList (PStr <$> v0 :: v1 :: vs)).
      split_and!; [done| |constructor].
      rewrite Hp'. cbn [foldl appended]. by rewrite foldl_appended.
  - assert (Forall (λ kv, ∀ st dp,
              heap st !! parent_of (pop_while (ind + 2) (stack st)) = Some dp →
              kv.1 ∉ dp.*1 →
              ∃ st', run_lines st (render (ind + 2) kv.1 kv.2) = Some st'
                     ∧ entry_added (ind + 2) kv.1 kv.2 st st') d) as Hall.
    { apply Forall_forall. intros kv Hin st0 dp0 H0 Hf0.
      rewrite Forall_forall in IH, Hd.
      destruct (Hd kv Hin) as (Hck & Hcc & Hpk).
      exact (IH kv Hin Hpk (ind + 2) kv.1 st0 dp0 Hck Hcc H0 Hf0). }
    cbn [render run_lines]. rewrite (header_line_fresh ind key st dp) by done.
    cbn [mbind option_bind].
    change (flat_map _ d) with (render_entries (ind + 2) d).
    match goal with
    | |- context [run_lines ?s _] =>
        destruct (run_entries (ind + 2) d Hnd Hall s [])
          as (st' & pd & Hrun & Hstk & Hlen & Hframe & Hp' & Hreps)
    end.
    { cbn [heap stack]. rewrite pop_while_deeper. cbn [parent_of].
      rewrite lookup_app_r by (rewrite length_insert; lia).
      by rewrite length_insert, Nat.sub_diag. }
    { intros k _. apply not_elem_of_nil. }
    cbn [heap stack] in *. rewrite pop_while_deeper in *. cbn [parent_of] in *.
    rewrite length_app, length_insert in *. cbn [length app] in *.
    exists st'. split; [done|]. unfold entry_added. split_and!.
    + rewrite <- (pop_while_pop_while ind (ind + 2)) by lia. rewrite Hstk.
      cbn [pop_while]. rewrite decide_True by lia. apply pop_while_idemp.
    + lia.
    + intros a Ha Hne. rewrite Hframe by lia.
      rewrite lookup_app_l by (rewrite length_insert; lia).
      by rewrite list_lookup_insert_ne.
    + exists dp, (PRef (length (heap st))). split_and!; [done| |].
      * rewrite Hframe by lia.
        rewrite lookup_app_l by (rewrite length_insert; lia).
        by apply list_lookup_insert_eq.
      * eapply rep_dict; [done|exact Hp'|].
        eapply Forall2_impl; [exact Hreps|]. intros kt kv [? ?].
        split; [done|]. eapply rep_weaken; [|done]. lia.
Qed.

Lemma render_no_linebreak (t : tree) :
  printable t →
  ∀ ind key, clean key → COLON ∉ key →
  Forall (Forall (λ c, islinebreak c = false)) (render ind key t).
Proof.
  induction t as [s|l _|d IH] using tree_nested_ind;
    intros Hp ind key Hkey Hcolon;
    inversion Hp as [v Hv|vs Hlen Hvs|d' Hnd Hd]; subst.
  - cbn [render]. constructor; [|constructor]. by apply value_line_facts.
  - rewrite render_list. apply Forall_fmap.
    eapply Forall_impl; [exact Hvs|]. intros v Hv. by apply value_line_facts.
  - cbn [render]. constructor; [by apply header_line_facts|].
    apply Forall_flat_map. rewrite Forall_forall in *. intros kv Hin.
    destruct (Hd kv Hin) as (Hck & Hcc & Hpk). by apply IH.
Qed.

(** ** Writing a mapping and reading it back *)

(** X10. [parse_identify_output] reads back what was written: for a mapping
    whose strings and keys are non-empty, stripped and free of line breaks,
    whose keys hold no colon and differ within each mapping, and whose
    lists hold two strings or more, the text with one line [key: value]
    per string, one such line per string of a list, and a line [key:]
    followed by the entries two columns deeper for a nested mapping, is
    parsed to that mapping: same keys in the same order, same values. *)
Theorem parse_identify_output_reads_back (d : list (list N * tree)) :
  printable (TDict d) →
  parse_identify_output (unlines (render_entries 0 d)) = Some (TDict d).
Proof.
  intros Hp. inversion Hp as [| |d' Hnd Hd]; subst.
  assert (Forall (Forall (λ c, islinebreak c = false)) (render_entries 0 d))
    as Hnl.
  { apply Forall_flat_map. eapply Forall_impl; [exact Hd|].
    intros kv (Hck & Hcc & Hpk). by apply render_no_linebreak. }
  assert (Forall (λ kv, ∀ st dp,
            heap st !! parent_of (pop_while 0 (stack st)) = Some dp →
            kv.1 ∉ dp.*1 →
            ∃ st', run_lines st (render 0 kv.1 kv.2) = Some st'
                   ∧ entry_added 0 kv.1 kv.2 st st') d) as Hall.
  { eapply Forall_impl; [exact Hd|]. intros kv (Hck & Hcc & Hpk) st dp H0 Hf.
    by apply (render_adds_entry kv.2 Hpk 0 kv.1 st dp). }
  destruct (parse_identify_output_returns (λ _, True)
              (unlines (render_entries 0 d)) (λ _, I) (λ _ _ _ _ _, I)
              (λ _ _ _, I)) as (d' & Hparse & _).
  rewrite Hparse. unfold parse_identify_output in Hparse.
  rewrite splitlines_unlines in Hparse by done.
  destruct (run_entries 0 d Hnd Hall init [])
    as (st' & pd & Hrun & _ & _ & _ & Hroot & Hreps).
  { done. }
  { intros k _. apply not_elem_of_nil. }
  rewrite Hrun in Hparse. cbn [mbind option_bind] in Hparse.
  f_equal. eapply reify_rep; [|exact Hparse].
  eapply (rep_dict 0); [lia|exact Hroot|].
  eapply Forall2_impl; [exact Hreps|]. intros kt kv [? ?]. split; [done|].
  eapply rep_weaken; [|done]. lia.
Qed.

Lemma parse_identify_output_reads_back_witness :
  parse_identify_output (unlines (render_entries 0 example_document))
  = Some (TDict example_document).
Proof.
  apply parse_identify_output_reads_back. unfold example_document.
  apply printable_dict; [decide_by_compute|].
  repeat apply List.Forall_cons; try apply List.Forall_nil;
    (split_and!; [decide_by_compute|decide_by_compute|]).
  - apply printable_dict; [decide_by_compute|].
    repeat apply List.Forall_cons; try apply List.Forall_nil;
      (split_and!; [decide_by_compute|decide_by_compute|]).
    + apply printable_str. decide_by_compute.
    + apply printable_dict; [decide_by_compute|].
      repeat apply List.Forall_cons; try apply List.Forall_nil;
        (split_and!; [decide_by_compute|decide_by_compute|]).
      apply printable_str. decide_by_compute.
    + apply (printable_list [of_string "icc"; of_string "exif"]);
        [simpl; lia|decide_by_compute].
  - apply printable_str. decide_by_compute.
Defined.

(** ** Lines that are skipped *)

(** X11. A line that is blank, or that holds no colon, changes nothing:
    the text with such a line anywhere among its lines is parsed to the
    same result as the text without it. *)
Theorem parse_identify_output_skips_line
    (before after : list (list N)) (line : list N) :
  Forall (Forall (λ c, islinebreak c = false)) (before ++ line :: after) →
  strip line = [] ∨ COLON ∉ line →
  parse_identify_output (unlines (before ++ line :: after))
  = parse_identify_output (unlines (before ++ after)).
Proof.
  intros Hnl Hline. pose proof Hnl as Hnl'.
  apply Forall_app in Hnl' as [Hb [_ Ha]%Forall_cons].
  unfold parse_identify_output.
  rewrite !splitlines_unlines by (done || by apply Forall_app).
  rewrite !run_lines_app.
  destruct (run_lines init before) as [st|]; [|done].
  cbn [mbind option_bind run_lines].
  assert (process_line st line = Some st) as ->; [|done].
  destruct Hline as [Hblank|Hcolon].
  - unfold process_line. by rewrite decide_True.
  - by apply process_line_no_colon.
Qed.

Lemma parse_identify_output_skips_line_witness :
  parse_identify_output
    (unlines [of_string "Image:"; of_string "    Geometry 4032x3024";
              of_string "  Format: HEIC"])
  = parse_identify_output
      (unlines [of_string "Image:"; of_string "  Format: HEIC"]).
Proof.
  apply (parse_identify_output_skips_line
           [of_string "Image:"] [of_string "  Format: HEIC"]
           (of_string "    Geometry 4032x3024")).
  - decide_by_compute.
  - right. decide_by_compute.
Defined.

End DocumentFacts.

(** * The parser on texts given by their structure *)

Module OutlineFacts.
Import Document Outline DocumentFacts.

Lemma item_nested_ind (P : item → Prop) :
  (∀ k v, P (Line k v)) →
  (∀ k body, Forall P body → P (Block k body)) →
  ∀ it, P it.
Proof.
  intros Hl Hb. fix IH 1. intros [k v|k body].
  - apply Hl.
  - apply Hb. induction body as [|it body IHb]; constructor;
      [apply IH|apply IHb].
Qed.

(** ** Values that stand for trees *)

Lemma Forall2_stands_impl (P Q : tree → pyval → Prop)
    (ts : list tree) (vs : list pyval) :
  Forall (λ t, ∀ v, P t v → Q t v) ts →
  Forall2 P ts vs → Forall2 Q ts vs.
Proof.
  intros HF H2. induction H2 as [|t v ts vs HP _ IH]; [constructor|].
  apply Forall_cons in HF as [Ht HF]. constructor; [by apply Ht|by apply IH].
Qed.

Lemma stands_for_weaken (lo lo' : nat) (h : list (list (list N * pyval)))
    (t : tree) :
  lo' ≤ lo → ∀ v, stands_for lo h t v → stands_for lo' h t v.
Proof.
  intros Hlo. induction t as [s|l IH|d IH] using tree_nested_ind;
    intros v Hrep; inversion Hrep; subst.
  - constructor.
  - constructor. by eapply Forall2_stands_impl.
  - eapply stands_for_dict; [lia|done|]. by eapply Forall2_rep_impl.
Qed.

Lemma stands_for_frame (lo : nat) (h h' : list (list (list N * pyval)))
    (t : tree) :
  (∀ a, lo ≤ a → a < length h → h' !! a = h !! a) →
  ∀ v, stands_for lo h t v → stands_for lo h' t v.
Proof.
  intros Hsame. induction t as [s|l IH|d IH] using tree_nested_ind;
    intros v Hrep; inversion Hrep; subst.
  - constructor.
  - constructor. by eapply Forall2_stands_impl.
  - eapply stands_for_dict; [done| |by eapply Forall2_rep_impl].
    rewrite Hsame; [done|done|]. by eapply lookup_lt_Some.
Qed.

(** What is read back from a value is the tree it stands for. *)
Lemma reify_stands_for (lo : nat) (h : list (list (list N * pyval)))
    (fuel : nat) :
  ∀ t v t', stands_for lo h t v → reify fuel h v = Some t' → t' = t.
Proof.
  induction fuel as [|f IH]; intros t v t' Hrep Hread; [done|].
  inversion Hrep as [s|ts vs Hts|d a pd Hlo Ha Hd]; subst.
  - by injection Hread as <-.
  - rewrite reify_list in Hread.
    destruct (mapM (reify f h) vs) as [ts'|] eqn:Hts'; [|done].
    injection Hread as <-. f_equal. apply mapM_Some_1 in Hts'.
    clear -IH Hts Hts'. revert ts' Hts'.
    induction Hts as [|t v ts vs Ht _ IHts]; intros ts' Hts'.
    + by inversion Hts'.
    + inversion Hts' as [|? t' ? ts'' Hv Hrest]; subst.
      rewrite (IH t v t' Ht Hv). f_equal. by apply IHts.
  - rewrite reify_ref, Ha in Hread. simpl in Hread.
    destruct (mapM (λ kv, pair kv.1 <$> reify f h kv.2) pd) as [d'|] eqn:Hd';
      [|done].
    injection Hread as <-. f_equal. apply mapM_Some_1 in Hd'.
    clear -IH Hd Hd'. revert d' Hd'.
    induction Hd as [|[k t] [k' v] d pd [Hk Ht] _ IHd]; intros d' Hd'.
    + by inversion Hd'.
    + inversion Hd' as [|? kt' ? d'' Hkt Hrest]; subst. simpl in *. subst k'.
      destruct (reify f h v) as [t''|] eqn:Hv; [|done].
      injection Hkt as <-. rewrite (IH t v t'' Ht Hv).
      f_equal. by apply IHd.
Qed.

(** ** Mappings of trees and the dictionaries that hold them *)

Section Same.
Variable R : tree → pyval → Prop.

Lemma same_get (k : list N) (d : list (list N * tree))
    (pd : list (list N * pyval)) :
  Forall2 (λ kt kv, kv.1 = kt.1 ∧ R kt.2 kv.2) d pd →
  match tree_get k d, dict_get k pd with
  | Some t, Some v => R t v
  | None, None => True
  | _, _ => False
  end.
Proof.
  induction 1 as [|[k1 t] [k2 v] d pd [Hk Ht] _ IH]; [done|].
  simpl in *. subst k2. by destruct (decide (k1 = k)).
Qed.

Lemma same_set (k : list N) (t : tree) (v : pyval)
    (d : list (list N * tree)) (pd : list (list N * pyval)) :
  R t v →
  Forall2 (λ kt kv, kv.1 = kt.1 ∧ R kt.2 kv.2) d pd →
  Forall2 (λ kt kv, kv.1 = kt.1 ∧ R kt.2 kv.2)
    (tree_set k t d) (dict_set k v pd).
Proof.
  intros Htv. induction 1 as [|[k1 t1] [k2 v1] d pd [Hk Ht] Hrest IH].
  - by repeat constructor.
  - simpl in *. subst k2. destruct (decide (k1 = k)); by constructor.
Qed.
End Same.

Lemma stands_for_appended (lo : nat) (h : list (list (list N * pyval)))
    (t : tree) (old : pyval) (v : list N) :
  stands_for lo h t old →
  stands_for lo h (tree_appended t v) (appended old v).
Proof.
  intros Hrep. inversion Hrep; subst; simpl; constructor.
  - by repeat constructor.
  - apply Forall2_app; [done|]. by repeat constructor.
  - repeat constructor. by econstructor.
Qed.

Lemma same_frame (lo : nat) (h h' : list (list (list N * pyval)))
    (d : list (list N * tree)) (pd : list (list N * pyval)) :
  (∀ a, lo ≤ a → a < length h → h' !! a = h !! a) →
  Forall2 (λ kt kv, kv.1 = kt.1 ∧ stands_for lo h kt.2 kv.2) d pd →
  Forall2 (λ kt kv, kv.1 = kt.1 ∧ stands_for lo h' kt.2 kv.2) d pd.
Proof.
  intros Hsame Hd. eapply Forall2_impl; [exact Hd|].
  intros kt kv [? ?]. split; [done|]. by eapply stands_for_frame.
Qed.

(** ** States *)

Lemma extends_refl (ind : nat) (st : pstate) : extends ind st st.
Proof. by split_and!. Qed.

Lemma extends_trans (ind : nat) (st st1 st2 : pstate) :
  extends ind st st1 → extends ind st1 st2 → extends ind st st2.
Proof.
  intros (Hs1 & Hl1 & Hf1) (Hs2 & Hl2 & Hf2). split_and!.
  - by rewrite Hs2.
  - lia.
  - intros a Ha Hne. rewrite Hf2; [by apply Hf1|lia|by rewrite Hs1].
Qed.

(** Setting a key of the dictionary [p] to a value that stands for a
    tree. *)
Lemma holds_update (st : pstate) (p : nat) (stk : list (nat * nat))
    (dp : list (list N * pyval)) (d0 : list (list N * tree))
    (k : list N) (t : tree) (v : pyval) :
  heap st !! p = Some dp →
  Forall2 (λ kt kv, kv.1 = kt.1 ∧ stands_for (S p) (heap st) kt.2 kv.2)
    d0 dp →
  stands_for (S p) (heap st) t v →
  holds (PState (<[p := dict_set k v dp]> (heap st)) stk) p (tree_set k t d0).
Proof.
  intros Hdp Hsame Htv. pose proof (lookup_lt_Some _ _ _ Hdp) as Hlt.
  assert (∀ a, S p ≤ a → a < length (heap st) →
            <[p := dict_set k v dp]> (heap st) !! a = heap st !! a) as Hframe.
  { intros a Hlo _. apply list_lookup_insert_ne. lia. }
  exists (dict_set k v dp). cbn [heap]. split.
  - by apply list_lookup_insert_eq.
  - apply same_set; [by eapply stands_for_frame|by eapply same_frame].
Qed.

Lemma update_extends (ind : nat) (st : pstate) (d : list (list N * pyval)) :
  parent_of (pop_while ind (stack st)) < length (heap st) →
  extends ind st
    (PState (<[parent_of (pop_while ind (stack st)) := d]> (heap st))
       (pop_while ind (stack st))).
Proof.
  intros Hlt. split_and!; cbn [heap stack].
  - apply pop_while_idemp.
  - by rewrite length_insert.
  - intros a _ Hne. by rewrite list_lookup_insert_ne.
Qed.

(** ** The lines of a list of items, one item after the other *)

Lemma items_run (ind : nat) (items : list item) :
  Forall (λ it, ∀ st d0,
            holds st (parent_of (pop_while ind (stack st))) d0 →
            ∃ st', run_lines st (render_item ind it) = Some st'
                   ∧ extends ind st st'
                   ∧ holds st' (parent_of (pop_while ind (stack st)))
                       (put_item it d0)) items →
  ∀ st d0,
    holds st (parent_of (pop_while ind (stack st))) d0 →
    ∃ st', run_lines st (render_items ind items) = Some st'
           ∧ extends ind st st'
           ∧ holds st' (parent_of (pop_while ind (stack st)))
               (put_items items d0).
Proof.
  induction 1 as [|it items Hit _ IH]; intros st d0 Hd.
  - exists st. split_and!; [done|apply extends_refl|done].
  - destruct (Hit st d0 Hd) as (st1 & Hrun1 & Hext1 & Hd1).
    destruct (IH st1 (put_item it d0)) as (st' & Hrun & Hext & Hd').
    { by rewrite (proj1 Hext1). }
    rewrite (proj1 Hext1) in Hd'.
    exists st'. unfold render_items. cbn [flat_map].
    rewrite run_lines_app, Hrun1. cbn [mbind option_bind].
    split_and!; [done|by eapply extends_trans|done].
Qed.

(** ** The lines of one item *)

Lemma item_runs (it : item) :
  well_formed it →
  ∀ ind st d0,
    holds st (parent_of (pop_while ind (stack st))) d0 →
    ∃ st', run_lines st (render_item ind it) = Some st'
           ∧ extends ind st st'
           ∧ holds st' (parent_of (pop_while ind (stack st)))
               (put_item it d0).
Proof.
  induction it as [k v|k body IH] using item_nested_ind;
    intros Hwf ind st d0 (dp & Hdp & Hsame);
    inversion Hwf as [? ? Hk Hcolon Hv|? ? Hk Hcolon Hbody]; subst;
    pose proof (lookup_lt_Some _ _ _ Hdp) as Hlt;
    destruct (clean_strip k Hk) as [Hsk _];
    pose proof (same_get _ k d0 dp Hsame) as Hget.
  - destruct (value_line_facts ind k v Hk Hcolon Hv) as (Hs & Hi & Hkv & _).
    destruct (clean_strip v Hv) as [Hsv Hnv].
    cbn [render_item run_lines put_item].
    destruct (dict_get k dp) as [old|] eqn:Hold;
      destruct (tree_get k d0) as [t|] eqn:Ht; try done.
    + rewrite (process_line_repeat st _ k v dp old);
        rewrite ?Hi, ?Hsk, ?Hsv; try done.
      cbn [mbind option_bind]. eexists. split; [done|].
      split; [by apply update_extends|].
      apply holds_update; [done|done|]. by apply stands_for_appended.
    + rewrite (process_line_fresh st _ k v dp);
        rewrite ?Hi, ?Hsk, ?Hsv; try done.
      cbn [mbind option_bind]. eexists. split; [done|].
      split; [by apply update_extends|].
      apply holds_update; [done|done|constructor].
  - destruct (header_line_facts ind k Hk Hcolon) as (Hs & Hi & Hkv & _).
    cbn [render_item run_lines put_item].
    rewrite (process_line_open st _ k [] dp); rewrite ?Hi, ?Hsk; try done.
    cbn [mbind option_bind].
    change (flat_map _ body) with (render_items (ind + 2) body).
    change (fold_left _ body []) with (put_items body []).
    assert (Forall (λ it, ∀ st d0,
              holds st (parent_of (pop_while (ind + 2) (stack st))) d0 →
              ∃ st', run_lines st (render_item (ind + 2) it) = Some st'
                     ∧ extends (ind + 2) st st'
                     ∧ holds st' (parent_of (pop_while (ind + 2) (stack st)))
                         (put_item it d0)) body) as Hall.
    { rewrite Forall_forall in IH, Hbody. apply Forall_forall.
      intros it Hin st0 d1 H0. by apply IH; [|apply Hbody|]. }
    match goal with
    | |- context [run_lines ?s _] =>
        destruct (items_run (ind + 2) body Hall s [])
          as (st' & Hrun & (Hstk & Hlen & Hframe) & (pd & Hpd & Hsame'))
    end.
    { cbn [heap stack]. rewrite pop_while_deeper. cbn [parent_of].
      exists []. split; [|constructor]. cbn [heap].
      rewrite lookup_app_r by (rewrite length_insert; lia).
      by rewrite length_insert, Nat.sub_diag. }
    cbn [heap stack] in *. rewrite pop_while_deeper in *. cbn [parent_of] in *.
    rewrite length_app, length_insert in *. cbn [length] in *.
    exists st'. split; [done|]. split.
    + split_and!.
      * rewrite <- (pop_while_pop_while ind (ind + 2)) by lia. rewrite Hstk.
        cbn [pop_while]. rewrite decide_True by lia. apply pop_while_idemp.
      * lia.
      * intros a Ha Hne. rewrite Hframe by lia.
        rewrite lookup_app_l by (rewrite length_insert; lia).
        by rewrite list_lookup_insert_ne.
    + assert (∀ a, S (parent_of (pop_while ind (stack st))) ≤ a →
                a < length (heap st) → heap st' !! a = heap st !! a)
        as Hsame_heap.
      { intros a Hlo Ha. rewrite Hframe by lia.
        rewrite lookup_app_l by (rewrite length_insert; lia).
        apply list_lookup_insert_ne. lia. }
      exists (dict_set k (PRef (length (heap st))) dp). split.
      * rewrite Hframe by lia.
        rewrite lookup_app_l by (rewrite length_insert; lia).
        by apply list_lookup_insert_eq.
      * apply same_set; [|by eapply same_frame].
        eapply stands_for_dict; [lia|exact Hpd|].
        eapply Forall2_impl; [exact Hsame'|]. intros kt kv [? ?].
        split; [done|]. eapply stands_for_weaken; [|done]. lia.
Qed.

Lemma render_item_no_linebreak (it : item) :
  well_formed it →
  ∀ ind, Forall (Forall (λ c, islinebreak c = false)) (render_item ind it).
Proof.
  induction it as [k v|k body IH] using item_nested_ind; intros Hwf ind;
    inversion Hwf as [? ? Hk Hcolon Hv|? ? Hk Hcolon Hbody]; subst;
    cbn [render_item].
  - constructor; [|constructor]. by apply value_line_facts.
  - constructor; [by apply header_line_facts|].
    apply Forall_flat_map. rewrite Forall_forall in *. intros it Hin.
    by apply IH; [|apply Hbody].
Qed.

(** ** The parser on a text given by its structure *)

Lemma parse_outline (items : list item) :
  Forall well_formed items →
  parse_identify_output (unlines (render_items 0 items))
  = Some (TDict (put_items items [])).
Proof.
  intros Hwf.
  assert (Forall (Forall (λ c, islinebreak c = false)) (render_items 0 items))
    as Hnl.
  { apply Forall_flat_map. eapply Forall_impl; [exact Hwf|].
    intros it Hit. by apply render_item_no_linebreak. }
  assert (Forall (λ it, ∀ st d0,
            holds st (parent_of (pop_while 0 (stack st))) d0 →
            ∃ st', run_lines st (render_item 0 it) = Some st'
                   ∧ extends 0 st st'
                   ∧ holds st' (parent_of (pop_while 0 (stack st)))
                       (put_item it d0)) items) as Hall.
  { eapply Forall_impl; [exact Hwf|]. intros it Hit st d0 H0.
    by apply item_runs. }
  destruct (parse_identify_output_returns (λ _, True)
              (unlines (render_items 0 items)) (λ _, I) (λ _ _ _ _ _, I)
              (λ _ _ _, I)) as (d' & Hparse & _).
  rewrite Hparse. unfold parse_identify_output in Hparse.
  rewrite splitlines_unlines in Hparse by done.
  destruct (items_run 0 items Hall init [])
    as (st' & Hrun & _ & (pd & Hroot & Hsame)).
  { exists []. split; [done|constructor]. }
  rewrite Hrun in Hparse. cbn [mbind option_bind] in Hparse.
  f_equal. eapply reify_stands_for; [|exact Hparse].
  eapply (stands_for_dict 0); [lia|exact Hroot|].
  eapply Forall2_impl; [exact Hsame|]. intros kt kv [? ?]. split; [done|].
  eapply stands_for_weaken; [|done]. lia.
Qed.

(** ** The mapping of a text *)

Lemma tree_get_set (k k' : list N) (t : tree) (d : list (list N * tree)) :
  tree_get k' (tree_set k t d)
  = if decide (k = k') then Some t else tree_get k' d.
Proof.
  induction d as [|[k1 t1] d IH]; simpl.
  - done.
  - destruct (decide (k1 = k)) as [->|Hk]; simpl.
    + by destruct (decide (k = k')).
    + rewrite IH. destruct (decide (k1 = k')) as [->|Hk']; [|done].
      by rewrite decide_False.
Qed.

Lemma put_item_other (k : list N) (it : item) (d : list (list N * tree)) :
  item_key it ≠ k → tree_get k (put_item it d) = tree_get k d.
Proof.
  destruct it as [k' v|k' body]; cbn [item_key put_item]; intros Hne.
  - destruct (tree_get k' d); by rewrite tree_get_set, decide_False.
  - by rewrite tree_get_set, decide_False.
Qed.

Lemma put_items_app (l1 l2 : list item) (d : list (list N * tree)) :
  put_items (l1 ++ l2) d = put_items l2 (put_items l1 d).
Proof. apply fold_left_app. Qed.

Lemma put_items_other (k : list N) (items : list item)
    (d : list (list N * tree)) :
  k ∉ item_key <$> items → tree_get k (put_items items d) = tree_get k d.
Proof.
  revert d. induction items as [|it items IH]; intros d Hk; [done|].
  rewrite fmap_cons, not_elem_of_cons in Hk. destruct Hk as [Hne Hk].
  change (put_items (it :: items) d) with (put_items items (put_item it d)).
  rewrite IH by done. by apply put_item_other.
Qed.

(** The key [k] set by a line, a second line appending to it, and other
    keys around them. *)
Lemma put_items_repeated (b1 b2 b3 : list item) (k v1 v2 : list N)
    (d : list (list N * tree)) :
  k ∉ item_key <$> (b1 ++ b2 ++ b3) →
  tree_get k d = None →
  tree_get k (put_items (b1 ++ Line k v1 :: b2 ++ Line k v2 :: b3) d)
  = Some (TList [TStr v1; TStr v2]).
Proof.
  rewrite !fmap_app, !not_elem_of_app. intros (H1 & H2 & H3) Hd.
  rewrite put_items_app.
  change (put_items (Line k v1 :: ?l) ?d0)
    with (put_items l (put_item (Line k v1) d0)).
  rewrite put_items_app.
  change (put_items (Line k v2 :: ?l) ?d0)
    with (put_items l (put_item (Line k v2) d0)).
  rewrite put_items_other by done.
  assert (tree_get k (put_items b2 (put_item (Line k v1) (put_items b1 d)))
          = Some (TStr v1)) as Hfirst.
  { rewrite put_items_other by done. cbn [put_item].
    rewrite put_items_other, Hd by done.
    by rewrite tree_get_set, decide_True. }
  cbn [put_item] in *. rewrite Hfirst. cbn [tree_appended].
  by rewrite tree_get_set, decide_True.
Qed.

(** The mapping at the end of a path of blocks that nothing overwrites. *)
Lemma tree_at_nest (path : list (list item * list N * list item))
    (body : list item) (k : list N) (d : list (list N * tree)) :
  Forall (λ step, step.1.2 ∉ item_key <$> step.2) path →
  tree_at (path_keys path ++ [k]) (TDict (put_items (nest path body) d))
  = tree_get k (put_items body (match path with [] => d | _ => [] end)).
Proof.
  intros Hpath. revert d.
  induction Hpath as [|[[before kb] after] path Hkb _ IH]; intros d.
  - cbn [path_keys fmap list_fmap app nest tree_at].
    by destruct (tree_get k (put_items body d)).
  - cbn [nest path_keys fmap list_fmap app tree_at fst snd] in *.
    rewrite put_items_app.
    change (put_items (Block kb ?b :: ?l) ?d0)
      with (put_items l (put_item (Block kb b) d0)).
    rewrite put_items_other by done. cbn [put_item].
    rewrite tree_get_set, decide_True by done. cbn [mbind option_bind].
    change (fold_left _ ?b []) with (put_items b []).
    etrans; [apply (IH [])|]. by destruct path.
Qed.

(** ** The claim about a repeated key *)

(** C5.  A second occurrence of a key with a value that is not empty, in
    the dictionary that already holds a string under that key, replaces the
    string by the list of that string and the new value.  End to end, at
    every nesting level: in a text given by its structure, below any path
    of blocks (with any items before and after each block that do not set
    its key again), with any items before, between and after the two lines
    [k: v1] and [k: v2] that do not have the key [k] (blocks that go
    deeper and come back included), the parser returns a mapping that
    holds, at that path and under [k], the list of [v1] and [v2].  On
    every text of two lines [key: v1], [key: v2] the parser returns the
    mapping of [key] to the list of [v1] and [v2]; in particular on the
    two lines [X: 1], [X: 2] it returns the mapping of [X] to the list of
    [1] and [2]. *)
Theorem repeated_key_promotes_scalar :
  (∀ st (line g1 g2 : list N) d (old : list N),
     strip line ≠ [] →
     Re.key_value line = Some (g1, g2) →
     strip g2 ≠ [] →
     heap st !! parent_of (pop_while (indent_of line) (stack st)) = Some d →
     dict_get (strip g1) d = Some (PStr old) →
     process_line st line
     = Some (PState
               (<[parent_of (pop_while (indent_of line) (stack st))
                  := dict_set (strip g1) (PList [PStr old; PStr (strip g2)]) d]>
                  (heap st))
               (pop_while (indent_of line) (stack st))))
  ∧ (∀ (path : list (list item * list N * list item))
       (b1 b2 b3 : list item) (k v1 v2 : list N),
       Forall well_formed
         (nest path (b1 ++ Line k v1 :: b2 ++ Line k v2 :: b3)) →
       k ∉ item_key <$> (b1 ++ b2 ++ b3) →
       Forall (λ step, step.1.2 ∉ item_key <$> step.2) path →
       ∃ t,
         parse_identify_output
           (unlines
              (render_items 0
                 (nest path (b1 ++ Line k v1 :: b2 ++ Line k v2 :: b3))))
         = Some t
         ∧ tree_at (path_keys path ++ [k]) t
           = Some (TList [TStr v1; TStr v2]))
  ∧ (∀ key v1 v2 : list N,
       clean key → COLON ∉ key → clean v1 → clean v2 →
       parse_identify_output
         (key_value_line key v1 ++ LF :: key_value_line key v2 ++ [LF])
       = Some (TDict [(key, TList [TStr v1; TStr v2])]))
  ∧ parse_identify_output (txt ["X: 1"; "X: 2"]%string)
    = Some (TDict [(of_string "X",
                    TList [TStr (of_string "1"); TStr (of_string "2")])]).
Proof.
  split_and!; [| | |vm_compute; reflexivity].
  - intros st line g1 g2 d old Hline Hkv Hvalue Hd Hget.
    by rewrite (process_line_repeat st line g1 g2 d (PStr old)).
  - intros path b1 b2 b3 k v1 v2 Hwf Hk Hpath. eexists.
    split; [by apply parse_outline|].
    rewrite tree_at_nest by done. apply put_items_repeated; [done|].
    by destruct path.
  - apply parse_repeated_top_level_key.
Qed.

Lemma repeated_key_promotes_scalar_witness :
  process_line (PState [[(of_string "X", PStr (of_string "1"))]] [])
    (of_string "X: 2")
  = Some (PState
            [[(of_string "X",
               PList [PStr (of_string "1"); PStr (of_string "2")])]] [])
  ∧ (∃ t,
       parse_identify_output
         (unlines
            (render_items 0
               (nest example_path
                  ([] ++ Line (of_string "X") (of_string "1")
                   :: example_between
                   ++ Line (of_string "X") (of_string "2") :: []))))
       = Some t
       ∧ tree_at (path_keys example_path ++ [of_string "X"]) t
         = Some (TList [TStr (of_string "1"); TStr (of_string "2")]))
  ∧ parse_identify_output
      (key_value_line (of_string "Key") (of_string "a b")
       ++ LF :: key_value_line (of_string "Key") (of_string "c") ++ [LF])
    = Some (TDict [(of_string "Key",
                    TList [TStr (of_string "a b"); TStr (of_string "c")])]).
Proof.
  split; [|split].
  - apply (proj1 repeated_key_promotes_scalar
             (PState [[(of_string "X", PStr (of_string "1"))]] [])
             (of_string "X: 2") (of_string "X") (of_string "2")
             [(of_string "X", PStr (of_string "1"))] (of_string "1"));
      vm_compute; (reflexivity || discriminate).
  - apply (proj1 (proj2 repeated_key_promotes_scalar)
             example_path [] example_between []
             (of_string "X") (of_string "1") (of_string "2")).
    + unfold example_path, example_between. cbn [nest app].
      repeat first
        [ apply List.Forall_nil
        | apply List.Forall_cons
        | apply well_formed_line
        | apply well_formed_block
        | decide_by_compute ].
    + decide_by_compute.
    + unfold example_path. repeat constructor. decide_by_compute.
  - apply (proj1 (proj2 (proj2 repeated_key_promotes_scalar))
             (of_string "Key") (of_string "a b") (of_string "c")).
    + split_and!; [done|reflexivity|by repeat constructor].
    + decide_by_compute.
    + split_and!; [done|reflexivity|by repeat constructor].
    + split_and!; [done|reflexivity|by repeat constructor].
Defined.

End OutlineFacts.

